(** * Congestion-probability engine of TEController (tecontroller/res/problib.py)

    A shallow embedding of [ProbabiliyCalculator] and of the two graph helpers
    [getAllPathsLimDAG] and [getMinCapacity], together with the properties the
    specification states about them.

    Conventions of the embedding:
    - Python integers are [Z].
    - The numbers the code computes with (floats, and the integers that are
      mixed into float arithmetic) are the values of a type [num] that comes
      with the operations of the class [Number]. Every definition calls the
      operations the source calls, on the same operands and in the same order,
      and assumes nothing about them. The class has two instances:
      [Binary64.binary64], the IEEE 754 double-precision arithmetic of CPython's
      [float], and [exact], the rationals, for what the same formulas give
      when nothing is rounded.
    - [scipy.misc.comb] and the power [**] of floats are library functions
      whose results depend on the library: they are the operations of the
      class [Special].
    - [self.sdict] is a [gmap] from triples to numbers, the cache file is the
      list of the images that were written to it.
    - Python exceptions are values of [exn] carried by [result]; recursion
      that Rocq cannot see to be structural takes a fuel argument and answers
      [None] only when the fuel is exhausted; the entry points supply fuel
      that is proved to be enough. *)

From Stdlib Require Import ZArith QArith Qpower Qabs Lqa Lia List.
From Stdlib Require Floats.
From stdpp Require Import gmap list strings.

Local Open Scope Z_scope.

(** ** Exceptions *)

Inductive exn : Type :=
| KeyError
| IndexError
| ValueError
| ZeroDivisionError.

Inductive result (A : Type) : Type :=
| Ok (a : A)
| Raise (e : exn).
Arguments Ok {A} a.
Arguments Raise {A} e.

#[global] Instance result_ret : MRet result := λ A a, Ok a.
#[global] Instance result_bind : MBind result := λ A B f r,
  match r with
  | Ok a => f a
  | Raise e => Raise e
  end.

(** ** Numbers *)

(** The arithmetic the module runs on: [float(i)] (and an integer that meets
    a float in an operation), [+], [-], [*], [/] and [<]. Python raises
    [ZeroDivisionError] on a zero divisor; the divisors of the module are
    floats of integers, which the definitions test before they divide. *)
Class Number (num : Type) : Type := {
  of_int : Z → num;
  fadd : num → num → num;
  fsub : num → num → num;
  fmul : num → num → num;
  fdiv : num → num → num;
  flt : num → num → bool
}.

(** [scipy.misc.comb(N, k)] with its default [exact=False], a float, and
    [x ** z] for a float [x] and an integer [z]. *)
Class Special (num : Type) : Type := {
  comb : Z → Z → num;
  fpow : num → Z → num
}.

(** *** Exact arithmetic *)

(** [x < y] on rationals. *)
Definition Qltb (x y : Q) : bool := (Qnum x * QDen y <? Qnum y * QDen x)%Z.

#[global] Instance exact : Number Q := {|
  of_int := inject_Z;
  fadd := Qplus;
  fsub := Qminus;
  fmul := Qmult;
  fdiv := Qdiv;
  flt := Qltb
|}.

(** The number of combinations of [N] things taken [k] at a time, and [0]
    when [k > N], [N < 0] or [k < 0]. *)
Fixpoint binomial (n t : nat) : nat :=
  match n, t with
  | _, O => 1
  | O, S _ => 0
  | S n', S t' => binomial n' t' + binomial n' (S t')
  end%nat.

Definition exact_comb (N k : Z) : Q :=
  if (0 <=? k) && (k <=? N)
  then inject_Z (Z.of_nat (binomial (Z.to_nat N) (Z.to_nat k)))
  else 0%Q.

#[global] Instance exact_special : Special Q := {|
  comb := exact_comb;
  fpow := Qpower
|}.

(** *** IEEE 754 double precision *)

Module Binary64.

(** [float(i)]: the double nearest to the integer [i], ties to even (for an
    [i] beyond the range of the doubles Python raises [OverflowError]; no
    such integer is converted below). *)
Definition float_of_int (i : Z) : PrimFloat.float :=
  FloatOps.SF2Prim (SpecFloat.binary_normalize FloatOps.prec FloatOps.emax i 0 false).

#[global] Instance binary64 : Number PrimFloat.float := {|
  of_int := float_of_int;
  fadd := PrimFloat.add;
  fsub := PrimFloat.sub;
  fmul := PrimFloat.mul;
  fdiv := PrimFloat.div;
  flt := PrimFloat.ltb
|}.

End Binary64.

(** ** Library functions the module imports *)

(** [range(a, b)] of Python 2 is the list [a, a+1, ..., b-1]. *)
Definition range (a b : Z) : list Z := seqZ a (b - a).

(** [sum(xs)]: Python starts from [0] and adds from the left. *)
Definition pysum {num : Type} `{!Number num} (xs : list num) : num := fold_left fadd xs (of_int 0).

(** ** The memoization store and the engine state *)

Module Engine.

(** [self.sdict]: from the triples [(m, n, k)] to the stored values. *)
Abbreviation store num := (gmap (Z * Z * Z) num).

(** [sdict] is [self.sdict]; [dump_file] lists the images written to
    [self.dump_filename], the most recent first. *)
Record engine (num : Type) : Type := mkEngine {
  sdict : store num;
  dump_file : list (store num)
}.
Arguments mkEngine {num} _ _.
Arguments sdict {num} _.
Arguments dump_file {num} _.

Section Engine.
Context {num : Type} `{!Number num} `{!Special num}.

Definition set_sdict (d : store num) (st : engine num) : engine num :=
  {| sdict := d; dump_file := dump_file st |}.

(** [loadSDict] and [__init__]: a readable file gives its store, anything else
    writes an empty store to the file and starts from it. *)
Definition init (file : option (store num)) : engine num :=
  match file with
  | Some d => {| sdict := d; dump_file := [] |}
  | None => {| sdict := ∅; dump_file := [∅] |}
  end.

(** [dumpSDict]: the whole store overwrites the file. *)
Definition dumpSDict (st : engine num) : engine num :=
  {| sdict := sdict st; dump_file := sdict st :: dump_file st |}.

(** Computations that read and write the engine and may run out of fuel. *)
Definition M (A : Type) : Type := engine num → option (A * engine num).

#[global] Instance M_ret : MRet M := λ A a st, Some (a, st).
#[global] Instance M_bind : MBind M := λ A B f c st,
  match c st with
  | Some (a, st') => f a st'
  | None => None
  end.

(** [map(f, xs)] of Python 2: [f] is called on the elements from left to
    right, each call seeing the store the previous one left. *)
Fixpoint pymap {A B} (f : A → M B) (xs : list A) : M (list B) :=
  match xs with
  | [] => mret []
  | x :: xs' => y ← f x; ys ← pymap f xs'; mret (y :: ys)
  end.

(** The factor that multiplies the recursive call in the lambda:
    [float(comb(n, t))*((1/float(m))**t)*((m-1)/float(m))**(n-t)]. The
    lambda is only called with [m >= 2] ([recursive_case_m_ge_2] below), so
    the division never meets [float(m) = 0.0]. *)
Definition weight (m n t : Z) : num :=
  fmul (fmul (comb n t) (fpow (fdiv (of_int 1) (of_int m)) t))
       (fpow (fdiv (of_int (m - 1)) (of_int m)) (n - t)).

(** The lambda [function]; [self_] stands for the method itself in its
    recursive call. *)
Definition function (self_ : Z → Z → Z → M num) (m n k t : Z) : M num :=
  p ← self_ (m - 1) (n - t) k;
  mret (fmul p (weight m n t)).

(** The body of [SNonCongestionProbability]; [0.0] and [1.0] are
    [of_int 0] and [of_int 1]. *)
Definition SNonCongestionProbability_body
    (self_ : Z → Z → Z → M num) (m n k : Z) : M num := λ st,
  match sdict st !! (m, n, k) with
  | Some v => Some (v, st)
  | None =>
    if m * k <? n then Some (of_int 0, st)
    else if n <=? k then Some (of_int 1, st)
    else
      match pymap (function self_ m n k) (range 0 (k + 1)) st with
      | None => None
      | Some (terms, st1) =>
        let result := pysum terms in
        match sdict st1 !! (m, n, k) with
        | None => Some (result, set_sdict (<[(m, n, k) := result]> (sdict st1)) st1)
        | Some _ => Some (result, st1)
        end
      end
  end.

Fixpoint SNonCongestionProbability_fuel (fuel : nat) : Z → Z → Z → M num :=
  match fuel with
  | O => λ _ _ _ _, None
  | S fuel' => SNonCongestionProbability_body (SNonCongestionProbability_fuel fuel')
  end.

(** Every recursive call lowers [m] by one and the recursion is only entered
    with [m >= 2] when the range is not empty, so [m + 1] levels suffice. *)
Definition SNonCongestionProbability (m n k : Z) : M num :=
  SNonCongestionProbability_fuel (S (Z.to_nat m)) m n k.

Definition SCongestionProbability (m n k : Z) : M num := λ st,
  match sdict st !! (m, n, k) with
  | Some v => Some (fsub (of_int 1) v, st)
  | None =>
    match SNonCongestionProbability m n k st with
    | None => None
    | Some (sncp, st1) =>
      let st2 := set_sdict (<[(m, n, k) := sncp]> (sdict st1)) st1 in
      Some (fsub (of_int 1) sncp, dumpSDict st2)
    end
  end.

(** A caller of one engine instance: any sequence of calls of the two
    accessors. *)
Inductive call : Type :=
| CallNonCongestion (m n k : Z)
| CallCongestion (m n k : Z).

Definition perform (c : call) : M num :=
  match c with
  | CallNonCongestion m n k => SNonCongestionProbability m n k
  | CallCongestion m n k => SCongestionProbability m n k
  end.

Definition perform_all (cs : list call) : M (list num) := pymap perform cs.

(** *** Notions used to state the properties of the engine *)

(** [frame m st st']: going from [st] to [st'] wrote nothing to the file,
    kept every binding of the store, and added bindings only for keys whose
    first component is at most [m]. *)
Definition frame (m : Z) (st st' : engine num) : Prop :=
  dump_file st' = dump_file st ∧
  sdict st ⊆ sdict st' ∧
  ∀ m' n' k', m < m' → sdict st' !! (m', n', k') = sdict st !! (m', n', k').

End Engine.

(** *** Notions of exact arithmetic *)




End Engine.

(** ** Capacitated graphs *)

(** The attribute dictionary of an edge: the specification's data model gives
    every edge a ['capacity'] and a ['mincap']. *)
Record edge (num : Type) : Type := mkEdge {
  capacity : num;
  mincap : num
}.
Arguments mkEdge {num} _ _.
Arguments capacity {num} _.
Arguments mincap {num} _.

(** The iterators of [itertools] the module uses, as the lists they
    produce. *)
Module Itertools.

(** [product] applied to the lists of [ls]: one element of each list, the
    rightmost advancing fastest. *)
Fixpoint product {A} (ls : list (list A)) : list (list A) :=
  match ls with
  | [] => [[]]
  | l :: ls' => flat_map (λ x, map (cons x) (product ls')) l
  end.

(** [combinations_with_replacement(pool, r)]: the [r]-tuples whose positions
    in [pool] do not decrease, in lexicographic order of the positions. *)
Fixpoint combinations_with_replacement {A} (pool : list A) (r : nat) : list (list A) :=
  match r with
  | O => [[]]
  | S r' =>
    (fix go (pool : list A) : list (list A) :=
       match pool with
       | [] => []
       | x :: pool' => map (cons x) (combinations_with_replacement pool r') ++ go pool'
       end) pool
  end.

(** Every position of [l] taken out in turn, with what is left. *)
Fixpoint picks {A} (l : list A) : list (A * list A) :=
  match l with
  | [] => []
  | x :: xs => (x, xs) :: map (λ '(y, ys), (y, x :: ys)) (picks xs)
  end.

(** [permutations(l, r)]: the arrangements of [r] positions of [l], in
    lexicographic order of the positions; [r] defaults to the length. *)
Fixpoint permutations_r {A} (r : nat) (l : list A) : list (list A) :=
  match r with
  | O => [[]]
  | S r' => flat_map (λ '(x, rest), map (cons x) (permutations_r r' rest)) (picks l)
  end.

Definition permutations {A} (l : list A) : list (list A) := permutations_r (length l) l.

End Itertools.

(** [min(xs)]: the first of the smallest elements, [ValueError] on an empty
    sequence. *)
Definition pymin {num : Type} `{!Number num} (xs : list num) : result num :=
  match xs with
  | [] => Raise ValueError
  | x :: xs' => Ok (fold_left (λ best y, if flt y best then y else best) xs' x)
  end.

(** A list comprehension [[f(x) for x in xs]] and one with a condition,
    [[x for x in xs if f(x)]], whose body may raise. *)
Fixpoint rmap {A B} (f : A → result B) (xs : list A) : result (list B) :=
  match xs with
  | [] => Ok []
  | x :: xs' => y ← f x; ys ← rmap f xs'; Ok (y :: ys)
  end.

Fixpoint rfilter {A} (f : A → result bool) (xs : list A) : result (list A) :=
  match xs with
  | [] => Ok []
  | x :: xs' => b ← f x; ys ← rfilter f xs'; Ok (if b : bool then x :: ys else ys)
  end.

(** Two results of exact arithmetic agree: the same exception, or the same
    number. *)
Definition result_Qeq (r1 r2 : result Q) : Prop :=
  match r1, r2 with
  | Ok a, Ok b => (a == b)%Q
  | Raise e1, Raise e2 => e1 = e2
  | _, _ => False
  end.

Module Graph.
Section Graph.
Context `{Countable Node} {num : Type} `{!Number num}.

(** A [networkx.DiGraph]: [dag[x]] is the adjacency of [x], which maps each
    successor to the attributes of the edge; the adjacency is kept as an
    association list so that the iteration order of the successors is part
    of the model. A dictionary lists every successor once; nothing below
    needs that, reads and writes go to the first entry of a successor. *)
Local Abbreviation DiGraph := (gmap Node (list (Node * edge num))).

Fixpoint assoc (y : Node) (adj : list (Node * edge num)) : option (edge num) :=
  match adj with
  | [] => None
  | (z, e) :: adj' => if decide (z = y) then Some e else assoc y adj'
  end.

(** [dag[x][y]] *)
Definition get_edge (dag : DiGraph) (x y : Node) : result (edge num) :=
  match dag !! x with
  | None => Raise KeyError
  | Some adj =>
    match assoc y adj with
    | None => Raise KeyError
    | Some e => Ok e
    end
  end.

Fixpoint assoc_set_capacity (y : Node) (cap : num) (adj : list (Node * edge num))
    : list (Node * edge num) :=
  match adj with
  | [] => []
  | (z, e) :: adj' =>
    if decide (z = y) then (z, {| capacity := cap; mincap := mincap e |}) :: adj'
    else (z, e) :: assoc_set_capacity y cap adj'
  end.

(** [dag[x][y]['capacity'] = cap], for an edge that exists. *)
Definition set_capacity (dag : DiGraph) (x y : Node) (cap : num) : DiGraph :=
  match dag !! x with
  | None => dag
  | Some adj => <[x := assoc_set_capacity y cap adj]> dag
  end.

(** [len(dag[node])] and the iteration [for node in dag[start]]. *)
Definition successors (adj : list (Node * edge num)) : list Node := adj.*1.

(** [zip(path[:-1], path[1:])] *)
Definition edges_of (path : list Node) : list (Node * Node) :=
  zip (removelast path) (tail path).

(** *** getAllPathsLimDAG *)

Abbreviation paths_fun :=
  (DiGraph → Node → Node → Z → list Node → option (list (list Node))).

(** The loop over [dag[start]]; [self_] is the function itself, [path]
    already ends with [start]. *)
Fixpoint for_node_in (self_ : paths_fun) (dag : DiGraph) (end_ : Node) (k : Z)
    (path : list Node) (nodes : list Node) (paths : list (list Node))
    : option (list (list Node)) :=
  match nodes with
  | [] => Some paths
  | node :: rest =>
    if decide (node ∈ path) then for_node_in self_ dag end_ k path rest paths
    else if k =? 0 then
      newpaths ← self_ dag node end_ k path;
      for_node_in self_ dag end_ k path rest (paths ++ newpaths)
    else if Z.of_nat (length path) <? k + 1 then
      newpaths ← self_ dag node end_ k path;
      for_node_in self_ dag end_ k path rest (paths ++ newpaths)
    else for_node_in self_ dag end_ k path rest paths
  end.

Definition getAllPathsLimDAG_body (self_ : paths_fun) : paths_fun :=
  λ dag start end_ k path,
  let path := path ++ [start] in
  if decide (start = end_) then Some [path]
  else
    match dag !! start with
    | None => Some []
    | Some adj => for_node_in self_ dag end_ k path (successors adj) []
    end.

Fixpoint getAllPathsLimDAG_fuel (fuel : nat) : paths_fun :=
  match fuel with
  | O => λ _ _ _ _ _, None
  | S fuel' => getAllPathsLimDAG_body (getAllPathsLimDAG_fuel fuel')
  end.

(** Each level of the recursion below the first puts a node of the graph
    that is not yet on the path onto it, so the depth is bounded by the
    number of nodes. The default [path=[]] is written out by the callers. *)
Definition getAllPathsLimDAG : paths_fun :=
  λ dag, getAllPathsLimDAG_fuel (size dag + 2) dag.

(** *** getMinCapacity *)

(** [[dag[u][v]['capacity'] for u, v in zip(path[:-1], path[1:])]] *)
Definition edge_capacities (dag : DiGraph) (path : list Node) : result (list num) :=
  rmap (λ '(u, v), e ← get_edge dag u v; Ok (capacity e)) (edges_of path).

Definition getMinCapacity (dag : DiGraph) (path : list Node) : result num :=
  caps ← edge_capacities dag path;
  pymin caps.

(** *** getPathProbability *)

(** The loop [for node in path[:-1]]; [1/float(children)] raises
    [ZeroDivisionError] when [children] is [0]. *)
Fixpoint for_node_probability (dag : DiGraph) (nodes : list Node) (probability : num)
    : result num :=
  match nodes with
  | [] => Ok probability
  | node :: rest =>
    match dag !! node with
    | None => Raise KeyError
    | Some adj =>
      let children := Z.of_nat (length adj) in
      if children =? 0 then Raise ZeroDivisionError
      else for_node_probability dag rest
             (fmul probability (fdiv (of_int 1) (of_int children)))
    end
  end.

Definition getPathProbability (dag : DiGraph) (path : list Node) : result num :=
  for_node_probability dag (removelast path) (of_int 1).

(** *** flowCongestionProbability *)

Fixpoint for_path_add (dag : DiGraph) (paths : list (list Node))
    (congestion_probability : num) : result num :=
  match paths with
  | [] => Ok congestion_probability
  | path :: rest =>
    p ← getPathProbability dag path;
    for_path_add dag rest (fadd congestion_probability p)
  end.

(** [None] stands for a path enumeration that ran out of fuel. *)
Definition flowCongestionProbability (dag : DiGraph) (ingress_router egress_router : Node)
    (flow_size : num) : option (result num) :=
  all_paths ← getAllPathsLimDAG dag ingress_router egress_router 0 [];
  Some (paths_congestion ←
          rfilter (λ path, c ← getMinCapacity dag path; Ok (flt c flow_size)) all_paths;
        for_path_add dag paths_congestion (of_int 0)).

(** *** ExactCongestionProbability *)

(** The innermost loop, over the edges of one path. The result tells whether
    the loop was left by [break], and gives the working copy. *)
Fixpoint for_edge (flow_sizes : list num) (index : nat) (edges : list (Node * Node))
    (adag_c : DiGraph) : result (bool * DiGraph) :=
  match edges with
  | [] => Ok (false, adag_c)
  | (x, y) :: rest =>
    e ← get_edge adag_c x y;
    size ← from_option Ok (Raise IndexError) (flow_sizes !! index);
    let cap := fsub (capacity e) size in
    let adag_c := set_capacity adag_c x y cap in
    e' ← get_edge adag_c x y;
    if flt cap (mincap e') then Ok (true, adag_c)
    else for_edge flow_sizes index rest adag_c
  end.

(** The loop over [enumerate(alloc)]: [true] when a congested edge ended
    it. *)
Fixpoint for_path (flow_sizes : list num) (index : nat) (alloc : list (list Node))
    (adag_c : DiGraph) : result bool :=
  match alloc with
  | [] => Ok false
  | path :: rest =>
    '(congestion_found, adag_c) ← for_edge flow_sizes index (edges_of path) adag_c;
    if congestion_found : bool then Ok true
    else for_path flow_sizes (S index) rest adag_c
  end.

(** The loop over the combinations; [all_dag.copy()] is a deep copy, which
    the value [all_dag] itself stands for. *)
Fixpoint for_alloc (all_dag : DiGraph) (flow_sizes : list num)
    (allocs : list (list (list Node)))
    (total_samples congestion_samples : Z) : result (Z * Z) :=
  match allocs with
  | [] => Ok (total_samples, congestion_samples)
  | alloc :: rest =>
    let total_samples := total_samples + 1 in
    let adag_c := all_dag in
    found ← for_path flow_sizes 0 alloc adag_c;
    for_alloc all_dag flow_sizes rest total_samples
      (if found : bool then congestion_samples + 1 else congestion_samples)
  end.

Definition ExactCongestionProbability (all_dag : DiGraph)
    (flow_paths : list (list (list Node))) (flow_sizes : list num) : result num :=
  '(total_samples, congestion_samples) ←
    for_alloc all_dag flow_sizes (Itertools.product flow_paths) 0 0;
  if total_samples =? 0 then Raise ZeroDivisionError
  else Ok (fdiv (of_int congestion_samples) (of_int total_samples)).

(** *** Notions used to state the properties of the graph functions *)

(** [y] is a successor of [x]. *)
Definition is_edge (dag : DiGraph) (x y : Node) : Prop :=
  ∃ adj, dag !! x = Some adj ∧ y ∈ successors adj.

(** Consecutive nodes of [p] are joined by edges of the graph. *)
Definition directed_path (dag : DiGraph) (p : list Node) : Prop :=
  ∀ x y, (x, y) ∈ edges_of p → is_edge dag x y.

(** A loop-free directed path from [start] to [end_]. *)
Definition loop_free_path (dag : DiGraph) (start end_ : Node) (p : list Node) : Prop :=
  head p = Some start ∧ last p = Some end_ ∧ NoDup p ∧ directed_path dag p.

(** What one round of the loop over [dag[start]] contributes. *)
Definition newpaths_of (self_ : paths_fun) (dag : DiGraph) (end_ : Node) (k : Z)
    (path : list Node) (node : Node) : option (list (list Node)) :=
  if decide (node ∈ path) then Some []
  else if (k =? 0) || (Z.of_nat (length path) <? k + 1)
       then self_ dag node end_ k path
       else Some [].

(** [len(dag[x])], and [0] for a node the graph does not have. *)
Definition out_degree (dag : DiGraph) (x : Node) : Z :=
  match dag !! x with
  | Some adj => Z.of_nat (length adj)
  | None => 0
  end.

(** The sum, over the given children [c], of
    [getPathProbability(dag, p + [c])], as [sum] adds them. *)
Definition children_probability (dag : DiGraph) (p : list Node) (children : list Node)
    : result num :=
  probs ← rmap (λ c, getPathProbability dag (p ++ [c])) children;
  Ok (pysum probs).

(** **** Congested combinations, as the specification words them *)

(** The subtractions a combination asks for, in assignment order: every edge
    of the path chosen for each flow, with the size of that flow. *)
Fixpoint steps_of (flow_sizes : list num) (index : nat) (alloc : list (list Node))
    : list (Node * Node * num) :=
  match alloc with
  | [] => []
  | path :: rest =>
    map (λ xy, (xy, default (of_int 0) (flow_sizes !! index))) (edges_of path)
    ++ steps_of flow_sizes (S index) rest
  end.

(** What is left of the capacity [cap] of the edge [(x, y)] when the
    subtractions of [steps] that are on this edge are made one after the
    other, in the order of the list. *)
Definition residual (x y : Node) (cap : num) (steps : list (Node * Node * num)) : num :=
  fold_left (λ c '(xy, s), if decide (xy = (x, y)) then fsub c s else c) steps cap.

(** After the subtractions [done_] and then the one of [s] on [(x, y)], the
    residual capacity of that edge is below its mincap. *)
Definition drops_below (dag : DiGraph) (done_ : list (Node * Node * num))
    (x y : Node) (s : num) : Prop :=
  ∃ e, get_edge dag x y = Ok e ∧
       flt (residual x y (capacity e) (done_ ++ [((x, y), s)])) (mincap e) = true.

(** A combination is congested when one of its subtractions, taken in
    order, brings the residual capacity of its edge below the mincap. *)
Definition congested (dag : DiGraph) (flow_sizes : list num) (alloc : list (list Node))
    : Prop :=
  ∃ done_ x y s rest,
    steps_of flow_sizes 0 alloc = done_ ++ ((x, y), s) :: rest ∧
    drops_below dag done_ x y s.

(** The same as a test that can be evaluated. *)
Definition drops_belowb (dag : DiGraph) (done_ : list (Node * Node * num))
    (x y : Node) (s : num) : bool :=
  match get_edge dag x y with
  | Ok e => flt (residual x y (capacity e) (done_ ++ [((x, y), s)])) (mincap e)
  | Raise _ => false
  end.

Fixpoint some_drop (dag : DiGraph) (done_ rest : list (Node * Node * num)) : bool :=
  match rest with
  | [] => false
  | ((x, y), s) :: rest' =>
    drops_belowb dag done_ x y s || some_drop dag (done_ ++ [((x, y), s)]) rest'
  end.

Definition congestedb (dag : DiGraph) (flow_sizes : list num) (alloc : list (list Node))
    : bool :=
  some_drop dag [] (steps_of flow_sizes 0 alloc).

(** The two inner loops of [ExactCongestionProbability] seen as one loop
    over the subtractions of a combination. *)
Fixpoint run_steps (steps : list (Node * Node * num)) (adag_c : DiGraph)
    : result (bool * DiGraph) :=
  match steps with
  | [] => Ok (false, adag_c)
  | ((x, y), s) :: rest =>
    e ← get_edge adag_c x y;
    let cap := fsub (capacity e) s in
    let adag_c := set_capacity adag_c x y cap in
    e' ← get_edge adag_c x y;
    if flt cap (mincap e') then Ok (true, adag_c)
    else run_steps rest adag_c
  end.

(** The working copy [g] after the subtractions [done_] on [dag]. *)
Definition working_copy (dag : DiGraph) (done_ : list (Node * Node * num)) (g : DiGraph)
    : Prop :=
  ∀ x y e, get_edge dag x y = Ok e →
    ∃ e', get_edge g x y = Ok e' ∧ mincap e' = mincap e ∧
          capacity e' = residual x y (capacity e) done_.

(** The nodes of the graph that are not on [path]. *)
Definition unvisited (dag : DiGraph) (path : list Node) : gset Node :=
  dom dag ∖ list_to_set path.

End Graph.

(** *** Notions of exact arithmetic *)

Section ExactGraph.
Context `{Countable Node}.
Local Abbreviation DiGraph := (gmap Node (list (Node * edge Q))).

(** The product of [1 / outDegree] over a list of nodes. *)
Definition ecmp_product (dag : DiGraph) (nodes : list Node) : Q :=
  fold_right (λ x acc, (1 / inject_Z (out_degree dag x)) * acc)%Q 1%Q nodes.

(** The probability mass of a list of paths: the sum of the products of
    [1 / outDegree] over the non-terminal nodes of each. *)
Definition path_mass (dag : DiGraph) (paths : list (list Node)) : Q :=
  fold_right (λ p acc, ecmp_product dag (removelast p) + acc)%Q 0%Q paths.

End ExactGraph.
End Graph.

(** ** SampledCongestionProbability: the space of allocations *)

Module Sampled.

(** [[final_allocs.append(a) for a in all_allocs if a not in final_allocs]] *)
Definition append_new (all_allocs : list (list Z)) : list (list Z) :=
  fold_left (λ final_allocs a,
               if decide (a ∈ final_allocs) then final_allocs else final_allocs ++ [a])
            all_allocs [].

(** [m] lists the available capacities of the paths, [n] the flow sizes;
    only their lengths matter here. *)
Definition all_allocs {num} (m n : list num) : list (list Z) :=
  flat_map Itertools.permutations
    (Itertools.combinations_with_replacement (range 0 (Z.of_nat (length m))) (length n)).

Definition final_allocs {num} (m n : list num) : list (list Z) :=
  append_new (all_allocs m n).

Definition n_samples {num} (m n : list num) : Z := Z.of_nat (length (final_allocs m n)).

End Sampled.

(** ** The graphs of the specification's examples *)

Module Examples.
Import Graph.
Local Open Scope string_scope.

(** The diamond [A→B, A→C, B→D, C→D]. *)
Definition diamond : gmap string (list (string * edge Q)) :=
  list_to_map
    [("A", [("B", mkEdge 10%Q 0%Q); ("C", mkEdge 3%Q 0%Q)]);
     ("B", [("D", mkEdge 7%Q 0%Q)]);
     ("C", [("D", mkEdge 7%Q 0%Q)]);
     ("D", [])].

(** A line whose edges have the capacities [10, 3, 7]. *)
Definition line : gmap string (list (string * edge Q)) :=
  list_to_map
    [("A", [("B", mkEdge 10%Q 0%Q)]);
     ("B", [("C", mkEdge 3%Q 0%Q)]);
     ("C", [("D", mkEdge 7%Q 0%Q)]);
     ("D", [])].

(** Two disjoint links of capacity 8 and mincap 0, each a candidate path of
    two flows of size 5. *)
Definition two_links : gmap string (list (string * edge Q)) :=
  list_to_map
    [("a", [("b", mkEdge 8%Q 0%Q)]);
     ("b", []);
     ("c", [("d", mkEdge 8%Q 0%Q)]);
     ("d", [])].

Definition two_flow_paths : list (list (list string)) :=
  [[["a"; "b"]; ["c"; "d"]]; [["a"; "b"]; ["c"; "d"]]].

Definition two_flow_sizes : list Q := [5%Q; 5%Q].

End Examples.

(** The same in double precision, and two fans for the sums of path
    probabilities. *)
Module Examples64.
Import Graph Binary64.
Local Open Scope string_scope.

Definition two_links : gmap string (list (string * edge PrimFloat.float)) :=
  list_to_map
    [("a", [("b", mkEdge (of_int 8) (of_int 0))]);
     ("b", []);
     ("c", [("d", mkEdge (of_int 8) (of_int 0))]);
     ("d", [])].

Definition two_flow_sizes : list PrimFloat.float := [of_int 5; of_int 5].

(** A router [A] with six successors. *)
Definition fan6 : gmap string (list (string * edge PrimFloat.float)) :=
  list_to_map
    [("A", map (λ c, (c, mkEdge (of_int 1) (of_int 0))) ["c1"; "c2"; "c3"; "c4"; "c5"; "c6"])].

(** A router [A] with nine successors, each with one link of capacity [1]
    to [D]. *)
Definition fan9 : gmap string (list (string * edge PrimFloat.float)) :=
  list_to_map
    (("A", map (λ c, (c, mkEdge (of_int 1) (of_int 0)))
               ["c1"; "c2"; "c3"; "c4"; "c5"; "c6"; "c7"; "c8"; "c9"])
     :: map (λ c, (c, [("D", mkEdge (of_int 1) (of_int 0))]))
            ["c1"; "c2"; "c3"; "c4"; "c5"; "c6"; "c7"; "c8"; "c9"]
     ++ [("D", [])]).

End Examples64.

(** ** Tactics *)

(** Membership in a list that is written out. *)
Ltac elem_of_cases H :=
  cbn in H; rewrite ?elem_of_cons, elem_of_nil in H;
  repeat (destruct H as [H|H]); [..|destruct H].

(** The operations of the exact instance, unfolded to those of [Q]. *)
Ltac exact_arith :=
  cbn [of_int fadd fsub fmul fdiv flt comb fpow exact exact_special] in *;
  change (inject_Z 0) with 0%Q in *; change (inject_Z 1) with 1%Q in *.

From Stdlib Require Import Ascii.
From stdpp Require Import sorting.
Local Open Scope Z_scope.

(** * Further notions, for the properties beyond the specification *)

(** ** The recurrence without its store *)

Module Recurrence.
Import Engine.

Section Recurrence.
Context {num : Type} `{!Number num} `{!Special num}.

(** What [SNonCongestionProbability] computes when nothing is ever found in
    the store: the two base cases and the sum over [t], with the operations
    of the code in the order of the code. *)
Fixpoint recurrence (fuel : nat) (m n k : Z) : num :=
  match fuel with
  | O => of_int 0
  | S fuel' =>
    if m * k <? n then of_int 0
    else if n <=? k then of_int 1
    else pysum (map (λ t, fmul (recurrence fuel' (m - 1) (n - t) k) (weight m n t))
                    (range 0 (k + 1)))
  end.

Definition NonCongestion (m n k : Z) : num := recurrence (S (Z.to_nat m)) m n k.

(** Every stored value is the value of the recurrence at its key. *)
Definition store_consistent (st : engine num) : Prop :=
  ∀ m n k v, sdict st !! (m, n, k) = Some v → v = NonCongestion m n k.

End Recurrence.
End Recurrence.

(** ** SampledCongestionProbability: one lap over a drawn sample *)

Module SampledRun.
Import Sampled.

(** [l[i]] for a Python integer: a negative index counts from the end, an
    index outside the sequence raises [IndexError]. *)
Definition pyindex_pos {A} (l : list A) (i : Z) : Z :=
  if i <? 0 then i + Z.of_nat (length l) else i.

Definition pyindex {A} (l : list A) (i : Z) : result A :=
  let j := pyindex_pos l i in
  if j <? 0 then Raise IndexError
  else from_option Ok (Raise IndexError) (l !! Z.to_nat j).

Section SampledRun.
Context {num : Type} `{!Number num}.

(** The loop [for i, a in enumerate(alloc): required_sizes[a] += n[i]]. *)
Fixpoint for_flow (n : list num) (i : nat) (alloc : list Z) (required_sizes : list num)
    : result (list num) :=
  match alloc with
  | [] => Ok required_sizes
  | a :: rest =>
    old ← pyindex required_sizes a;
    size ← from_option Ok (Raise IndexError) (n !! i);
    for_flow n (S i) rest
      (<[Z.to_nat (pyindex_pos required_sizes a) := fadd old size]> required_sizes)
  end.

(** The body of the loop over the sampled allocations: [congestion];
    [np.zeros(len(m))] is a list of [0.0]. *)
Definition congestion (m n : list num) (alloc : list Z) : result bool :=
  required_sizes ← for_flow n 0 alloc (replicate (length m) (of_int 0));
  let balance := zip_with fsub m required_sizes in
  Ok (existsb (λ x, flt x (of_int 0)) balance).

Fixpoint for_sampled (m n : list num) (sampled_allocs : list (list Z))
    (congested_samples : Z) : result Z :=
  match sampled_allocs with
  | [] => Ok congested_samples
  | alloc :: rest =>
    c ← congestion m n alloc;
    for_sampled m n rest (if c : bool then congested_samples + 1 else congested_samples)
  end.

(** The call with [estimate] left at [0], which runs one lap and returns
    [(probs[0], None)]; the value is the first component. [draw] is the list
    that [random.sample(xrange(n_samples), portion_samples)] returned;
    [random.sample] raises [ValueError] unless [0 <= portion_samples <=
    n_samples]. The laps of [estimate != 0], with their mean and standard
    deviation, are not modelled. *)
Definition SampledCongestionProbability (m n : list num) (percentage : Z) (draw : list Z)
    : result num :=
  let final_allocs := final_allocs m n in
  let n_samples := Z.of_nat (length final_allocs) in
  if percentage =? 0 then Raise ZeroDivisionError
  else
    let portion_samples := n_samples / percentage in
    if (portion_samples <? 0) || (n_samples <? portion_samples) then Raise ValueError
    else
      let indices := merge_sort Z.le draw in
      sampled_allocs ← rmap (pyindex final_allocs) indices;
      let total_samples := Z.of_nat (length sampled_allocs) in
      congested_samples ← for_sampled m n sampled_allocs 0;
      if total_samples =? 0 then Raise ZeroDivisionError
      else Ok (fdiv (of_int congested_samples) (of_int total_samples)).

(** *** Notions used to state its properties *)

(** What the flows that [alloc] puts on path [j] add to [acc], one after
    the other in the order of the flows. *)
Fixpoint demand_from (acc : num) (n : list num) (alloc : list Z) (j : Z) : num :=
  match alloc, n with
  | a :: alloc', s :: n' => demand_from (if a =? j then fadd acc s else acc) n' alloc' j
  | _, _ => acc
  end.

(** The sizes of the flows that [alloc] puts on path [j], added to [0.0]
    in the order of the flows. *)
Definition demand (n : list num) (alloc : list Z) (j : Z) : num :=
  demand_from (of_int 0) n alloc j.

(** Some path is asked for more than it has available: its capacity
    less the demand is below zero. *)
Definition overloaded (m n : list num) (alloc : list Z) : Prop :=
  ∃ (j : nat) c, m !! j = Some c ∧
                 flt (fsub c (demand n alloc (Z.of_nat j))) (of_int 0) = true.

Definition overloadedb (m n : list num) (alloc : list Z) : bool :=
  existsb (λ '(j, c), flt (fsub c (demand n alloc (Z.of_nat j))) (of_int 0)) (imap pair m).

End SampledRun.

(** What [random.sample] may return: [k] different elements of
    [xrange(n_samples)]. *)
Definition is_sample (n_samples k : Z) (draw : list Z) : Prop :=
  NoDup draw ∧ Z.of_nat (length draw) = k ∧ ∀ i, i ∈ draw → 0 ≤ i < n_samples.

(** Two paths with 8 available each and three flows of size 5, in double
    precision. *)
Definition two_paths : list PrimFloat.float :=
  [Binary64.float_of_int 8; Binary64.float_of_int 8].
Definition three_flows : list PrimFloat.float :=
  [Binary64.float_of_int 5; Binary64.float_of_int 5; Binary64.float_of_int 5].

End SampledRun.

(** ** The traffic generator: reading the flow file
    (tecontroller/trafficgenerator/trafficgenerator.py) *)

Module TrafficGenerator.

Local Open Scope string_scope.

(** [s.replace(c, '')] for a one-character [c]. *)
Fixpoint remove_all (c : ascii) (s : string) : string :=
  match s with
  | EmptyString => EmptyString
  | String a s' => if Ascii.eqb a c then remove_all c s' else String a (remove_all c s')
  end.

(** [s.strip(c)]: the leading and the trailing [c] are taken off. *)
Fixpoint lstrip (c : ascii) (s : string) : string :=
  match s with
  | EmptyString => EmptyString
  | String a s' => if Ascii.eqb a c then lstrip c s' else s
  end.

Fixpoint rstrip (c : ascii) (s : string) : string :=
  match s with
  | EmptyString => EmptyString
  | String a s' =>
    match rstrip c s' with
    | EmptyString => if Ascii.eqb a c then EmptyString else String a EmptyString
    | r => String a r
    end
  end.

Definition strip (c : ascii) (s : string) : string := rstrip c (lstrip c s).

(** [s.split(c)]: the fields between the occurrences of [c], of which there
    is always at least one. *)
Fixpoint split (c : ascii) (s : string) : list string :=
  match s with
  | EmptyString => [EmptyString]
  | String a s' =>
    if Ascii.eqb a c then EmptyString :: split c s'
    else match split c s' with
         | [] => [String a EmptyString]
         | field :: fields => String a field :: fields
         end
  end.

Definition space : ascii := " "%char.
Definition newline : ascii := "010"%char.
Definition comma : ascii := ","%char.
Definition hash : ascii := "#"%char.

(** What the function tells the log. *)
Inductive message : Type :=
| SomethingHappens
| HostsDoNotExist (s d : string)
| NoFlowsToSchedule.

Section scheduleFileFlows.

(** The collaborators that are not in the sources are parameters: what
    [DatabaseHandler.getIpFromHostName] returns (possibly [None]) or raises,
    and what the constructor of [Flow] builds or raises. *)
Context {iface flow exc : Type}.
Variable getIpFromHostName : string → exc + option iface.
Variable Flow : iface → iface → string → string → string → string → string → exc + flow.

Inductive error : Type :=
| UnboundLocalError
| Propagated (e : exc).

(** The local variables [s, d, sp, dp, size, s_t, dur], unbound until an
    unpacking succeeds; the flows entered into the scheduler; the log. *)
Record state : Type := mkState {
  unpacked : option (string * string * string * string * string * string * string);
  scheduled : list flow;
  log : list message
}.

(** The [try] block: the host interfaces, and the local variables as the
    block leaves them; [None] for the interfaces when the block raised. *)
Definition try_block (st : state) (flowline : string)
    : state * option iface * option iface :=
  match split comma (strip newline flowline) with
  | [s; d; sp; dp; size; s_t; dur] =>
    let st := mkState (Some (s, d, sp, dp, size, s_t, dur)) (scheduled st) (log st) in
    match getIpFromHostName s with
    | inl _ => (mkState (unpacked st) (scheduled st) (log st ++ [SomethingHappens]), None, None)
    | inr src_iface =>
      match getIpFromHostName d with
      | inl _ =>
        (mkState (unpacked st) (scheduled st) (log st ++ [SomethingHappens]), None, None)
      | inr dst_iface => (st, src_iface, dst_iface)
      end
    end
  | _ => (mkState (unpacked st) (scheduled st) (log st ++ [SomethingHappens]), None, None)
  end.

(** One round of the loop over the lines. *)
Definition for_flowline (st : state) (flowline : string) : error + state :=
  let flowline := remove_all newline (remove_all space flowline) in
  if decide (flowline ≠ "" ∧ String.get 0 flowline ≠ Some hash) then
    let '(st, src_iface, dst_iface) := try_block st flowline in
    match src_iface, dst_iface with
    | Some src_iface, Some dst_iface =>
      match unpacked st with
      | None => inl UnboundLocalError
      | Some (s, d, sp, dp, size, s_t, dur) =>
        match Flow src_iface dst_iface sp dp size s_t dur with
        | inl e => inl (Propagated e)
        | inr flow => inr (mkState (unpacked st) (scheduled st ++ [flow]) (log st))
        end
      end
    | _, _ =>
      match unpacked st with
      | None => inl UnboundLocalError
      | Some (s, d, _, _, _, _, _) =>
        inr (mkState (unpacked st) (scheduled st) (log st ++ [HostsDoNotExist s d]))
      end
    end
  else inr st.

Fixpoint for_flowlines (st : state) (flows : list string) : error + state :=
  match flows with
  | [] => inr st
  | flowline :: rest =>
    match for_flowline st flowline with
    | inl e => inl e
    | inr st' => for_flowlines st' rest
    end
  end.

(** [flows] is what [f.readlines()] returned. The result is the state in
    which [self.scheduler.run()] is called (for an empty file, in which the
    function returns without calling it), or the exception that left the
    loop before the scheduler was run. *)
Definition scheduleFileFlows (flows : list string) : error + state :=
  match flows with
  | [] => inr (mkState None [] [NoFlowsToSchedule])
  | _ => for_flowlines (mkState None [] []) flows
  end.

(** *** Notions used to state its properties *)

(** A line the loop passes over: blank or a comment once the spaces and
    the newlines are taken out. *)
Definition ignored (flowline : string) : Prop :=
  let flowline := remove_all newline (remove_all space flowline) in
  ¬ (flowline ≠ "" ∧ String.get 0 flowline ≠ Some hash).

#[global] Instance ignored_dec flowline : Decision (ignored flowline).
Proof. unfold ignored. apply _. Defined.

(** The fields of a line that has seven of them. *)
Definition seven_fields (flowline : string)
    : option (string * string * string * string * string * string * string) :=
  match split comma (remove_all newline (remove_all space flowline)) with
  | [s; d; sp; dp; size; s_t; dur] => Some (s, d, sp, dp, size, s_t, dur)
  | _ => None
  end.

(** What a line asks for: the construction of a flow between its two
    hosts, when it has seven fields and both hosts are known. *)
Definition request (flowline : string) : option (exc + flow) :=
  if decide (ignored flowline) then None
  else match seven_fields flowline with
       | Some (s, d, sp, dp, size, s_t, dur) =>
         match getIpFromHostName s, getIpFromHostName d with
         | inr (Some src_iface), inr (Some dst_iface) =>
           Some (Flow src_iface dst_iface sp dp size s_t dur)
         | _, _ => None
         end
       | None => None
       end.

End scheduleFileFlows.

(** *** An example: two known hosts, a file of four lines *)

Definition example_hosts (h : string) : unit + option string :=
  if decide (h = "h1") then inr (Some "10.0.0.1/24")
  else if decide (h = "h2") then inr (Some "10.0.0.2/24")
  else inr None.

Definition example_Flow (src dst sp dp size s_t dur : string)
    : unit + string * string * string * string * string * string * string :=
  inr (src, dst, sp, dp, size, s_t, dur).

Definition nl : string := String newline "".

Definition comment_line : string := "# source, destination, ports, size, start, duration" ++ nl.
Definition flow_line : string := "h1, h2, 5001, 5002, 2M, 0, 10" ++ nl.
Definition unknown_host_line : string := "h1, h9, 5001, 5002, 2M, 5, 10" ++ nl.
Definition short_line : string := "h1, h2" ++ nl.

Definition example_file : list string :=
  [comment_line; nl; flow_line; unknown_host_line].

End TrafficGenerator.
(** * Properties *)

(** ** The recurrence and its store *)

Section EngineFacts.
Import Engine.
Context {num : Type} `{!Number num} `{!Special num}.
Implicit Types (st : engine num) (v : num).

Lemma pymap_total {A B} (f : A → M B) xs st :
  (∀ x st, x ∈ xs → is_Some (f x st)) → is_Some (pymap f xs st).
Proof.
  revert st. induction xs as [|x xs IH]; intros st Hf; simpl.
  - by eexists.
  - unfold mbind, M_bind.
    destruct (Hf x st) as [[y st1] Hy]; [left|]. rewrite Hy.
    destruct (IH st1) as [[ys st2] Hys].
    { intros x' st' Hx'. apply Hf. by right. }
    rewrite Hys. by eexists.
Qed.

(** What every call of [f] guarantees, [pymap f] guarantees of the whole
    list: [I] is an invariant of the engine, [P] relates each argument to the
    value returned for it. *)
Lemma pymap_inv {A B} (f : A → M B) (I : engine num → Prop) (P : A → B → Prop) xs :
  (∀ x st y st', x ∈ xs → I st → f x st = Some (y, st') → P x y ∧ I st') →
  ∀ st ys st', I st → pymap f xs st = Some (ys, st') → Forall2 P xs ys ∧ I st'.
Proof.
  induction xs as [|x xs IH]; intros Hf st ys st' HI; simpl.
  - intros [= <- <-]. split; [constructor | done].
  - unfold mbind, M_bind.
    destruct (f x st) as [[y st1]|] eqn:Hy; [|done].
    destruct (pymap f xs st1) as [[ys1 st2]|] eqn:Hys; [|done].
    intros [= <- <-].
    destruct (Hf x st y st1) as [HP HI1]; [left|done|done|].
    destruct (IH (λ x0 s0 y0 s0' Hx0, Hf x0 s0 y0 s0' (list_elem_of_further _ _ _ Hx0))
                 st1 ys1 st2 HI1 Hys) as [HF HI2].
    split; [by constructor | done].
Qed.

Lemma frame_refl m st : frame m st st.
Proof. by repeat split. Qed.

Lemma frame_trans m st1 st2 st3 : frame m st1 st2 → frame m st2 st3 → frame m st1 st3.
Proof.
  intros (Hd1 & Hs1 & Hk1) (Hd2 & Hs2 & Hk2). repeat split.
  - congruence.
  - by etrans.
  - intros. rewrite Hk2, Hk1; done.
Qed.

Lemma frame_mono m m' st st' : m ≤ m' → frame m st st' → frame m' st st'.
Proof.
  intros Hm (Hd & Hs & Hk). repeat split; [done..|].
  intros. apply Hk. lia.
Qed.

Lemma frame_insert m n k v st :
  sdict st !! (m, n, k) = None →
  frame m st (set_sdict (<[(m, n, k) := v]> (sdict st)) st).
Proof.
  intros Hn. repeat split; simpl.
  - by apply insert_subseteq.
  - intros. rewrite lookup_insert_ne; [done|]. intros [= -> _ _]. lia.
Qed.

(** The guards leave a non-empty range only to [m >= 2]: the divisor
    [float(m)] of the lambda is never zero. *)
Lemma recursive_case_m_ge_2 m n k :
  (m * k <? n) = false → (n <=? k) = false → 0 ≤ k → 2 ≤ m.
Proof. intros H1%Z.ltb_ge H2%Z.leb_gt Hk. nia. Qed.

Lemma range_empty a b : b ≤ a → range a b = [].
Proof. intros. unfold range. unfold seqZ. replace (Z.to_nat (b - a)) with 0%nat by lia. done. Qed.

Lemma elem_of_range a b t : t ∈ range a b ↔ a ≤ t < b.
Proof. unfold range. rewrite elem_of_seqZ. lia. Qed.

Lemma SNonCongestionProbability_fuel_total fuel m n k st :
  (Z.to_nat m ≤ fuel)%nat →
  is_Some (SNonCongestionProbability_fuel (S fuel) m n k st).
Proof.
  revert m n k st. induction fuel as [|fuel IH]; intros m n k st Hm;
    cbn [SNonCongestionProbability_fuel]; unfold SNonCongestionProbability_body at 1.
  - destruct (sdict st !! (m, n, k)); [by eexists|].
    destruct (m * k <? n) eqn:H1; [by eexists|].
    destruct (n <=? k) eqn:H2; [by eexists|].
    rewrite range_empty.
    + simpl. unfold mret, M_ret. by destruct (sdict st !! (m, n, k)); eexists.
    + destruct (Z.le_gt_cases 0 k) as [Hk|Hk]; [|lia].
      pose proof (recursive_case_m_ge_2 _ _ _ H1 H2 Hk). lia.
  - destruct (sdict st !! (m, n, k)); [by eexists|].
    destruct (m * k <? n) eqn:H1; [by eexists|].
    destruct (n <=? k) eqn:H2; [by eexists|].
    match goal with |- context [pymap ?f ?l st] =>
      destruct (pymap_total f l st) as [[terms st1] Ht] end.
    + intros t st0 Ht%elem_of_range.
      pose proof (recursive_case_m_ge_2 _ _ _ H1 H2 ltac:(lia)).
      unfold function, mbind, M_bind.
      destruct (IH (m - 1) (n - t) k st0) as [[p st'] Hp]; [lia|].
      cbn [SNonCongestionProbability_fuel] in Hp. rewrite Hp. by eexists.
    + rewrite Ht. by destruct (sdict st1 !! (m, n, k)); eexists.
Qed.

Lemma SNonCongestionProbability_fuel_frame fuel m n k st v st' :
  SNonCongestionProbability_fuel fuel m n k st = Some (v, st') →
  frame m st st'.
Proof.
  revert m n k st v st'. induction fuel as [|fuel IH]; intros m n k st v st';
    cbn [SNonCongestionProbability_fuel]; [done|].
  unfold SNonCongestionProbability_body.
  destruct (sdict st !! (m, n, k)) eqn:Hl.
  { intros [= <- <-]. apply frame_refl. }
  destruct (m * k <? n); [intros [= <- <-]; apply frame_refl|].
  destruct (n <=? k); [intros [= <- <-]; apply frame_refl|].
  match goal with |- context [pymap ?f ?l st] =>
    destruct (pymap f l st) as [[terms st1]|] eqn:Ht; [|done];
    destruct (pymap_inv f (frame (m - 1) st) (λ _ _, True) l) with (st := st) (ys := terms) (st' := st1)
      as [_ Hfr]; [|apply frame_refl|done|]
  end.
  { intros t st0 y st0' _ Hfr0. unfold function, mbind, M_bind.
    destruct (SNonCongestionProbability_fuel fuel (m - 1) (n - t) k st0) as [[p st2]|] eqn:Hp; [|done].
    intros [= <- <-]. split; [done|]. eapply frame_trans; [done|]. by eapply IH. }
  apply (frame_mono _ m) in Hfr; [|lia].
  destruct (sdict st1 !! (m, n, k)) eqn:Hl1; intros [= <- <-]; [done|].
  eapply frame_trans; [done|]. by apply frame_insert.
Qed.

Lemma SNonCongestionProbability_total m n k st :
  is_Some (SNonCongestionProbability m n k st).
Proof. by apply SNonCongestionProbability_fuel_total. Qed.

Lemma SNonCongestionProbability_hit m n k st v :
  sdict st !! (m, n, k) = Some v →
  SNonCongestionProbability m n k st = Some (v, st).
Proof.
  intros Hl. unfold SNonCongestionProbability. cbn [SNonCongestionProbability_fuel].
  unfold SNonCongestionProbability_body. by rewrite Hl.
Qed.

(** After a miss the key is either still absent, which only the two base
    cases leave behind, or bound to the value that was returned. *)
Lemma SNonCongestionProbability_miss m n k st v st' :
  sdict st !! (m, n, k) = None →
  SNonCongestionProbability m n k st = Some (v, st') →
  (st' = st ∧ (m * k < n ∧ v = of_int 0 ∨ n ≤ m * k ∧ n ≤ k ∧ v = of_int 1)) ∨
  (k < n ≤ m * k ∧ sdict st' !! (m, n, k) = Some v).
Proof.
  intros Hl. unfold SNonCongestionProbability. cbn [SNonCongestionProbability_fuel].
  unfold SNonCongestionProbability_body. rewrite Hl.
  destruct (Z.ltb_spec (m * k) n) as [H1|H1].
  { intros [= <- <-]. left. split; [done|]. left. split; [lia|done]. }
  destruct (Z.leb_spec n k) as [H2|H2].
  { intros [= <- <-]. left. split; [done|]. right. repeat split; [lia..|done]. }
  match goal with |- context [pymap ?f ?l st] =>
    destruct (pymap f l st) as [[terms st1]|] eqn:Ht; [|done];
    destruct (pymap_inv f (frame (m - 1) st) (λ _ _, True) l) with (st := st) (ys := terms) (st' := st1)
      as [_ (_ & _ & Hfr)]; [|apply frame_refl|done|]
  end.
  { intros t st0 y st0' _ Hfr0. unfold function, mbind, M_bind.
    destruct (SNonCongestionProbability_fuel _ (m - 1) (n - t) k st0) as [[p st2]|] eqn:Hp; [|done].
    intros [= <- <-]. split; [done|]. eapply frame_trans; [done|].
    by eapply SNonCongestionProbability_fuel_frame. }
  rewrite Hfr, Hl by lia. intros [= <- <-]. right. split; [lia|].
  simpl. by rewrite lookup_insert_eq.
Qed.

Lemma SNonCongestionProbability_frame m n k st v st' :
  SNonCongestionProbability m n k st = Some (v, st') → frame m st st'.
Proof. apply SNonCongestionProbability_fuel_frame. Qed.

(** The two paths of [SCongestionProbability]. *)
Lemma SCongestionProbability_hit m n k st v :
  sdict st !! (m, n, k) = Some v →
  SCongestionProbability m n k st = Some (fsub (of_int 1) v, st).
Proof. intros Hl. unfold SCongestionProbability. by rewrite Hl. Qed.

Lemma SCongestionProbability_miss m n k st :
  sdict st !! (m, n, k) = None →
  ∃ v st1, SNonCongestionProbability m n k st = Some (v, st1) ∧
    SCongestionProbability m n k st =
      Some (fsub (of_int 1) v, dumpSDict (set_sdict (<[(m, n, k) := v]> (sdict st1)) st1)).
Proof.
  intros Hl. unfold SCongestionProbability. rewrite Hl.
  destruct (SNonCongestionProbability_total m n k st) as [[v st1] Hv].
  exists v, st1. by rewrite Hv.
Qed.

Lemma SCongestionProbability_total m n k st :
  is_Some (SCongestionProbability m n k st).
Proof.
  destruct (sdict st !! (m, n, k)) as [v|] eqn:Hl.
  - rewrite (SCongestionProbability_hit _ _ _ _ _ Hl). by eexists.
  - destruct (SCongestionProbability_miss _ _ _ _ Hl) as (v & st1 & _ & ->). by eexists.
Qed.

Lemma SCongestionProbability_subseteq m n k st v st' :
  SCongestionProbability m n k st = Some (v, st') → sdict st ⊆ sdict st'.
Proof.
  destruct (sdict st !! (m, n, k)) as [v0|] eqn:Hl.
  - rewrite (SCongestionProbability_hit _ _ _ _ _ Hl). by intros [= <- <-].
  - destruct (SCongestionProbability_miss _ _ _ _ Hl) as (v1 & st1 & Hn & ->).
    intros [= <- <-]. simpl.
    pose proof (SNonCongestionProbability_frame _ _ _ _ _ _ Hn) as (_ & Hsub & _).
    etrans; [done|].
    destruct (SNonCongestionProbability_miss _ _ _ _ _ _ Hl Hn) as [[-> _]|[_ Hb]].
    + by apply insert_subseteq.
    + by rewrite insert_id.
Qed.

Lemma perform_total c st : is_Some (perform c st).
Proof.
  destruct c; [apply SNonCongestionProbability_total | apply SCongestionProbability_total].
Qed.

Lemma perform_subseteq c st v st' :
  perform c st = Some (v, st') → sdict st ⊆ sdict st'.
Proof.
  destruct c; simpl.
  - intros Hn. by apply SNonCongestionProbability_frame in Hn as (_ & ? & _).
  - apply SCongestionProbability_subseteq.
Qed.

Lemma pymap_app {A B} (f : A → M B) xs1 xs2 st ys1 st1 ys2 st2 :
  pymap f xs1 st = Some (ys1, st1) →
  pymap f xs2 st1 = Some (ys2, st2) →
  pymap f (xs1 ++ xs2) st = Some (ys1 ++ ys2, st2).
Proof.
  revert st ys1. induction xs1 as [|x xs1 IH]; intros st ys1; simpl.
  - by intros [= <- <-].
  - unfold mbind, M_bind.
    destruct (f x st) as [[y st0]|]; [|done].
    destruct (pymap f xs1 st0) as [[ys0 st0']|] eqn:Hys; [|done].
    intros [= <- <-] H2. by rewrite (IH _ _ Hys H2).
Qed.


(** C2, as the code has it. For a non-negative triple that is absent from
    the store, [SNonCongestionProbability] returns [0.0] whenever
    [m*k < n], and returns [1.0] whenever [n <= k] and [m*k >= n], which
    covers every [n <= k] with [m >= 1]; the store is left as it was. In
    particular the results for [(2,5,1)] and [(3,2,5)] are [0.0] and [1.0]. *)
Theorem SNonCongestion_base_cases m n k st :
  0 ≤ m → 0 ≤ n → 0 ≤ k → sdict st !! (m, n, k) = None →
  (m * k < n → SNonCongestionProbability m n k st = Some (of_int 0, st)) ∧
  (n ≤ k → n ≤ m * k → SNonCongestionProbability m n k st = Some (of_int 1, st)) ∧
  (n ≤ k → 1 ≤ m → SNonCongestionProbability m n k st = Some (of_int 1, st)) ∧
  SNonCongestionProbability 2 5 1 (init None) = Some (of_int 0, init None) ∧
  SNonCongestionProbability 3 2 5 (init None) = Some (of_int 1, init None).
Proof.
  intros Hm Hn Hk Hl.
  assert (Hone : n ≤ k → n ≤ m * k →
                 SNonCongestionProbability m n k st = Some (of_int 1, st)).
  { intros H1 H2. unfold SNonCongestionProbability. cbn [SNonCongestionProbability_fuel].
    unfold SNonCongestionProbability_body. rewrite Hl.
    destruct (Z.ltb_spec (m * k) n); [lia|]. by destruct (Z.leb_spec n k); [|lia]. }
  repeat split; [|done| |done..].
  - intros H1. unfold SNonCongestionProbability. cbn [SNonCongestionProbability_fuel].
    unfold SNonCongestionProbability_body. rewrite Hl.
    by destruct (Z.ltb_spec (m * k) n); [|lia].
  - intros H1 H2. apply Hone; [done|nia].
Qed.

(** C5. [SNonCongestionProbability] leaves the cache file alone whatever the
    triple, and [SCongestionProbability] writes it exactly when the key was
    absent on entry: on a hit the file is untouched, on a miss one image is
    written and it is the whole store as the call leaves it. *)
Theorem cache_file_writes m n k st :
  (∃ v st', SNonCongestionProbability m n k st = Some (v, st') ∧
     dump_file st' = dump_file st) ∧
  (∃ v st', SCongestionProbability m n k st = Some (v, st') ∧
     (is_Some (sdict st !! (m, n, k)) → dump_file st' = dump_file st) ∧
     (sdict st !! (m, n, k) = None → dump_file st' = sdict st' :: dump_file st) ∧
     (dump_file st' ≠ dump_file st ↔ sdict st !! (m, n, k) = None)).
Proof.
  split.
  - destruct (SNonCongestionProbability_total m n k st) as [[v st'] Hv].
    exists v, st'. split; [done|].
    by apply SNonCongestionProbability_frame in Hv as (? & _).
  - destruct (sdict st !! (m, n, k)) as [v0|] eqn:Hl.
    + eexists _, st. split; [by apply SCongestionProbability_hit|].
      split; [done|]. split; [by intros [=]|]. split; [by intros []|by intros [=]].
    + destruct (SCongestionProbability_miss _ _ _ _ Hl) as (v & st1 & Hn & Hc).
      eexists _, _. split; [done|].
      apply SNonCongestionProbability_frame in Hn as (Hd & _). simpl.
      split; [by intros [? [=]]|]. split; [by rewrite Hd|]. split; [done|].
      rewrite Hd. intros _ Heq. apply (f_equal length) in Heq. simpl in Heq. lia.
Qed.

(** C6. In any sequence of calls of the two accessors on one engine, a key
    that is bound at some point of the sequence keeps its value through all
    the calls that follow: each call leaves a store that extends the one it
    found. *)
Theorem store_bindings_are_stable before after st :
  ∃ vs1 st1 vs2 st2,
    perform_all before st = Some (vs1, st1) ∧
    perform_all after st1 = Some (vs2, st2) ∧
    perform_all (before ++ after) st = Some (vs1 ++ vs2, st2) ∧
    ∀ key v, sdict st1 !! key = Some v → sdict st2 !! key = Some v.
Proof.
  unfold perform_all.
  destruct (pymap_total perform before st) as [[vs1 st1] H1].
  { intros. apply perform_total. }
  destruct (pymap_total perform after st1) as [[vs2 st2] H2].
  { intros. apply perform_total. }
  exists vs1, st1, vs2, st2. repeat split; [done..|by eapply pymap_app|].
  destruct (pymap_inv perform (λ s, sdict st1 ⊆ sdict s) (λ _ _, True) after)
    with (st := st1) (ys := vs2) (st' := st2) as [_ Hsub]; [|done..|].
  { intros c s y s' _ Hs Hc. split; [done|]. etrans; [done|]. by eapply perform_subseteq. }
  intros key v Hv. by eapply lookup_weaken.
Qed.

End EngineFacts.



Lemma SNonCongestion_base_cases_witness :
  (2 * 1 < 5 → Engine.SNonCongestionProbability 2 5 1 (Engine.init (num:=Q) None)
               = Some (of_int 0, Engine.init None)) ∧
  (5 ≤ 1 → 5 ≤ 2 * 1 →
   Engine.SNonCongestionProbability 2 5 1 (Engine.init (num:=Q) None)
   = Some (of_int 1, Engine.init None)) ∧
  (5 ≤ 1 → 1 ≤ 2 →
   Engine.SNonCongestionProbability 2 5 1 (Engine.init (num:=Q) None)
   = Some (of_int 1, Engine.init None)) ∧
  Engine.SNonCongestionProbability 2 5 1 (Engine.init (num:=Q) None)
  = Some (of_int 0, Engine.init None) ∧
  Engine.SNonCongestionProbability 3 2 5 (Engine.init (num:=Q) None)
  = Some (of_int 1, Engine.init None).
Proof.
  apply (SNonCongestion_base_cases 2 5 1 (Engine.init (num:=Q) None)); [lia..|reflexivity].
Defined.

(** C2 in the specification's wording does not hold: with no path at all, [m = 0], and
    [0 < n <= k], both [m*k < n] and [n <= k] hold, the first test wins and
    the result is [0.0], not [1.0]. *)
Lemma SNonCongestion_base_cases_overlap :
  ¬ (∀ m n k (st : Engine.engine Q),
       0 ≤ m → 0 ≤ n → 0 ≤ k → Engine.sdict st !! (m, n, k) = None →
       (m * k < n → ∃ v st', Engine.SNonCongestionProbability m n k st = Some (v, st') ∧
                             (v == 0)%Q) ∧
       (n ≤ k → ∃ v st', Engine.SNonCongestionProbability m n k st = Some (v, st') ∧
                         (v == 1)%Q)).
Proof.
  intros H.
  destruct (H 0 1 1 (Engine.init None)) as [_ H1]; [lia..|reflexivity|].
  destruct H1 as (v & st' & Hv & Hq); [lia|].
  vm_compute in Hv. injection Hv as <- _. discriminate Hq.
Qed.

(** ** The recurrence in exact arithmetic *)

Section ExactEngineFacts.
Import Engine.

(** *** The values of the recurrence are probabilities *)



















Lemma guards_give_m_ge_2 m n k : n ≤ m * k → k < n → 0 ≤ k → 2 ≤ m.
Proof.
  intros H1 H2 Hk. destruct (Z.le_gt_cases 2 m) as [|Hm]; [done|].
  assert (m * k ≤ 1 * k) by (apply Z.mul_le_mono_nonneg_r; lia). lia.
Qed.










End ExactEngineFacts.

(** ** Path enumeration *)

Import Graph.

Section PathFacts.
Context {Node : Type} `{!EqDecision Node, !Countable Node} {num : Type}.
Implicit Types (dag : gmap Node (list (Node * edge num))) (path p : list Node) (start : Node).

Lemma edges_of_nil : edges_of (@nil Node) = [].
Proof. done. Qed.

Lemma edges_of_singleton (x : Node) : edges_of [x] = [].
Proof. done. Qed.

Lemma edges_of_cons (x y : Node) p : edges_of (x :: y :: p) = (x, y) :: edges_of (y :: p).
Proof. done. Qed.

Lemma edges_of_length p : length (edges_of p) = Nat.pred (length p).
Proof.
  induction p as [|x [|y p] IH]; [done..|].
  rewrite edges_of_cons. cbn [length] in *. lia.
Qed.

Lemma directed_path_cons dag x y p :
  directed_path dag (x :: y :: p) ↔ is_edge dag x y ∧ directed_path dag (y :: p).
Proof.
  unfold directed_path. rewrite edges_of_cons. split.
  - intros Hp. split; [apply Hp; left|]. intros x' y' Hin. apply Hp. by right.
  - intros [He Hp] x' y' [[= -> ->]|Hin]%elem_of_cons; [done|by apply Hp].
Qed.

Lemma directed_path_app dag path x p :
  directed_path dag (path ++ [x]) → directed_path dag (x :: p) →
  directed_path dag (path ++ x :: p).
Proof.
  induction path as [|a [|b path] IH]; simpl; intros H1 H2; [done|..].
  - apply directed_path_cons. split; [|done]. by apply directed_path_cons in H1 as [? _].
  - apply directed_path_cons in H1 as [He H1]. apply directed_path_cons.
    split; [done|]. by apply IH.
Qed.

Lemma for_node_in_spec self_ dag end_ k path nodes paths :
  for_node_in self_ dag end_ k path nodes paths =
  (rs ← mapM (newpaths_of self_ dag end_ k path) nodes; Some (paths ++ concat rs)).
Proof.
  revert paths. induction nodes as [|node nodes IH]; intros paths.
  - simpl. by rewrite app_nil_r.
  - cbn [for_node_in].
    change (mapM ?f (node :: nodes)) with (y ← f node; k ← mapM f nodes; mret (y :: k)).
    assert (newpaths_of self_ dag end_ k path node =
            if decide (node ∈ path) then Some []
            else if k =? 0 then self_ dag node end_ k path
            else if Z.of_nat (length path) <? k + 1 then self_ dag node end_ k path
            else Some []) as ->.
    { unfold newpaths_of. destruct (decide _); [done|]. by destruct (k =? 0). }
    destruct (decide (node ∈ path)).
    { rewrite IH. simpl. by destruct (mapM _ nodes). }
    destruct (k =? 0); simpl.
    { destruct (self_ dag node end_ k path) as [newpaths|]; simpl; [|done].
      rewrite IH. destruct (mapM _ nodes); simpl; [|done]. by rewrite app_assoc. }
    destruct (Z.of_nat (length path) <? k + 1); simpl.
    { destruct (self_ dag node end_ k path) as [newpaths|]; simpl; [|done].
      rewrite IH. destruct (mapM _ nodes); simpl; [|done]. by rewrite app_assoc. }
    rewrite IH. simpl. by destruct (mapM _ nodes).
Qed.

Lemma unvisited_size dag path : (size (unvisited dag path) ≤ size dag)%nat.
Proof.
  rewrite <- (size_dom dag). apply subseteq_size. unfold unvisited.
  by intros x [Hx _]%elem_of_difference.
Qed.

Lemma unvisited_snoc dag path start :
  is_Some (dag !! start) → start ∉ path →
  (size (unvisited dag (path ++ [start])) < size (unvisited dag path))%nat.
Proof.
  intros Hd%elem_of_dom Hp. apply subset_size. unfold unvisited. split.
  - intros x [Hx Hn]%elem_of_difference. apply elem_of_difference. split; [done|].
    rewrite elem_of_list_to_set in *. intros Hin. apply Hn, elem_of_app. by left.
  - intros Hsub. specialize (Hsub start). rewrite !elem_of_difference in Hsub.
    destruct Hsub as [_ Hn]; [by rewrite elem_of_list_to_set|].
    apply Hn. rewrite elem_of_list_to_set, elem_of_app. right. left.
Qed.

Lemma getAllPathsLimDAG_fuel_total fuel dag start end_ k path :
  start ∉ path → (size (unvisited dag path) < fuel)%nat →
  is_Some (getAllPathsLimDAG_fuel fuel dag start end_ k path).
Proof.
  revert start path. induction fuel as [|fuel IH]; intros start path Hin Hf; [lia|].
  cbn [getAllPathsLimDAG_fuel]. unfold getAllPathsLimDAG_body.
  destruct (decide (start = end_)); [by eexists|].
  destruct (dag !! start) as [adj|] eqn:Hd; [|by eexists].
  rewrite for_node_in_spec.
  pose proof (unvisited_snoc dag path start ltac:(by eexists) Hin) as Hlt.
  destruct (mapM (newpaths_of (getAllPathsLimDAG_fuel fuel) dag end_ k (path ++ [start]))
              (successors adj)) as [rs|] eqn:Hrs; [by eexists|].
  exfalso. apply eq_None_not_Some in Hrs. apply Hrs, mapM_is_Some.
  apply Forall_forall. intros node _. unfold compose, newpaths_of.
  case_decide; [by eexists|].
  destruct (_ || _); [|by eexists]. apply IH; [done|lia].
Qed.

Lemma getAllPathsLimDAG_total dag start end_ k path :
  is_Some (getAllPathsLimDAG dag start end_ k path).
Proof.
  unfold getAllPathsLimDAG. replace (size dag + 2)%nat with (S (S (size dag))) by lia.
  cbn [getAllPathsLimDAG_fuel]. unfold getAllPathsLimDAG_body at 1.
  destruct (decide (start = end_)); [by eexists|].
  destruct (dag !! start) as [adj|] eqn:Hd; [|by eexists].
  rewrite for_node_in_spec.
  match goal with |- context [mapM ?f ?l] => destruct (mapM f l) as [rs|] eqn:Hrs end;
    [by eexists|].
  exfalso. apply eq_None_not_Some in Hrs. apply Hrs, mapM_is_Some.
  apply Forall_forall. intros node _. unfold compose, newpaths_of.
  case_decide; [by eexists|].
  destruct (_ || _); [|by eexists].
  apply (getAllPathsLimDAG_fuel_total (S (size dag))); [done|].
  pose proof (unvisited_size dag (path ++ [start])). lia.
Qed.

Lemma elem_of_concat {A} (x : A) (ls : list (list A)) :
  x ∈ concat ls ↔ ∃ l, l ∈ ls ∧ x ∈ l.
Proof.
  induction ls as [|l ls IH]; simpl.
  - split; [by intros ?%elem_of_nil | by intros (? & ?%elem_of_nil & _)].
  - rewrite elem_of_app, IH. split.
    + intros [?|(l' & ? & ?)]; [exists l; split; [left|done] | exists l'; split; [by right|done]].
    + intros (l' & [->|?]%elem_of_cons & ?); [by left | right; by exists l'].
Qed.

(** The rounds of the loop, one per successor. *)
Lemma for_node_in_Some self_ dag end_ k path nodes ps :
  for_node_in self_ dag end_ k path nodes [] = Some ps →
  ∃ rs, Forall2 (λ node r, newpaths_of self_ dag end_ k path node = Some r) nodes rs ∧
        ps = concat rs.
Proof.
  rewrite for_node_in_spec. intros Hb.
  apply bind_Some in Hb as (rs & Hrs%mapM_Some & [= <-]). by exists rs.
Qed.

Lemma getAllPathsLimDAG_fuel_sound fuel dag end_ k :
  ∀ start path ps, getAllPathsLimDAG_fuel fuel dag start end_ k path = Some ps →
  ∀ p, p ∈ ps →
  ∃ rest, p = path ++ start :: rest ∧
          last (start :: rest) = Some end_ ∧
          directed_path dag (start :: rest) ∧
          (NoDup (path ++ [start]) → NoDup p) ∧
          (0 < k → (length p ≤ Nat.max (length path + 1) (Z.to_nat k + 1))%nat).
Proof.
  induction fuel as [|fuel IH]; intros start path ps; [done|].
  cbn [getAllPathsLimDAG_fuel]. unfold getAllPathsLimDAG_body.
  destruct (decide (start = end_)) as [->|Hne].
  { intros [= <-] p ->%list_elem_of_singleton. exists []. repeat split; [|done|].
    - intros x y. rewrite edges_of_singleton. by intros ?%elem_of_nil.
    - intros _. rewrite length_app. simpl. lia. }
  destruct (dag !! start) as [adj|] eqn:Hd; [|by intros [= <-] p ?%elem_of_nil].
  intros (rs & HF & ->)%for_node_in_Some p (r & Hr & Hp)%elem_of_concat.
  apply list_elem_of_lookup in Hr as [i Hi].
  destruct (Forall2_lookup_r _ _ _ _ _ HF Hi) as (node & Hnode & Hnew).
  unfold newpaths_of in Hnew. case_decide as Hin.
  { injection Hnew as <-. by apply elem_of_nil in Hp. }
  destruct (_ || _) eqn:Hcond; [|injection Hnew as <-; by apply elem_of_nil in Hp].
  destruct (IH _ _ _ Hnew p Hp) as (rest & -> & Hlast & Hdir & Hnd & Hlen).
  exists (node :: rest). split; [by rewrite <- app_assoc|]. split; [done|]. split; [|split].
  - apply directed_path_cons. split; [|done]. exists adj. split; [done|].
    by eapply list_elem_of_lookup_2.
  - intros Hnd0. apply Hnd. apply NoDup_app. split; [done|]. split; [|apply NoDup_singleton].
    by intros x Hx ->%list_elem_of_singleton.
  - intros Hk. specialize (Hlen Hk).
    apply orb_true_iff in Hcond as [Hc|Hc]; [apply Z.eqb_eq in Hc; lia|].
    apply Z.ltb_lt in Hc. rewrite !length_app in *. simpl in *. lia.
Qed.

Lemma getAllPathsLimDAG_fuel_complete fuel dag end_ :
  ∀ rest start path ps,
  getAllPathsLimDAG_fuel fuel dag start end_ 0 path = Some ps →
  last (start :: rest) = Some end_ →
  directed_path dag (start :: rest) →
  NoDup (path ++ start :: rest) →
  path ++ start :: rest ∈ ps.
Proof.
  induction fuel as [|fuel IH]; intros rest start path ps; [done|].
  cbn [getAllPathsLimDAG_fuel]. unfold getAllPathsLimDAG_body.
  destruct rest as [|y rest].
  - intros Hps [= ->] _ _. rewrite decide_True in Hps by done.
    injection Hps as <-. left.
  - intros Hps Hlast [(adj & Hd & Hy) Hdir]%directed_path_cons Hnd.
    assert (start ≠ end_) as Hne.
    { intros ->. apply NoDup_app in Hnd as (_ & _ & Hnd). apply NoDup_cons in Hnd as [Hnd _].
      apply Hnd. change (last (y :: rest) = Some end_) in Hlast.
      apply last_Some in Hlast as [l' ->]. apply elem_of_app. right. left. }
    rewrite decide_False, Hd in Hps by done.
    apply for_node_in_Some in Hps as (rs & HF & ->).
    apply list_elem_of_lookup in Hy as [i Hi].
    destruct (Forall2_lookup_l _ _ _ _ _ HF Hi) as (r & Hr & Hnew).
    apply elem_of_concat. exists r. split; [by eapply list_elem_of_lookup_2|].
    unfold newpaths_of in Hnew. rewrite decide_False in Hnew.
    + simpl in Hnew. rewrite (cons_middle start path (y :: rest)), app_assoc.
      apply (IH rest y (path ++ [start]) r Hnew); [done|done|].
      by rewrite <- app_assoc.
    + replace (path ++ start :: y :: rest) with ((path ++ [start]) ++ y :: rest) in Hnd
        by by rewrite <- app_assoc.
      apply NoDup_app in Hnd as (_ & Hnd & _). intros Hin. apply (Hnd y Hin). left.
Qed.

(** The call with the default empty [path]. *)
Lemma getAllPathsLimDAG_paths dag start end_ k :
  ∃ ps, getAllPathsLimDAG dag start end_ k [] = Some ps ∧
    (∀ p, p ∈ ps →
       head p = Some start ∧ last p = Some end_ ∧ NoDup p ∧ directed_path dag p ∧
       (0 < k → Z.of_nat (length (edges_of p)) ≤ k)) ∧
    (k = 0 → ∀ p, p ∈ ps ↔ loop_free_path dag start end_ p).
Proof.
  destruct (getAllPathsLimDAG_total dag start end_ k []) as [ps Hps].
  exists ps. split; [done|]. split.
  - intros p Hp.
    destruct (getAllPathsLimDAG_fuel_sound _ _ _ _ _ _ _ Hps p Hp)
      as (rest & -> & Hlast & Hdir & Hnd & Hlen).
    simpl. split; [done|]. split; [done|]. split; [|split; [done|]].
    + apply Hnd. apply NoDup_singleton.
    + intros Hk. specialize (Hlen Hk). rewrite edges_of_length. simpl in *. lia.
  - intros ->. intros p. split.
    + intros Hp.
      destruct (getAllPathsLimDAG_fuel_sound _ _ _ _ _ _ _ Hps p Hp)
        as (rest & -> & Hlast & Hdir & Hnd & _).
      split; [done|]. split; [done|]. split; [|done]. apply Hnd, NoDup_singleton.
    + intros (Hhead & Hlast & Hnd & Hdir).
      destruct p as [|x rest]; [done|]. injection Hhead as ->.
      by apply (getAllPathsLimDAG_fuel_complete _ _ _ rest start [] ps Hps).
Qed.

End PathFacts.

(** C4. Called with the default empty [path], [getAllPathsLimDAG] returns
    on every finite graph, and every path it returns starts at [start], ends
    at [end_], repeats no node and follows edges of the graph; with [k > 0]
    a returned path has at most [k] edges, and with [k = 0] the result holds
    exactly the loop-free directed paths from [start] to [end_], of any
    length. On the diamond the call from A to D with [k = 0] returns the two
    paths through B and through C and nothing else. *)
Theorem getAllPathsLimDAG_correct :
  (∀ `{Countable Node} (num : Type) (dag : gmap Node (list (Node * edge num))) start end_ k,
     ∃ ps, getAllPathsLimDAG dag start end_ k [] = Some ps ∧
       (∀ p, p ∈ ps →
          head p = Some start ∧ last p = Some end_ ∧ NoDup p ∧ directed_path dag p ∧
          (0 < k → Z.of_nat (length (edges_of p)) ≤ k)) ∧
       (k = 0 → ∀ p, p ∈ ps ↔ loop_free_path dag start end_ p)) ∧
  getAllPathsLimDAG Examples.diamond "A"%string "D"%string 0 [] =
    Some [["A"; "B"; "D"]; ["A"; "C"; "D"]]%string.
Proof.
  split; [|by vm_compute].
  intros Node ? ? num dag start end_ k. apply getAllPathsLimDAG_paths.
Qed.

Lemma getAllPathsLimDAG_correct_witness :
  ∃ ps, getAllPathsLimDAG Examples.diamond "A"%string "D"%string 0 [] = Some ps ∧
    ∀ p, p ∈ ps ↔ loop_free_path Examples.diamond "A"%string "D"%string p.
Proof.
  destruct (proj1 getAllPathsLimDAG_correct _ _ _ _ Examples.diamond "A"%string "D"%string 0)
    as (ps & Hps & _ & Hall).
  exists ps. split; [done|]. by apply Hall.
Defined.


(** ** Bottleneck capacity *)

Lemma Qltb_lt x y : Qltb x y = true ↔ (x < y)%Q.
Proof. unfold Qltb, Qlt. apply Z.ltb_lt. Qed.

Lemma Qltb_ge x y : Qltb x y = false ↔ (y <= x)%Q.
Proof. unfold Qltb, Qle. apply Z.ltb_ge. Qed.

Section CapacityFacts.
Context {Node : Type} `{!EqDecision Node, !Countable Node} {num : Type} `{!Number num}.
Implicit Types (dag : gmap Node (list (Node * edge num))) (path p : list Node).
Implicit Types (adj : list (Node * edge num)).

Lemma assoc_is_Some (y : Node) adj : y ∈ successors adj → is_Some (assoc y adj).
Proof.
  unfold successors. induction adj as [|[z e] adj IH]; simpl.
  - by intros ?%elem_of_nil.
  - intros [->|Hin]%elem_of_cons.
    + rewrite decide_True by done. by eexists.
    + case_decide; [by eexists | by apply IH].
Qed.

Lemma is_edge_get_edge dag x y : is_edge dag x y → ∃ e, get_edge dag x y = Ok e.
Proof.
  intros (adj & Hd & Hy). unfold get_edge. rewrite Hd.
  destruct (assoc_is_Some y adj Hy) as [e ->]. by exists e.
Qed.

Lemma assoc_Some_successor (y : Node) adj e : assoc y adj = Some e → y ∈ successors adj.
Proof.
  unfold successors. induction adj as [|[z e'] adj IH]; simpl; [done|].
  case_decide as Hz; [subst; left|]. intros Ha. right. by apply IH.
Qed.

Lemma get_edge_is_edge dag x y e : get_edge dag x y = Ok e → is_edge dag x y.
Proof.
  unfold get_edge. destruct (dag !! x) as [adj|] eqn:Hd; [|done].
  destruct (assoc y adj) as [e'|] eqn:Ha; [|done].
  intros _. exists adj. split; [done|]. by eapply assoc_Some_successor.
Qed.

(** The capacities read along a list of edges of the graph. *)
Lemma rmap_capacities dag (es : list (Node * Node)) :
  (∀ x y, (x, y) ∈ es → is_edge dag x y) →
  ∃ caps, rmap (λ '(u, v), e ← get_edge dag u v; Ok (capacity e)) es = Ok caps ∧
    Forall2 (λ '(u, v) c, ∃ e, get_edge dag u v = Ok e ∧ capacity e = c) es caps.
Proof.
  induction es as [|[u v] es IH]; intros Hes; simpl.
  - exists []. by split.
  - destruct (is_edge_get_edge dag u v) as [e He]; [apply Hes; left|].
    destruct IH as (caps & -> & HF); [intros; apply Hes; by right|].
    rewrite He. simpl. exists (capacity e :: caps). split; [done|].
    constructor; [by exists e | done].
Qed.

Lemma edges_of_short p : (length p < 2)%nat → edges_of p = [].
Proof. destruct p as [|x [|y p]]; simpl; [done..|lia]. Qed.

Lemma edges_of_long p : (2 ≤ length p)%nat → edges_of p ≠ [].
Proof. destruct p as [|x [|y p]]; simpl; [lia..|done]. Qed.

End CapacityFacts.

(** *** The minimum, for capacities that are exact numbers *)

Lemma pymin_fold (xs : list Q) : ∀ best,
  let r := fold_left (λ best y, if flt y best then y else best) xs best in
  (r = best ∨ r ∈ xs) ∧ (r <= best)%Q ∧ ∀ c, c ∈ xs → (r <= c)%Q.
Proof.
  induction xs as [|x xs IH]; intros best; simpl in *.
  - split; [by left|]. split; [lra|]. by intros c ?%elem_of_nil.
  - destruct (Qltb x best) eqn:Hx.
    + apply Qltb_lt in Hx. destruct (IH x) as ([->|Hin] & Hle & Hall).
      * split; [right; left|]. split; [lra|].
        intros c [->|Hc]%elem_of_cons; [lra|]. by apply Hall.
      * split; [right; by right|]. split; [lra|].
        intros c [->|Hc]%elem_of_cons; [lra|]. by apply Hall.
    + apply Qltb_ge in Hx. destruct (IH best) as (Hor & Hle & Hall).
      split; [destruct Hor as [->|Hin]; [by left|right; by right]|]. split; [done|].
      intros c [->|Hc]%elem_of_cons; [lra|]. by apply Hall.
Qed.

Lemma pymin_spec (xs : list Q) :
  xs ≠ [] → ∃ c, pymin xs = Ok c ∧ c ∈ xs ∧ ∀ c', c' ∈ xs → (c <= c')%Q.
Proof.
  destruct xs as [|x xs]; [done|]. intros _. eexists. split; [done|].
  destruct (pymin_fold xs x) as ([->|Hin] & Hle & Hall).
  - split; [left|]. intros c' [->|Hc]%elem_of_cons; [lra|]. by apply Hall.
  - split; [by right|]. intros c' [->|Hc]%elem_of_cons; [lra|]. by apply Hall.
Qed.

Section ExactCapacityFacts.
Context {Node : Type} `{!EqDecision Node, !Countable Node}.
Implicit Types (dag : gmap Node (list (Node * edge Q))) (path p : list Node).

Lemma getMinCapacity_min dag path :
  (2 ≤ length path)%nat → directed_path dag path →
  ∃ caps c,
    edge_capacities dag path = Ok caps ∧
    Forall2 (λ '(u, v) c, ∃ e, get_edge dag u v = Ok e ∧ capacity e = c)
            (edges_of path) caps ∧
    getMinCapacity dag path = Ok c ∧
    c ∈ caps ∧ ∀ c', c' ∈ caps → (c <= c')%Q.
Proof.
  intros Hlen Hdir.
  destruct (rmap_capacities dag (edges_of path) Hdir) as (caps & Hcaps & HF).
  assert (caps ≠ []) as Hne.
  { intros ->. apply Forall2_nil_inv_r in HF. by apply edges_of_long in Hlen. }
  destruct (pymin_spec caps Hne) as (c & Hc & Hin & Hmin).
  exists caps, c. unfold getMinCapacity, edge_capacities. rewrite Hcaps. by simpl.
Qed.

End ExactCapacityFacts.

(** C8. On a path of at least two nodes whose consecutive pairs are edges of
    the graph, [getMinCapacity] reads the capacity of every edge of the path
    and returns one of them that is no greater than any other, the minimum;
    on a path of fewer than two nodes it raises instead of returning. For
    the line with capacities 10, 3, 7 the result is 3. *)
Theorem getMinCapacity_correct :
  (∀ `{Countable Node} (dag : gmap Node (list (Node * edge Q))) (path : list Node),
     ((2 ≤ length path)%nat → directed_path dag path →
      ∃ caps c,
        edge_capacities dag path = Ok caps ∧
        Forall2 (λ '(u, v) c, ∃ e, get_edge dag u v = Ok e ∧ capacity e = c)
                (edges_of path) caps ∧
        getMinCapacity dag path = Ok c ∧
        c ∈ caps ∧ ∀ c', c' ∈ caps → (c <= c')%Q) ∧
     ((length path < 2)%nat → getMinCapacity dag path = Raise ValueError)) ∧
  edge_capacities Examples.line ["A"; "B"; "C"; "D"]%string = Ok [10; 3; 7]%Q ∧
  getMinCapacity Examples.line ["A"; "B"; "C"; "D"]%string = Ok 3%Q.
Proof.
  split; [|by vm_compute].
  intros Node ? ? dag path. split.
  - apply getMinCapacity_min.
  - intros Hlen. unfold getMinCapacity, edge_capacities.
    by rewrite edges_of_short.
Qed.

Lemma getMinCapacity_correct_witness :
  ∃ caps c,
    edge_capacities Examples.line ["A"; "B"; "C"; "D"]%string = Ok caps ∧
    getMinCapacity Examples.line ["A"; "B"; "C"; "D"]%string = Ok c ∧
    c ∈ caps ∧ ∀ c', c' ∈ caps → (c <= c')%Q.
Proof.
  destruct (proj1 (proj1 getMinCapacity_correct _ _ _ Examples.line
                     ["A"; "B"; "C"; "D"]%string))
    as (caps & c & H1 & _ & H2 & H3 & H4).
  - simpl. lia.
  - intros x y Hxy. cbn in Hxy. rewrite !elem_of_cons, elem_of_nil in Hxy.
    destruct Hxy as [[= -> ->]|[[= -> ->]|[[= -> ->]|[]]]];
      (eexists; split; [by vm_compute|]; cbn; left).
  - by exists caps, c.
Defined.

(** ** Path probability *)

Lemma rmap_const {A B} (f : A → result B) y xs :
  (∀ x, f x = Ok y) → rmap f xs = Ok (replicate (length xs) y).
Proof.
  intros Hf. induction xs as [|x xs IH]; simpl; [done|]. by rewrite Hf, IH.
Qed.

Lemma rmap_raise {A B} (f : A → result B) e xs :
  xs ≠ [] → (∀ x, f x = Raise e) → rmap f xs = Raise e.
Proof. intros Hne Hf. destruct xs as [|x xs]; [done|]. simpl. by rewrite Hf. Qed.

Section ProbabilityFacts.
Context {Node : Type} `{!EqDecision Node, !Countable Node} {num : Type} `{!Number num}.
Implicit Types (dag : gmap Node (list (Node * edge num))) (path p : list Node).
Implicit Types (adj : list (Node * edge num)).

Lemma for_node_probability_app dag l1 l2 a :
  for_node_probability dag (l1 ++ l2) a =
  (b ← for_node_probability dag l1 a; for_node_probability dag l2 b).
Proof.
  revert a. induction l1 as [|x l1 IH]; intros a; simpl; [done|].
  destruct (dag !! x); [|done]. by destruct (_ =? 0).
Qed.

Lemma getPathProbability_snoc dag p0 v :
  getPathProbability dag (p0 ++ [v]) = for_node_probability dag p0 (of_int 1).
Proof. unfold getPathProbability. by rewrite removelast_last. Qed.

(** One more node on a path multiplies its probability by the share
    [1/float(d)] of a successor of its last node. *)
Lemma getPathProbability_extend dag p v adj c :
  last p = Some v → dag !! v = Some adj → (0 < length adj)%nat →
  getPathProbability dag (p ++ [c]) =
  (q ← getPathProbability dag p;
   Ok (fmul q (fdiv (of_int 1) (of_int (Z.of_nat (length adj)))))).
Proof.
  intros [p0 ->]%last_Some Hv Hd.
  rewrite !getPathProbability_snoc, for_node_probability_app.
  destruct (for_node_probability dag p0 (of_int 1)) as [b|e]; simpl; [|done].
  rewrite Hv. by destruct (Z.eqb_spec (Z.of_nat (length adj)) 0); [lia|].
Qed.

Lemma children_probability_shares dag p v adj :
  last p = Some v → dag !! v = Some adj → (0 < length adj)%nat →
  children_probability dag p (successors adj) =
  (q ← getPathProbability dag p;
   Ok (pysum (replicate (length adj)
                        (fmul q (fdiv (of_int 1) (of_int (Z.of_nat (length adj)))))))).
Proof.
  intros Hl Hv Hd. unfold children_probability.
  assert (successors adj ≠ []) as Hne.
  { unfold successors. destruct adj; [simpl in Hd; lia|done]. }
  destruct (getPathProbability dag p) as [q|e] eqn:Hq; simpl.
  - erewrite rmap_const; last first.
    { intros c. rewrite (getPathProbability_extend dag p v adj c Hl Hv Hd), Hq. done. }
    simpl. unfold successors. by rewrite length_fmap.
  - rewrite (rmap_raise _ e); [done..|].
    intros c. by rewrite (getPathProbability_extend dag p v adj c Hl Hv Hd), Hq.
Qed.

Lemma directed_path_out_degree dag p x :
  directed_path dag p → x ∈ removelast p → 0 < out_degree dag x.
Proof.
  induction p as [|a [|b p] IH]; [by intros _ ?%elem_of_nil..|].
  intros [(adj & Hd & Hb) Hdir]%directed_path_cons.
  change (removelast (a :: b :: p)) with (a :: removelast (b :: p)).
  intros [->|Hin]%elem_of_cons; [|by apply IH].
  unfold out_degree. rewrite Hd. destruct adj; [by apply elem_of_nil in Hb|simpl; lia].
Qed.

End ProbabilityFacts.

(** *** In exact arithmetic *)

Lemma fold_left_Qplus_acc xs a : (fold_left Qplus xs a == a + pysum xs)%Q.
Proof.
  unfold pysum. exact_arith. revert a. induction xs as [|x xs IH]; intros a; simpl.
  - ring.
  - rewrite IH, (IH (inject_Z 0 + x)%Q). ring.
Qed.

Lemma pysum_cons (x : Q) xs : (pysum (x :: xs) == x + pysum xs)%Q.
Proof.
  unfold pysum at 1. exact_arith. cbn [fold_left]. rewrite fold_left_Qplus_acc. ring.
Qed.

Lemma pysum_replicate n (y : Q) : (pysum (replicate n y) == inject_Z (Z.of_nat n) * y)%Q.
Proof.
  induction n as [|n IH].
  - simpl. unfold pysum. simpl. ring.
  - cbn [replicate]. rewrite pysum_cons, IH, Nat2Z.inj_succ. unfold Z.succ.
    rewrite inject_Z_plus. change (inject_Z 1) with 1%Q. ring.
Qed.

Section ExactProbabilityFacts.
Context {Node : Type} `{!EqDecision Node, !Countable Node}.
Implicit Types (dag : gmap Node (list (Node * edge Q))) (path p : list Node).

(** Where every node has a successor the loop computes the product of the
    splitting ratios. *)
Lemma for_node_probability_product dag nodes a :
  (∀ x, x ∈ nodes → 0 < out_degree dag x) →
  ∃ q, for_node_probability dag nodes a = Ok q ∧ (q == a * ecmp_product dag nodes)%Q.
Proof.
  revert a. induction nodes as [|x nodes IH]; intros a Hpos.
  - exists a. split; [done|]. simpl. ring.
  - pose proof (Hpos x ltac:(left)) as Hx.
    cbn [for_node_probability]. unfold ecmp_product. cbn [fold_right].
    fold (ecmp_product dag nodes). unfold out_degree in Hx |- * at 1.
    destruct (dag !! x) as [adj|]; [|lia].
    destruct (Z.eqb_spec (Z.of_nat (length adj)) 0); [lia|].
    destruct (IH (fmul a (fdiv (of_int 1) (of_int (Z.of_nat (length adj))))))
      as (q & -> & Hq).
    { intros. apply Hpos. by right. }
    exists q. split; [done|]. rewrite Hq. exact_arith. ring.
Qed.

Lemma ecmp_product_nonneg dag nodes : (0 <= ecmp_product dag nodes)%Q.
Proof.
  induction nodes as [|x nodes IH]; simpl; [lra|].
  apply Qmult_le_0_compat; [|done].
  unfold out_degree. destruct (dag !! x) as [adj|]; [|by vm_compute].
  destruct adj; [by vm_compute|].
  apply Qle_shift_div_l; [|lra].
  change 0%Q with (inject_Z 0). rewrite <- Zlt_Qlt. simpl length. lia.
Qed.

(** Without rounding the shares of the successors add up to what entered
    the node. *)
Lemma children_probability_exact dag p v adj :
  last p = Some v → dag !! v = Some adj → (0 < length adj)%nat →
  result_Qeq (children_probability dag p (successors adj)) (getPathProbability dag p).
Proof.
  intros Hl Hv Hd. rewrite (children_probability_shares dag p v adj Hl Hv Hd).
  destruct (getPathProbability dag p) as [q|e]; simpl; [|done].
  rewrite pysum_replicate. exact_arith. field.
  change 0%Q with (inject_Z 0). rewrite inject_Z_injective. lia.
Qed.

End ExactProbabilityFacts.

(** C9, as the code has it. Let [p] end at a node [v] of the graph that has
    [d > 0] successors. [getPathProbability] of [p] extended by a successor
    is [getPathProbability] of [p] multiplied by [1/float(d)], or the same
    exception when a node before [v] is missing or has no successor; the
    sum over the successors is the sum of [d] such equal shares. In exact
    arithmetic the shares add up to [getPathProbability] of [p], and the
    value for a path that follows the edges of the graph is the product of
    [1 / outDegree] over its non-terminal nodes. In floating point the
    multiplication and the additions round. *)
Theorem getPathProbability_split :
  (∀ `{Countable Node} (num : Type) `{!Number num}
     (dag : gmap Node (list (Node * edge num))) (p : list Node) (v : Node) adj,
     last p = Some v → dag !! v = Some adj → (0 < length adj)%nat →
     let share q := fmul q (fdiv (of_int 1) (of_int (Z.of_nat (length adj)))) in
     (∀ c, getPathProbability dag (p ++ [c]) =
           (q ← getPathProbability dag p; Ok (share q))) ∧
     children_probability dag p (successors adj) =
       (q ← getPathProbability dag p; Ok (pysum (replicate (length adj) (share q))))) ∧
  (∀ `{Countable Node} (dag : gmap Node (list (Node * edge Q))) (p : list Node)
     (v : Node) adj,
     last p = Some v → dag !! v = Some adj → (0 < length adj)%nat →
     result_Qeq (children_probability dag p (successors adj)) (getPathProbability dag p) ∧
     (directed_path dag p →
      ∃ q q', getPathProbability dag p = Ok q ∧
              (q == ecmp_product dag (removelast p))%Q ∧
              children_probability dag p (successors adj) = Ok q' ∧ (q' == q)%Q)).
Proof.
  split.
  - intros Node ? ? num ? dag p v adj Hl Hv Hd share. split.
    + intros c. by apply (getPathProbability_extend dag p v adj c).
    + by apply (children_probability_shares dag p v adj).
  - intros Node ? ? dag p v adj Hl Hv Hd.
    pose proof (children_probability_exact dag p v adj Hl Hv Hd) as Hsum.
    split; [done|]. intros Hdir.
    apply last_Some in Hl as [p0 ->].
    rewrite getPathProbability_snoc, removelast_last in *.
    destruct (for_node_probability_product dag p0 (of_int 1)) as (q & Hq & Hprod).
    { intros x Hx. apply (directed_path_out_degree dag (p0 ++ [v])); [done|].
      by rewrite removelast_last. }
    rewrite Hq in Hsum.
    destruct (children_probability dag (p0 ++ [v]) (successors adj)) as [q'|]; [|done].
    exists q, q'. split; [done|]. split; [rewrite Hprod; exact_arith; ring|]. by split.
Qed.

(** The theorem at the router with six successors, in double precision. *)
Lemma getPathProbability_split_witness :
  let adj := default [] (Examples64.fan6 !! "A"%string) in
  let share q := fmul q (fdiv (of_int 1) (of_int (Z.of_nat (length adj)))) in
  (∀ c, getPathProbability Examples64.fan6 (["A"%string] ++ [c]) =
        (q ← getPathProbability Examples64.fan6 ["A"%string]; Ok (share q))) ∧
  children_probability Examples64.fan6 ["A"%string] (successors adj) =
    (q ← getPathProbability Examples64.fan6 ["A"%string];
     Ok (pysum (replicate (length adj) (share q)))).
Proof.
  apply (proj1 getPathProbability_split _ _ _ _ _
           Examples64.fan6 ["A"%string] "A"%string
           (default [] (Examples64.fan6 !! "A"%string))).
  - reflexivity.
  - by vm_compute.
  - vm_compute. lia.
Defined.

(** C9 in the specification's wording does not hold in double precision:
    for a router with six successors each extension has the probability
    [1/6.0], and Python's [sum] of the six is [0.9999999999999999], below
    the [1] that [getPathProbability] returns for the path that ends at the
    router. *)
Lemma getPathProbability_split_rounds :
  ∃ adj s q,
    Examples64.fan6 !! "A"%string = Some adj ∧ length adj = 6%nat ∧
    children_probability Examples64.fan6 ["A"%string] (successors adj) = Ok s ∧
    getPathProbability Examples64.fan6 ["A"%string] = Ok q ∧
    q = of_int 1 ∧
    flt s q = true ∧
    s ≠ q.
Proof.
  eexists _, _, _. split; [by vm_compute|]. split; [done|].
  split; [by vm_compute|]. split; [by vm_compute|]. split; [by vm_compute|].
  split; [by vm_compute|].
  intros Heq. apply (f_equal (λ x, PrimFloat.ltb x (of_int 1))) in Heq.
  vm_compute in Heq. discriminate Heq.
Qed.

(** ** Per-flow congestion probability *)


(** The bounds of this section are those of exact arithmetic. *)
Section FlowFacts.
Context {Node : Type} `{!EqDecision Node, !Countable Node}.
Implicit Types (dag : gmap Node (list (Node * edge Q))) (path p : list Node).







Lemma for_path_add_mass dag paths a :
  (∀ p, p ∈ paths → directed_path dag p) →
  ∃ v, for_path_add dag paths a = Ok v ∧ (v == a + path_mass dag paths)%Q.
Proof.
  revert a. induction paths as [|p paths IH]; intros a Hdir.
  - exists a. split; [done|]. simpl. ring.
  - cbn [for_path_add path_mass fold_right]. fold (path_mass dag paths).
    unfold getPathProbability.
    destruct (for_node_probability_product dag (removelast p) (of_int 1)) as (q & -> & Hq).
    { intros x Hx. apply (directed_path_out_degree dag p); [|done]. apply Hdir. left. }
    cbn [mbind result_bind].
    destruct (IH (fadd a q)) as (v & -> & Hv); [intros; apply Hdir; by right|].
    exists v. split; [done|]. rewrite Hv, Hq. exact_arith. ring.
Qed.


End FlowFacts.

(** ** Exact enumeration *)

Lemma product_elem {A} (ls : list (list A)) (xs : list A) :
  xs ∈ Itertools.product ls ↔ Forall2 (λ x l, x ∈ l) xs ls.
Proof.
  revert xs. induction ls as [|l ls IH]; intros xs; simpl.
  - rewrite list_elem_of_singleton. split; [intros ->; constructor | by intros ->%Forall2_nil_inv_r].
  - rewrite list_elem_of_In, in_flat_map. split.
    + intros (x & Hx%list_elem_of_In & Hin%list_elem_of_In).
      apply list_elem_of_fmap in Hin as (xs' & -> & Hxs'). constructor; [done|by apply IH].
    + intros HF. destruct xs as [|x xs']; [by apply Forall2_nil_cons_inv in HF|].
      apply Forall2_cons in HF as [Hx HF]. exists x. rewrite <- !list_elem_of_In.
      split; [done|]. apply list_elem_of_fmap. exists xs'. split; [done|by apply IH].
Qed.

Lemma product_nonempty {A} (ls : list (list A)) :
  Forall (λ l, l ≠ []) ls → Itertools.product ls ≠ [].
Proof.
  induction 1 as [|l ls Hl _ IH]; simpl; [done|].
  destruct l as [|x l]; [done|]. simpl.
  destruct (Itertools.product ls) as [|ys yss]; [done|]. done.
Qed.

Section ExactFacts.
Context {Node : Type} `{!EqDecision Node, !Countable Node} {num : Type} `{!Number num}.
Implicit Types (dag g : gmap Node (list (Node * edge num))) (path p : list Node).
Implicit Types (adj : list (Node * edge num)) (cap s : num).
Implicit Types (steps : list (Node * Node * num)).

Lemma assoc_set_capacity_eq (y : Node) cap adj e :
  assoc y adj = Some e →
  assoc y (assoc_set_capacity y cap adj) = Some {| capacity := cap; mincap := mincap e |}.
Proof.
  induction adj as [|[z e'] adj IH]; simpl; [done|].
  case_decide as Hz.
  - intros [= ->]. simpl. by rewrite decide_True.
  - intros Ha. simpl. rewrite decide_False by done. by apply IH.
Qed.

Lemma assoc_set_capacity_ne (y y' : Node) cap adj :
  y' ≠ y → assoc y' (assoc_set_capacity y cap adj) = assoc y' adj.
Proof.
  intros Hne. induction adj as [|[z e'] adj IH]; simpl; [done|].
  case_decide as Hz; simpl.
  - subst z. by rewrite !decide_False by done.
  - case_decide; [done|]. apply IH.
Qed.

Lemma get_edge_set_capacity_eq g x y cap e :
  get_edge g x y = Ok e →
  get_edge (set_capacity g x y cap) x y = Ok {| capacity := cap; mincap := mincap e |}.
Proof.
  unfold get_edge, set_capacity. destruct (g !! x) as [adj|] eqn:Hx; [|done].
  destruct (assoc y adj) as [e0|] eqn:Ha; [|done]. intros [= ->].
  rewrite lookup_insert_eq. by rewrite (assoc_set_capacity_eq _ _ _ _ Ha).
Qed.

Lemma get_edge_set_capacity_ne g x y x' y' cap :
  (x', y') ≠ (x, y) →
  get_edge (set_capacity g x y cap) x' y' = get_edge g x' y'.
Proof.
  intros Hne. unfold get_edge, set_capacity.
  destruct (g !! x) as [adj|] eqn:Hx; [|done].
  destruct (decide (x' = x)) as [->|Hxx].
  - rewrite lookup_insert_eq, Hx. rewrite assoc_set_capacity_ne; [done|]. congruence.
  - by rewrite lookup_insert_ne.
Qed.

Lemma residual_snoc_eq (x y : Node) cap (done_ : list (Node * Node * num)) s :
  residual x y cap (done_ ++ [((x, y), s)]) = fsub (residual x y cap done_) s.
Proof. unfold residual. rewrite fold_left_app. simpl. by rewrite decide_True. Qed.

Lemma residual_snoc_ne (x y x' y' : Node) cap (done_ : list (Node * Node * num)) s :
  (x', y') ≠ (x, y) →
  residual x y cap (done_ ++ [((x', y'), s)]) = residual x y cap done_.
Proof. intros. unfold residual. rewrite fold_left_app. simpl. by rewrite decide_False. Qed.

Lemma working_copy_start dag : working_copy dag [] dag.
Proof. intros x y e He. by exists e. Qed.

Lemma working_copy_step dag done_ g x y s e' :
  working_copy dag done_ g →
  get_edge g x y = Ok e' →
  working_copy dag (done_ ++ [((x, y), s)]) (set_capacity g x y (fsub (capacity e') s)).
Proof.
  intros Hw Hg x' y' e He. destruct (Hw x' y' e He) as (e0 & He0 & Hm & Hc).
  destruct (decide ((x', y') = (x, y))) as [[= -> ->]|Hne].
  - rewrite (get_edge_set_capacity_eq _ _ _ _ _ Hg). eexists. split; [done|]. simpl.
    assert (e0 = e') as -> by congruence. split; [done|].
    by rewrite residual_snoc_eq, Hc.
  - rewrite get_edge_set_capacity_ne by done. exists e0. split; [done|]. split; [done|].
    by rewrite residual_snoc_ne.
Qed.

(** The loop over the subtractions stops with [true] exactly when one of
    them drops an edge below its mincap. *)
Lemma run_steps_some_drop dag steps : ∀ done_ g,
  working_copy dag done_ g →
  (∀ x y s, ((x, y), s) ∈ steps → is_edge dag x y) →
  ∃ g', run_steps steps g = Ok (some_drop dag done_ steps, g').
Proof.
  induction steps as [|[[x y] s] steps IH]; intros done_ g Hw Hes; simpl.
  - by eexists.
  - destruct (is_edge_get_edge dag x y) as [e He]; [eapply Hes; left|].
    destruct (Hw x y e He) as (e' & He' & Hm & Hc).
    rewrite He'. simpl. rewrite (get_edge_set_capacity_eq _ _ _ _ _ He'). simpl.
    unfold drops_belowb. rewrite He, residual_snoc_eq, <- Hc, <- Hm.
    destruct (flt _ _); simpl; [by eexists|].
    apply IH.
    + by apply working_copy_step.
    + intros x' y' s' Hin. eapply Hes. by right.
Qed.

Lemma run_steps_app steps1 steps2 g :
  run_steps (steps1 ++ steps2) g =
  ('(found, g1) ← run_steps steps1 g;
   if found : bool then Ok (true, g1) else run_steps steps2 g1).
Proof.
  revert g. induction steps1 as [|[[x y] s] steps1 IH]; intros g; simpl.
  - by destruct (run_steps steps2 g) as [[? ?]|].
  - destruct (get_edge g x y) as [e|]; simpl; [|done].
    destruct (get_edge (set_capacity g x y (fsub (capacity e) s)) x y) as [e'|]; simpl;
      [|done].
    destruct (flt _ _); [done|]. apply IH.
Qed.

Lemma for_edge_run_steps (flow_sizes : list num) index s es g :
  flow_sizes !! index = Some s →
  for_edge flow_sizes index es g = run_steps (map (λ xy, (xy, s)) es) g.
Proof.
  intros Hs. revert g. induction es as [|[x y] es IH]; intros g; simpl; [done|].
  destruct (get_edge g x y) as [e|]; simpl; [|done].
  rewrite Hs. simpl.
  destruct (get_edge (set_capacity g x y (fsub (capacity e) s)) x y) as [e'|]; simpl;
    [|done].
  destruct (flt _ _); [done|]. apply IH.
Qed.

Lemma for_path_run_steps (flow_sizes : list num) alloc : ∀ index g,
  (index + length alloc ≤ length flow_sizes)%nat →
  for_path flow_sizes index alloc g =
  ('(found, _) ← run_steps (steps_of flow_sizes index alloc) g; Ok found).
Proof.
  induction alloc as [|path alloc IH]; intros index g Hlen; simpl; [done|].
  simpl in Hlen.
  destruct (lookup_lt_is_Some_2 flow_sizes index ltac:(lia)) as [s Hs].
  rewrite run_steps_app, Hs. simpl.
  rewrite (for_edge_run_steps _ _ s) by done.
  destruct (run_steps _ g) as [[[|] g1]|]; simpl; [done| |done].
  apply IH. lia.
Qed.

Lemma steps_of_edges (flow_sizes : list num) alloc : ∀ index x y s,
  ((x, y), s) ∈ steps_of flow_sizes index alloc →
  ∃ path, path ∈ alloc ∧ (x, y) ∈ edges_of path.
Proof.
  induction alloc as [|path alloc IH]; intros index x y s; simpl.
  - by intros ?%elem_of_nil.
  - intros [Hin|Hin]%elem_of_app.
    + apply list_elem_of_fmap in Hin as (xy & [= <-] & Hxy). exists path. split; [left|done].
    + destruct (IH _ _ _ _ Hin) as (path' & ? & ?). exists path'. split; [by right|done].
Qed.

(** One combination: the loops answer what [congestedb] computes. *)
Lemma for_path_congestedb dag (flow_sizes : list num) alloc :
  (length alloc ≤ length flow_sizes)%nat →
  (∀ path, path ∈ alloc → directed_path dag path) →
  for_path flow_sizes 0 alloc dag = Ok (congestedb dag flow_sizes alloc).
Proof.
  intros Hlen Hdir. rewrite for_path_run_steps by (simpl; lia).
  destruct (run_steps_some_drop dag (steps_of flow_sizes 0 alloc) [] dag) as [g' ->].
  - apply working_copy_start.
  - intros x y s Hin. destruct (steps_of_edges _ _ _ _ _ _ Hin) as (path & Hp & Hxy).
    by apply (Hdir path Hp).
  - done.
Qed.

Lemma some_drop_spec dag rest : ∀ done_,
  some_drop dag done_ rest = true ↔
  ∃ mid x y s rest', rest = mid ++ ((x, y), s) :: rest' ∧ drops_below dag (done_ ++ mid) x y s.
Proof.
  induction rest as [|[[x y] s] rest IH]; intros done_; simpl.
  - split; [done|]. intros (mid & ? & ? & ? & ? & Heq & _). by destruct mid.
  - rewrite orb_true_iff, IH. split.
    + intros [Hd|(mid & x' & y' & s' & rest' & -> & Hd)].
      * exists [], x, y, s, rest. split; [done|]. rewrite app_nil_r.
        unfold drops_belowb in Hd. destruct (get_edge dag x y) as [e|] eqn:He; [|done].
        by exists e.
      * exists (((x, y), s) :: mid), x', y', s', rest'. split; [done|].
        by rewrite <- app_assoc in Hd.
    + intros (mid & x' & y' & s' & rest' & Heq & Hd). destruct mid as [|st mid].
      * injection Heq as -> -> -> ->. left. rewrite app_nil_r in Hd.
        destruct Hd as (e & He & Hlt). unfold drops_belowb. by rewrite He.
      * injection Heq as <- ->. right. exists mid, x', y', s', rest'. split; [done|].
        by rewrite <- app_assoc.
Qed.

Lemma congestedb_spec dag (flow_sizes : list num) alloc :
  congestedb dag flow_sizes alloc = true ↔ congested dag flow_sizes alloc.
Proof. unfold congestedb, congested. rewrite some_drop_spec. done. Qed.

(** The loops leave a combination at the first subtraction that drops an
    edge below its mincap: what comes after it is not looked at, not even
    for edges the graph does not have. *)
Lemma for_path_stops_at_drop dag (flow_sizes : list num) alloc done_ x y s rest :
  (length alloc ≤ length flow_sizes)%nat →
  steps_of flow_sizes 0 alloc = done_ ++ ((x, y), s) :: rest →
  (∀ x' y' s', ((x', y'), s') ∈ done_ ++ [((x, y), s)] → is_edge dag x' y') →
  drops_below dag done_ x y s →
  for_path flow_sizes 0 alloc dag = Ok true.
Proof.
  intros Hlen Hsteps Hedges Hdrop. rewrite for_path_run_steps by (simpl; lia).
  rewrite Hsteps, (cons_middle _ done_ rest), app_assoc, run_steps_app.
  destruct (run_steps_some_drop dag (done_ ++ [((x, y), s)]) [] dag) as [g' ->];
    [apply working_copy_start | done |].
  assert (some_drop dag [] (done_ ++ [((x, y), s)]) = true) as ->; [|done].
  apply some_drop_spec. by exists done_, x, y, s, [].
Qed.

(** The loop over the combinations counts them and counts the congested
    ones. *)
Lemma for_alloc_counts dag (flow_sizes : list num) allocs : ∀ total congestion,
  (∀ alloc, alloc ∈ allocs →
     for_path flow_sizes 0 alloc dag = Ok (congestedb dag flow_sizes alloc)) →
  for_alloc dag flow_sizes allocs total congestion =
  Ok (total + Z.of_nat (length allocs),
      congestion + Z.of_nat (length (List.filter (congestedb dag flow_sizes) allocs))).
Proof.
  induction allocs as [|alloc allocs IH]; intros total congestion Hall; simpl.
  - by rewrite !Z.add_0_r.
  - rewrite (Hall alloc) by left. simpl. rewrite IH by (intros; apply Hall; by right).
    destruct (congestedb dag flow_sizes alloc); simpl; do 2 f_equal; lia.
Qed.

Lemma filter_length_le {A} (f : A → bool) xs : (length (List.filter f xs) ≤ length xs)%nat.
Proof. induction xs as [|x xs IH]; simpl; [done|]. destruct (f x); simpl; lia. Qed.

Lemma ExactCongestionProbability_ratio dag flow_paths (flow_sizes : list num) :
  length flow_sizes = length flow_paths →
  Forall (λ paths, paths ≠ [] ∧ ∀ path, path ∈ paths → directed_path dag path) flow_paths →
  ExactCongestionProbability dag flow_paths flow_sizes =
  Ok (fdiv (of_int (Z.of_nat (length (List.filter (congestedb dag flow_sizes)
                                                   (Itertools.product flow_paths)))))
           (of_int (Z.of_nat (length (Itertools.product flow_paths))))).
Proof.
  intros Hlen Hwf. unfold ExactCongestionProbability.
  rewrite for_alloc_counts.
  - simpl. rewrite !Z.add_0_l.
    destruct (Z.eqb_spec (Z.of_nat (length (Itertools.product flow_paths))) 0) as [Hz|Hz]; [|done].
    exfalso. apply (product_nonempty flow_paths).
    + eapply Forall_impl; [done|]. by intros ? [? _].
    + apply length_zero_iff_nil. lia.
  - intros alloc HF%product_elem. apply for_path_congestedb.
    + rewrite (Forall2_length _ _ _ HF). lia.
    + intros path Hp. apply list_elem_of_lookup in Hp as [i Hi].
      destruct (Forall2_lookup_l _ _ _ _ _ HF Hi) as (paths & Hpaths & Hin).
      eapply Forall_lookup_1 in Hwf as [_ Hd]; [|done]. by apply Hd.
Qed.

End ExactFacts.

(** ** The result of the exact enumeration and the range of the probabilities *)


(** The same in double precision. *)
Lemma two_flow_paths_well_formed64 :
  Forall (λ paths, paths ≠ [] ∧ ∀ path, path ∈ paths → directed_path Examples64.two_links path)
         Examples.two_flow_paths.
Proof.
  repeat constructor; try done;
    (intros path Hp; elem_of_cases Hp; subst path;
     intros x y Hxy; elem_of_cases Hxy; injection Hxy as -> ->;
     (eexists; split; [by vm_compute|]; cbn; left)).
Defined.

(** C3, as the code has it. For a graph, candidate path lists that follow
    its edges, one list that is not empty per flow, and as many flow sizes,
    [ExactCongestionProbability] returns the number of congested
    combinations of the Cartesian product divided by the number of all
    combinations. A combination is congested when, with the flows taken in
    order and each size subtracted along the edges of the chosen path, one
    subtraction after the other in the arithmetic of the code, some
    subtraction leaves its edge with a residual capacity below its mincap;
    the loops leave the combination at the first such subtraction and do not
    look at what follows it. In double precision two flows of size 5 over
    two disjoint links of capacity 8 and mincap 0 give one half. *)
Theorem ExactCongestionProbability_correct :
  (∀ `{Countable Node} (num : Type) `{!Number num}
     (dag : gmap Node (list (Node * edge num)))
     (flow_paths : list (list (list Node))) (flow_sizes : list num),
     length flow_sizes = length flow_paths →
     Forall (λ paths, paths ≠ [] ∧ ∀ path, path ∈ paths → directed_path dag path)
            flow_paths →
     ExactCongestionProbability dag flow_paths flow_sizes =
       Ok (fdiv (of_int (Z.of_nat (length (List.filter (congestedb dag flow_sizes)
                                                        (Itertools.product flow_paths)))))
                (of_int (Z.of_nat (length (Itertools.product flow_paths))))) ∧
     (∀ alloc, congestedb dag flow_sizes alloc = true ↔ congested dag flow_sizes alloc) ∧
     (∀ alloc done_ x y s rest,
        (length alloc ≤ length flow_sizes)%nat →
        steps_of flow_sizes 0 alloc = done_ ++ ((x, y), s) :: rest →
        (∀ x' y' s', ((x', y'), s') ∈ done_ ++ [((x, y), s)] → is_edge dag x' y') →
        drops_below dag done_ x y s →
        for_path flow_sizes 0 alloc dag = Ok true)) ∧
  ExactCongestionProbability
    Examples64.two_links Examples.two_flow_paths Examples64.two_flow_sizes =
  Ok (fdiv (of_int 1) (of_int 2)).
Proof.
  split.
  - intros Node ? ? num ? dag flow_paths flow_sizes Hlen Hwf. split; [|split].
    + by apply ExactCongestionProbability_ratio.
    + intros alloc. apply congestedb_spec.
    + intros alloc done_ x y s rest. apply for_path_stops_at_drop.
  - by vm_compute.
Qed.

Lemma ExactCongestionProbability_correct_witness :
  ExactCongestionProbability
    Examples64.two_links Examples.two_flow_paths Examples64.two_flow_sizes =
  Ok (fdiv (of_int (Z.of_nat (length (List.filter
         (congestedb Examples64.two_links Examples64.two_flow_sizes)
         (Itertools.product Examples.two_flow_paths)))))
      (of_int (Z.of_nat (length (Itertools.product Examples.two_flow_paths))))).
Proof.
  apply (proj1 ExactCongestionProbability_correct _ _ _ _ _
           Examples64.two_links Examples.two_flow_paths Examples64.two_flow_sizes
           eq_refl two_flow_paths_well_formed64).
Defined.

(** C3 in the specification's wording does not hold for every input: a
    flow without a candidate path leaves no combination, and the division
    by their number raises [ZeroDivisionError]; a candidate path that
    leaves the edges of the graph raises [KeyError]. *)
Lemma ExactCongestionProbability_raises :
  ExactCongestionProbability Examples64.two_links [[]] [of_int 5]
    = Raise ZeroDivisionError ∧
  ExactCongestionProbability Examples64.two_links [[["a"; "d"]%string]] [of_int 5]
    = Raise KeyError.
Proof. split; by vm_compute. Qed.




(** ** The allocations of the sampled estimator *)

Section Allocations.
Context {A : Type} `{!EqDecision A}.
Implicit Types (pool l t p : list A).

Lemma cwr_O pool : Itertools.combinations_with_replacement pool 0 = [[]].
Proof. done. Qed.

Lemma cwr_nil r : Itertools.combinations_with_replacement (@nil A) (S r) = [].
Proof. done. Qed.

Lemma cwr_cons x pool r :
  Itertools.combinations_with_replacement (x :: pool) (S r) =
  map (cons x) (Itertools.combinations_with_replacement (x :: pool) r)
  ++ Itertools.combinations_with_replacement pool (S r).
Proof. done. Qed.

(** A combination has the asked length and draws from the pool. *)
Lemma cwr_sound pool : ∀ r p,
  p ∈ Itertools.combinations_with_replacement pool r →
  length p = r ∧ Forall (λ x, x ∈ pool) p.
Proof.
  induction pool as [|x pool IHpool]; intros r.
  - destruct r; [|by intros p ?%elem_of_nil].
    intros p ->%list_elem_of_singleton. by split.
  - induction r as [|r IHr]; intros p.
    + intros ->%list_elem_of_singleton. by split.
    + rewrite cwr_cons, elem_of_app, list_elem_of_fmap.
      intros [(p' & -> & Hp')|Hp].
      * destruct (IHr p' Hp') as [<- HF]. split; [done|]. constructor; [left|done].
      * destruct (IHpool (S r) p Hp) as [<- HF]. split; [done|].
        eapply Forall_impl; [done|]. intros y Hy. by right.
Qed.

(** Every tuple over the pool is an arrangement of some combination. *)
Lemma cwr_complete pool : ∀ r t,
  length t = r → Forall (λ x, x ∈ pool) t →
  ∃ p, p ∈ Itertools.combinations_with_replacement pool r ∧ p ≡ₚ t.
Proof.
  induction pool as [|x pool IHpool]; intros r t Hlen HF.
  - destruct t as [|y t].
    + subst r. exists []. split; [left|done].
    + apply Forall_cons in HF as [?%elem_of_nil _]. done.
  - revert t Hlen HF. induction r as [|r IHr]; intros t Hlen HF.
    + apply length_zero_iff_nil in Hlen as ->. exists []. split; [left|done].
    + destruct (decide (x ∈ t)) as [Hx|Hx].
      * apply list_elem_of_split in Hx as (t1 & t2 & ->).
        destruct (IHr (t1 ++ t2)) as (p & Hp & Hperm).
        { rewrite length_app in *. simpl in Hlen. lia. }
        { apply Forall_app in HF as [H1 H2]. apply Forall_cons in H2 as [_ H2].
          by apply Forall_app. }
        exists (x :: p). split.
        -- rewrite cwr_cons. apply elem_of_app. left. apply list_elem_of_fmap. by exists p.
        -- rewrite <- Permutation_middle. by constructor.
      * destruct (IHpool (S r) t Hlen) as (p & Hp & Hperm).
        { apply Forall_forall. intros y Hy.
          apply (proj1 (Forall_forall _ _) HF) in Hy as Hy2.
          apply elem_of_cons in Hy2 as [->|?]; done. }
        exists p. split; [|done]. rewrite cwr_cons. apply elem_of_app. by right.
Qed.

Lemma picks_spec l y rest :
  (y, rest) ∈ Itertools.picks l ↔ ∃ l1 l2, l = l1 ++ y :: l2 ∧ rest = l1 ++ l2.
Proof.
  revert y rest. induction l as [|x xs IH]; intros y rest; simpl.
  - split; [by intros ?%elem_of_nil|]. intros (l1 & l2 & Heq & _). by destruct l1.
  - rewrite elem_of_cons, list_elem_of_fmap. split.
    + intros [[= -> ->]|([y0 ys0] & [= -> ->] & Hin)].
      * by exists [], xs.
      * apply IH in Hin as (l1 & l2 & -> & ->). by exists (x :: l1), l2.
    + intros (l1 & l2 & Heq & ->). destruct l1 as [|x0 l1]; simpl in *.
      * injection Heq as -> ->. by left.
      * injection Heq as -> ->. right. exists (y, l1 ++ l2). split; [done|].
        apply IH. by exists l1, l2.
Qed.

(** The arrangements of all the positions of [l] are the lists that are
    permutations of [l]. *)
Lemma permutations_r_spec r : ∀ l t,
  length l = r → t ∈ Itertools.permutations_r r l ↔ l ≡ₚ t.
Proof.
  induction r as [|r IH]; intros l t Hlen; simpl.
  - apply length_zero_iff_nil in Hlen as ->. rewrite list_elem_of_singleton.
    split; [by intros ->|]. by intros ->%Permutation_nil_l.
  - rewrite list_elem_of_In, in_flat_map. split.
    + intros ([x rest] & Hpick%list_elem_of_In & Hin%list_elem_of_In).
      apply list_elem_of_fmap in Hin as (t0 & -> & Ht0).
      apply picks_spec in Hpick as (l1 & l2 & -> & ->).
      apply IH in Ht0; [|rewrite length_app in *; simpl in Hlen; lia].
      rewrite <- Permutation_middle. by constructor.
    + intros Hperm. destruct t as [|x t0].
      { apply Permutation_nil_r in Hperm. by subst l. }
      assert (x ∈ l) as Hx by (rewrite Hperm; left).
      apply list_elem_of_split in Hx as (l1 & l2 & ->).
      exists (x, l1 ++ l2). rewrite <- !list_elem_of_In. split.
      * apply picks_spec. by exists l1, l2.
      * apply list_elem_of_fmap. exists t0. split; [done|]. apply IH.
        -- rewrite length_app in *; simpl in Hlen; lia.
        -- rewrite <- Permutation_middle in Hperm. by apply Permutation_cons_inv in Hperm.
Qed.

Lemma permutations_spec l t : t ∈ Itertools.permutations l ↔ l ≡ₚ t.
Proof. by apply permutations_r_spec. Qed.

Lemma product_length (ls : list (list A)) :
  length (Itertools.product ls) = fold_right (λ l n, length l * n)%nat 1%nat ls.
Proof.
  induction ls as [|l ls IH]; simpl; [done|]. rewrite <- IH.
  generalize (Itertools.product ls) as P. intros P.
  induction l as [|x l IHl]; simpl; [done|].
  by rewrite length_app, length_map, IHl.
Qed.

Lemma product_NoDup (ls : list (list A)) :
  Forall NoDup ls → NoDup (Itertools.product ls).
Proof.
  induction 1 as [|l ls Hl _ IH]; simpl; [apply NoDup_singleton|].
  revert IH. generalize (Itertools.product ls) as P. intros P HP.
  induction Hl as [|x l Hx _ IHl]; simpl; [constructor|].
  apply NoDup_app. split; [|split; [|done]].
  - by apply (NoDup_fmap_2 _).
  - intros t (t1 & -> & _)%list_elem_of_fmap Hin%list_elem_of_In.
    apply in_flat_map in Hin as (y & Hy%list_elem_of_In & Hin%list_elem_of_In).
    apply list_elem_of_fmap in Hin as (t2 & [= -> ->] & _). done.
Qed.

Lemma Forall2_replicate_pool t r pool :
  Forall2 (λ x l, x ∈ l) t (replicate r pool) ↔ length t = r ∧ Forall (λ x, x ∈ pool) t.
Proof.
  revert t. induction r as [|r IH]; intros t; simpl.
  - split; [by intros ->%Forall2_nil_inv_r|]. intros [->%length_zero_iff_nil _]. constructor.
  - split.
    + intros HF. destruct t as [|x t]; [by apply Forall2_nil_cons_inv in HF|].
      apply Forall2_cons in HF as [Hx HF]. apply IH in HF as [<- HF]. split; [done|].
      by constructor.
    + intros [Hlen HF]. destruct t as [|x t]; [done|]. apply Forall_cons in HF as [Hx HF].
      constructor; [done|]. apply IH. split; [by injection Hlen|done].
Qed.

End Allocations.

Lemma append_new_fold (l : list (list Z)) : ∀ acc,
  NoDup acc →
  let r := fold_left (λ final_allocs a,
             if decide (a ∈ final_allocs) then final_allocs else final_allocs ++ [a]) l acc in
  NoDup r ∧ ∀ x, x ∈ r ↔ x ∈ acc ∨ x ∈ l.
Proof.
  induction l as [|a l IH]; intros acc Hacc; simpl.
  - split; [done|]. intros x. rewrite elem_of_nil. tauto.
  - case_decide as Ha.
    + destruct (IH acc Hacc) as [Hnd Hin]. split; [done|].
      intros x. rewrite Hin, elem_of_cons. split; [tauto|]. intros [?|[->|?]]; tauto.
    + destruct (IH (acc ++ [a])) as [Hnd Hin].
      { apply NoDup_app. split; [done|]. split; [|apply NoDup_singleton].
        by intros x Hx ->%list_elem_of_singleton. }
      split; [done|]. intros x.
      rewrite Hin, elem_of_app, list_elem_of_singleton, elem_of_cons. tauto.
Qed.

Lemma append_new_spec l :
  NoDup (Sampled.append_new l) ∧ ∀ x, x ∈ Sampled.append_new l ↔ x ∈ l.
Proof.
  destruct (append_new_fold l [] (NoDup_nil_2)) as [Hnd Hin]. split; [done|].
  intros x. unfold Sampled.append_new. rewrite Hin, elem_of_nil. tauto.
Qed.

Lemma all_allocs_spec {num} (m n : list num) t :
  t ∈ Sampled.all_allocs m n ↔
  length t = length n ∧ Forall (λ i, 0 ≤ i < Z.of_nat (length m)) t.
Proof.
  unfold Sampled.all_allocs. rewrite list_elem_of_In, in_flat_map.
  assert (∀ l : list Z, Forall (λ i, i ∈ range 0 (Z.of_nat (length m))) l ↔
                        Forall (λ i, 0 ≤ i < Z.of_nat (length m)) l) as Hr.
  { intros l. apply Forall_proper; [|done]. intros i. apply elem_of_range. }
  split.
  - intros (p & Hp%list_elem_of_In & Ht%list_elem_of_In).
    apply permutations_spec in Ht. apply cwr_sound in Hp as [Hlen HF].
    split; [by rewrite <- Ht | apply Hr; by rewrite <- Ht].
  - intros [Hlen HF%Hr].
    destruct (cwr_complete _ _ t Hlen HF) as (p & Hp & Hperm).
    exists p. rewrite <- !list_elem_of_In. split; [done|]. by apply permutations_spec.
Qed.

(** C7. The de-duplicated allocation list of [SampledCongestionProbability]
    holds every tuple of [len(n)] path indices below [len(m)], each exactly
    once, and nothing else; its length is [len(m)] to the power [len(n)]. *)
Theorem final_allocs_are_all_tuples (m n : list Q) :
  NoDup (Sampled.final_allocs m n) ∧
  (∀ t, t ∈ Sampled.final_allocs m n ↔
        length t = length n ∧ Forall (λ i, 0 ≤ i < Z.of_nat (length m)) t) ∧
  (∀ t, length t = length n → Forall (λ i, 0 ≤ i < Z.of_nat (length m)) t →
        count_occ (List.list_eq_dec Z.eq_dec) (Sampled.final_allocs m n) t = 1%nat) ∧
  Sampled.n_samples m n = Z.of_nat (length m) ^ Z.of_nat (length n).
Proof.
  destruct (append_new_spec (Sampled.all_allocs m n)) as [Hnd Hin].
  assert (∀ t, t ∈ Sampled.final_allocs m n ↔
        length t = length n ∧ Forall (λ i, 0 ≤ i < Z.of_nat (length m)) t) as Hmem.
  { intros t. unfold Sampled.final_allocs. by rewrite Hin, all_allocs_spec. }
  split; [done|]. split; [done|]. split.
  - intros t Hlen HF. apply NoDup_count_occ'.
    + by apply NoDup_ListNoDup.
    + apply list_elem_of_In, Hmem. by split.
  - unfold Sampled.n_samples.
    set (pool := range 0 (Z.of_nat (length m))).
    assert (Sampled.final_allocs m n ≡ₚ Itertools.product (replicate (length n) pool)) as ->.
    { apply NoDup_Permutation; [done| |].
      - apply product_NoDup, Forall_replicate. apply NoDup_seqZ.
      - intros t. rewrite Hmem, product_elem, Forall2_replicate_pool.
        apply and_iff_compat_l, Forall_proper; [|done]. intros i.
        unfold pool. by rewrite elem_of_range. }
    rewrite product_length.
    assert (length pool = length m) as Hpool.
    { unfold pool, range. rewrite length_seqZ. lia. }
    clear Hnd Hin Hmem. generalize (length n) as r. intros r.
    induction r as [|r IH]; simpl; [done|].
    rewrite Nat2Z.inj_mul, IH, Hpool, Nat2Z.inj_succ, Z.pow_succ_r by lia. done.
Qed.

Lemma final_allocs_are_all_tuples_witness :
  count_occ (List.list_eq_dec Z.eq_dec) (Sampled.final_allocs [8; 8]%Q [5; 5; 5]%Q)
            [1; 0; 1] = 1%nat.
Proof.
  apply (final_allocs_are_all_tuples [8; 8]%Q [5; 5; 5]%Q).
  - reflexivity.
  - repeat constructor; simpl; lia.
Defined.

(** * Further properties *)

(** ** The store is transparent *)

Section RecurrenceFacts.
Import Engine Recurrence.
Context {num : Type} `{!Number num} `{!Special num}.
Implicit Types (st : engine num) (v : num).

(** Fuel beyond [m] does not change the recurrence. *)
Lemma recurrence_fuel f1 : ∀ f2 m n k,
  (Z.to_nat m < f1)%nat → (Z.to_nat m < f2)%nat →
  recurrence f1 m n k = recurrence f2 m n k.
Proof.
  induction f1 as [|f1 IH]; intros f2 m n k H1 H2; [lia|].
  destruct f2 as [|f2]; [lia|]. simpl.
  destruct (Z.ltb_spec (m * k) n) as [Hb1|Hb1]; [done|].
  destruct (Z.leb_spec n k) as [Hb2|Hb2]; [done|].
  f_equal. apply map_ext_in. intros t Ht%list_elem_of_In%elem_of_range.
  assert (2 ≤ m) by (apply (guards_give_m_ge_2 m n k); lia).
  f_equal. apply IH; lia.
Qed.

Lemma NonCongestion_unfold m n k :
  NonCongestion m n k =
  if m * k <? n then of_int 0
  else if n <=? k then of_int 1
  else pysum (map (λ t, fmul (NonCongestion (m - 1) (n - t) k) (weight m n t))
                  (range 0 (k + 1))).
Proof.
  unfold NonCongestion at 1. cbn [recurrence].
  destruct (Z.ltb_spec (m * k) n) as [Hb1|Hb1]; [done|].
  destruct (Z.leb_spec n k) as [Hb2|Hb2]; [done|].
  f_equal. apply map_ext_in. intros t Ht%list_elem_of_In%elem_of_range.
  assert (2 ≤ m) by (apply (guards_give_m_ge_2 m n k); lia).
  f_equal. unfold NonCongestion. apply recurrence_fuel; lia.
Qed.

Lemma store_consistent_insert m n k v st :
  v = NonCongestion m n k → store_consistent st →
  store_consistent (set_sdict (<[(m, n, k) := v]> (sdict st)) st).
Proof.
  intros Hv Hst m' n' k' v'. simpl. rewrite lookup_insert.
  case_decide as Hk; [|apply Hst]. injection Hk as <- <- <-. by intros [= <-].
Qed.

Lemma SNonCongestionProbability_fuel_consistent fuel : ∀ m n k st v st',
  store_consistent st →
  SNonCongestionProbability_fuel fuel m n k st = Some (v, st') →
  v = NonCongestion m n k ∧ store_consistent st'.
Proof.
  induction fuel as [|fuel IH]; intros m n k st v st' Hst;
    cbn [SNonCongestionProbability_fuel]; [done|].
  unfold SNonCongestionProbability_body. rewrite (NonCongestion_unfold m n k).
  destruct (sdict st !! (m, n, k)) eqn:Hl.
  { intros [= <- <-]. split; [|done]. rewrite <- NonCongestion_unfold. by apply Hst. }
  destruct (Z.ltb_spec (m * k) n) as [H1|H1]; [intros [= <- <-]; split; [reflexivity|done]|].
  destruct (Z.leb_spec n k) as [H2|H2]; [intros [= <- <-]; split; [reflexivity|done]|].
  match goal with |- context [pymap ?f ?l st] =>
    destruct (pymap f l st) as [[terms st1]|] eqn:Ht; [|done];
    destruct (pymap_inv f store_consistent
                (λ t y, y = fmul (NonCongestion (m - 1) (n - t) k) (weight m n t)) l)
      with (st := st) (ys := terms) (st' := st1) as [HF Hst1]; [|done..|]
  end.
  { intros t st0 y st0' _ Hst0. unfold function, mbind, M_bind.
    destruct (SNonCongestionProbability_fuel fuel (m - 1) (n - t) k st0)
      as [[p st2]|] eqn:Hp; [|done].
    intros [= <- <-]. destruct (IH _ _ _ _ _ _ Hst0 Hp) as [Hpv Hst2].
    split; [|done]. by rewrite Hpv. }
  assert (terms = map (λ t, fmul (NonCongestion (m - 1) (n - t) k) (weight m n t))
                      (range 0 (k + 1))) as Hres.
  { clear Ht. induction HF as [|t y ts ys Hy _ IHF]; simpl; [done|]. by rewrite Hy, IHF. }
  rewrite <- Hres.
  destruct (sdict st1 !! (m, n, k)); intros [= <- <-]; (split; [done|]); [done|].
  apply store_consistent_insert; [|done]. rewrite NonCongestion_unfold.
  destruct (Z.ltb_spec (m * k) n); [lia|]. destruct (Z.leb_spec n k); [lia|].
  by rewrite <- Hres.
Qed.

(** X1. The store does not change what the accessors compute: from a store
    whose values are those of the recurrence (the empty store, or one built
    up by earlier calls), [SNonCongestionProbability] returns the value of
    the recurrence without a store, computed by the same operations in the
    same order, and [SCongestionProbability] returns [1.0] less that value;
    both leave such a store behind. *)
Theorem store_is_transparent m n k cs :
  ∃ vs st v st1 c st2,
    perform_all cs (init None) = Some (vs, st) ∧ store_consistent st ∧
    SNonCongestionProbability m n k st = Some (v, st1) ∧
    v = NonCongestion m n k ∧ store_consistent st1 ∧
    SCongestionProbability m n k st = Some (c, st2) ∧
    c = fsub (of_int 1) (NonCongestion m n k) ∧ store_consistent st2.
Proof.
  assert (∀ m n k st v st', store_consistent st →
            SCongestionProbability m n k st = Some (v, st') →
            v = fsub (of_int 1) (NonCongestion m n k) ∧ store_consistent st') as HC.
  { clear. intros m n k st v st' Hst.
    destruct (sdict st !! (m, n, k)) as [v0|] eqn:Hl.
    - rewrite (SCongestionProbability_hit _ _ _ _ _ Hl). intros [= <- <-].
      split; [|done]. by rewrite (Hst _ _ _ _ Hl).
    - destruct (SCongestionProbability_miss _ _ _ _ Hl) as (v1 & st1 & Hn & ->).
      intros [= <- <-].
      destruct (SNonCongestionProbability_fuel_consistent _ _ _ _ _ _ _ Hst Hn) as [Hv Hst1].
      split; [by rewrite Hv|]. by apply (store_consistent_insert m n k v1 st1). }
  destruct (pymap_total perform cs (init None)) as [[vs st] Hcs].
  { intros. apply perform_total. }
  assert (store_consistent st) as Hst.
  { destruct (pymap_inv perform store_consistent (λ _ _, True) cs)
      with (st := init (num:=num) None) (ys := vs) (st' := st) as [_ Hst]; [| |done|done].
    - intros [m' n' k'|m' n' k'] s y s' _ Hs Hc; (split; [done|]).
      + by apply (SNonCongestionProbability_fuel_consistent _ _ _ _ _ _ _ Hs Hc).
      + by apply (HC _ _ _ _ _ _ Hs Hc).
    - by intros ???? [=]. }
  destruct (SNonCongestionProbability_total m n k st) as [[v st1] Hv].
  destruct (SCongestionProbability_total m n k st) as [[c st2] Hc].
  destruct (SNonCongestionProbability_fuel_consistent _ _ _ _ _ _ _ Hst Hv) as [Hv1 Hst1].
  destruct (HC _ _ _ _ _ _ Hst Hc) as [Hc1 Hst2].
  by exists vs, st, v, st1, c, st2.
Qed.

(** X2. Asking twice changes nothing the second time: a call of either
    accessor made right after the same call returns the identical value and
    leaves the store and the file exactly as it found them. *)
Theorem second_call_is_a_hit m n k st :
  ∃ v st1 c st2,
    SNonCongestionProbability m n k st = Some (v, st1) ∧
    SNonCongestionProbability m n k st1 = Some (v, st1) ∧
    SCongestionProbability m n k st = Some (c, st2) ∧
    SCongestionProbability m n k st2 = Some (c, st2).
Proof.
  destruct (SNonCongestionProbability_total m n k st) as [[v st1] Hv].
  destruct (SCongestionProbability_total m n k st) as [[c st2] Hc].
  exists v, st1, c, st2. split; [done|]. split; [|split; [done|]].
  - destruct (sdict st !! (m, n, k)) as [v0|] eqn:Hl.
    + rewrite (SNonCongestionProbability_hit _ _ _ _ _ Hl) in Hv. injection Hv as <- <-.
      by apply SNonCongestionProbability_hit.
    + destruct (SNonCongestionProbability_miss _ _ _ _ _ _ Hl Hv) as [[-> _]|[_ Hb]]; [done|].
      by apply SNonCongestionProbability_hit.
  - destruct (sdict st !! (m, n, k)) as [v0|] eqn:Hl.
    + rewrite (SCongestionProbability_hit _ _ _ _ _ Hl) in Hc. injection Hc as <- <-.
      by apply SCongestionProbability_hit.
    + destruct (SCongestionProbability_miss _ _ _ _ Hl) as (v1 & st' & _ & Hc').
      rewrite Hc' in Hc. injection Hc as <- <-.
      apply SCongestionProbability_hit. simpl. by rewrite lookup_insert_eq.
Qed.

Lemma perform_images c st v st' :
  perform c st = Some (v, st') →
  Forall (λ image, image ⊆ sdict st) (dump_file st) →
  Forall (λ image, image ⊆ sdict st') (dump_file st').
Proof.
  intros Hc HF. pose proof (perform_subseteq _ _ _ _ Hc) as Hsub.
  assert (Forall (λ image, image ⊆ sdict st') (dump_file st)) as HF'.
  { eapply Forall_impl; [done|]. intros image Hi. by trans (sdict st). }
  destruct c as [m n k|m n k]; simpl in Hc.
  - apply SNonCongestionProbability_frame in Hc as (-> & _). done.
  - destruct (sdict st !! (m, n, k)) as [v0|] eqn:Hl.
    + rewrite (SCongestionProbability_hit _ _ _ _ _ Hl) in Hc. by injection Hc as <- <-.
    + destruct (SCongestionProbability_miss _ _ _ _ Hl) as (v1 & st1 & Hn & Hc').
      rewrite Hc' in Hc. injection Hc as <- <-. simpl in *.
      apply SNonCongestionProbability_frame in Hn as (-> & _). by constructor.
Qed.

(** X3. The cache file never holds a binding the store does not hold: after
    any sequence of calls on an engine, the store it was loaded from and
    every image that was written to the file are contained in the store. *)
Theorem file_is_contained_in_store file cs :
  ∃ vs st,
    perform_all cs (init file) = Some (vs, st) ∧
    Forall (λ image, image ⊆ sdict st) (dump_file st) ∧
    (∀ d, file = Some d → d ⊆ sdict st).
Proof.
  destruct (pymap_total perform cs (init file)) as [[vs st] Hcs].
  { intros. apply perform_total. }
  exists vs, st. split; [done|].
  destruct (pymap_inv perform
              (λ s, Forall (λ image, image ⊆ sdict s) (dump_file s) ∧
                    sdict (init file) ⊆ sdict s) (λ _ _, True) cs)
    with (st := init file) (ys := vs) (st' := st) as [_ [HF Hsub]]; [| |done|].
  - intros c s y s' _ [HF Hsub] Hc. split; [done|]. split.
    + by eapply perform_images.
    + trans (sdict s); [done|]. by eapply perform_subseteq.
  - split; [|done]. destruct file; simpl; [constructor|]. by constructor.
  - split; [done|]. by intros d ->.
Qed.

Lemma SNonCongestionProbability_fuel_new_keys fuel : ∀ m n k st v st',
  SNonCongestionProbability_fuel fuel m n k st = Some (v, st') →
  ∀ m' n' k', sdict st !! (m', n', k') = None → is_Some (sdict st' !! (m', n', k')) →
  k' = k ∧ m' ≤ m ∧ k' < n' ≤ m' * k'.
Proof.
  induction fuel as [|fuel IH]; intros m n k st v st';
    cbn [SNonCongestionProbability_fuel]; [done|].
  unfold SNonCongestionProbability_body.
  destruct (sdict st !! (m, n, k)) eqn:Hl.
  { intros [= <- <-] m' n' k' Hn [? Hs]. congruence. }
  destruct (Z.ltb_spec (m * k) n) as [H1|H1];
    [intros [= <- <-] m' n' k' Hn [? Hs]; congruence|].
  destruct (Z.leb_spec n k) as [H2|H2];
    [intros [= <- <-] m' n' k' Hn [? Hs]; congruence|].
  match goal with |- context [pymap ?f ?l st] =>
    destruct (pymap f l st) as [[terms st1]|] eqn:Ht; [|done];
    destruct (pymap_inv f
                (λ s, ∀ m' n' k', sdict st !! (m', n', k') = None →
                      is_Some (sdict s !! (m', n', k')) →
                      k' = k ∧ m' ≤ m ∧ k' < n' ≤ m' * k')
                (λ _ _, True) l)
      with (st := st) (ys := terms) (st' := st1) as [_ Hinv]; [| |done|]
  end.
  { intros t st0 y st0' _ Hinv0. unfold function, mbind, M_bind.
    destruct (SNonCongestionProbability_fuel fuel (m - 1) (n - t) k st0)
      as [[p st2]|] eqn:Hp; [|done].
    intros [= <- <-]. split; [done|]. intros m' n' k' Hn Hs.
    destruct (sdict st0 !! (m', n', k')) eqn:Hl0; [by apply Hinv0|].
    destruct (IH _ _ _ _ _ _ Hp m' n' k' Hl0 Hs) as (? & ? & ?). lia. }
  { intros m' n' k' Hn [? Hs]. congruence. }
  destruct (sdict st1 !! (m, n, k)); intros [= <- <-]; [done|].
  intros m' n' k' Hn. simpl. rewrite lookup_insert. case_decide as Hk; [|by apply Hinv].
  injection Hk as <- <- <-. intros _. lia.
Qed.

(** X4. [SNonCongestionProbability] never stores a base case: every key a
    call adds to the store has the threshold [k] of the call, a first
    component no greater than [m], and lies in the recursive case
    [k < n <= m*k]. *)
Theorem SNonCongestion_stores_recursive_cases_only m n k st :
  ∃ v st',
    SNonCongestionProbability m n k st = Some (v, st') ∧
    ∀ m' n' k', sdict st !! (m', n', k') = None → is_Some (sdict st' !! (m', n', k')) →
                k' = k ∧ m' ≤ m ∧ k' < n' ≤ m' * k'.
Proof.
  destruct (SNonCongestionProbability_total m n k st) as [[v st'] Hv].
  exists v, st'. split; [done|]. by eapply SNonCongestionProbability_fuel_new_keys.
Qed.

(** X5. A negative threshold is answered without recursion and without a
    division: for [k < 0] and a key that is not stored the result is [1.0]
    when [n <= k] and [n <= m*k], and [0.0] otherwise; in the remaining case
    [k < n <= m*k] the sum over the empty range is stored as the value of the
    key. *)
Theorem SNonCongestion_negative_threshold m n k st :
  k < 0 → sdict st !! (m, n, k) = None →
  (m * k < n → SNonCongestionProbability m n k st = Some (of_int 0, st)) ∧
  (n ≤ m * k → n ≤ k → SNonCongestionProbability m n k st = Some (of_int 1, st)) ∧
  (k < n ≤ m * k →
   SNonCongestionProbability m n k st =
     Some (of_int 0, set_sdict (<[(m, n, k) := of_int 0]> (sdict st)) st)).
Proof.
  intros Hk Hl. unfold SNonCongestionProbability. cbn [SNonCongestionProbability_fuel].
  unfold SNonCongestionProbability_body. rewrite Hl.
  split; [|split].
  - intros H1. by destruct (Z.ltb_spec (m * k) n); [|lia].
  - intros H1 H2. destruct (Z.ltb_spec (m * k) n); [lia|].
    by destruct (Z.leb_spec n k); [|lia].
  - intros [H1 H2]. destruct (Z.ltb_spec (m * k) n); [lia|].
    destruct (Z.leb_spec n k); [lia|]. rewrite range_empty by lia. simpl. by rewrite Hl.
Qed.

End RecurrenceFacts.

Lemma SNonCongestion_negative_threshold_witness :
  Engine.SNonCongestionProbability (-1) 0 (-1) (Engine.init (num:=Q) None) =
    Some (of_int 0, Engine.set_sdict (<[(-1, 0, -1) := of_int 0]>
                                        (Engine.sdict (Engine.init None)))
                                     (Engine.init None)).
Proof.
  apply (SNonCongestion_negative_threshold (-1) 0 (-1) (Engine.init None));
    [lia|reflexivity|lia].
Defined.

(** ** More on the path enumeration *)

Section MorePathFacts.
Context {Node : Type} `{!EqDecision Node, !Countable Node} {num : Type}.
Implicit Types (dag : gmap Node (list (Node * edge num))) (path p : list Node) (start : Node).

(** With a hop limit, the paths within the limit are all found. *)
Lemma getAllPathsLimDAG_fuel_complete_within fuel dag end_ k :
  ∀ rest start path ps,
  getAllPathsLimDAG_fuel fuel dag start end_ k path = Some ps →
  last (start :: rest) = Some end_ →
  directed_path dag (start :: rest) →
  NoDup (path ++ start :: rest) →
  k = 0 ∨ Z.of_nat (length (path ++ start :: rest)) ≤ k + 1 →
  path ++ start :: rest ∈ ps.
Proof.
  induction fuel as [|fuel IH]; intros rest start path ps; [done|].
  cbn [getAllPathsLimDAG_fuel]. unfold getAllPathsLimDAG_body.
  destruct rest as [|y rest].
  - intros Hps [= ->] _ _ _. rewrite decide_True in Hps by done.
    injection Hps as <-. left.
  - intros Hps Hlast [(adj & Hd & Hy) Hdir]%directed_path_cons Hnd Hk.
    assert (start ≠ end_) as Hne.
    { intros ->. apply NoDup_app in Hnd as (_ & _ & Hnd). apply NoDup_cons in Hnd as [Hnd _].
      apply Hnd. change (last (y :: rest) = Some end_) in Hlast.
      apply last_Some in Hlast as [l' ->]. apply elem_of_app. right. left. }
    rewrite decide_False, Hd in Hps by done.
    apply for_node_in_Some in Hps as (rs & HF & ->).
    apply list_elem_of_lookup in Hy as [i Hi].
    destruct (Forall2_lookup_l _ _ _ _ _ HF Hi) as (r & Hr & Hnew).
    apply elem_of_concat. exists r. split; [by eapply list_elem_of_lookup_2|].
    rewrite (cons_middle start path (y :: rest)), app_assoc in Hnd, Hk |- *.
    unfold newpaths_of in Hnew. rewrite decide_False in Hnew.
    + assert ((k =? 0) || (Z.of_nat (length (path ++ [start])) <? k + 1) = true) as Hc.
      { apply orb_true_iff. destruct Hk as [->|Hk]; [by left|right].
        apply Z.ltb_lt. rewrite length_app in Hk. simpl in Hk. lia. }
      rewrite Hc in Hnew. by apply (IH rest y (path ++ [start]) r Hnew).
    + apply NoDup_app in Hnd as (_ & Hnd & _). intros Hin. apply (Hnd y Hin). left.
Qed.

(** X6. With a hop limit [k > 0] the call with the default [path] returns
    exactly the loop-free directed paths from [start] to [end_] that have at
    most [k] edges: none of them is missed. *)
Theorem getAllPathsLimDAG_within_limit dag start end_ k :
  0 < k →
  ∃ ps, getAllPathsLimDAG dag start end_ k [] = Some ps ∧
    ∀ p, p ∈ ps ↔ loop_free_path dag start end_ p ∧ Z.of_nat (length (edges_of p)) ≤ k.
Proof.
  intros Hk. destruct (getAllPathsLimDAG_paths dag start end_ k) as (ps & Hps & Hsound & _).
  exists ps. split; [done|]. intros p. split.
  - intros Hp. destruct (Hsound p Hp) as (? & ? & ? & ? & Hlen). by split; [|apply Hlen].
  - intros [(Hhead & Hlast & Hnd & Hdir) Hlen].
    destruct p as [|x rest]; [done|]. injection Hhead as ->.
    apply (getAllPathsLimDAG_fuel_complete_within _ _ _ _ rest start [] ps Hps); [done..|].
    right. rewrite edges_of_length in Hlen. simpl in *. lia.
Qed.

Lemma for_node_in_no_recursion (self_ : gmap Node (list (Node * edge num)) → Node → Node → Z →
                                        list Node → option (list (list Node)))
    dag end_ k path nodes paths :
  (k =? 0) || (Z.of_nat (length path) <? k + 1) = false →
  for_node_in self_ dag end_ k path nodes paths = Some paths.
Proof.
  intros Hc%orb_false_iff. destruct Hc as [Hc1 Hc2].
  revert paths. induction nodes as [|node nodes IH]; intros paths; simpl; [done|].
  rewrite Hc1, Hc2. by destruct (decide _).
Qed.

(** X7. A negative hop limit forbids every hop, whatever [path] is passed:
    the result is the one path that stops at [start] when [start] is
    [end_], and no path otherwise. *)
Theorem getAllPathsLimDAG_negative_limit dag start end_ k path :
  k < 0 →
  getAllPathsLimDAG dag start end_ k path =
    Some (if decide (start = end_) then [path ++ [start]] else []).
Proof.
  intros Hk. unfold getAllPathsLimDAG.
  replace (size dag + 2)%nat with (S (S (size dag))) by lia.
  cbn [getAllPathsLimDAG_fuel]. unfold getAllPathsLimDAG_body at 1.
  destruct (decide (start = end_)); [done|].
  destruct (dag !! start); [|done]. apply for_node_in_no_recursion.
  apply orb_false_iff. split; [apply Z.eqb_neq; lia | apply Z.ltb_ge; lia].
Qed.

(** Lists tagged by different keys have nothing in common. *)
Lemma NoDup_concat_tagged {A K} (tag : A → K → Prop) (keys : list K) (rs : list (list A)) :
  (∀ x k1 k2, tag x k1 → tag x k2 → k1 = k2) →
  Forall2 (λ k r, NoDup r ∧ ∀ x, x ∈ r → tag x k) keys rs →
  NoDup keys → NoDup (concat rs).
Proof.
  intros Htag HF. induction HF as [|k r keys rs [Hr Hk] HF IH]; intros Hnd; simpl.
  - constructor.
  - apply NoDup_cons in Hnd as [Hnk Hnd]. apply NoDup_app. split; [done|]. split; [|by apply IH].
    intros x Hx (r' & Hr' & Hx')%elem_of_concat.
    apply list_elem_of_lookup in Hr' as [i Hi].
    destruct (Forall2_lookup_r _ _ _ _ _ HF Hi) as (k' & Hk' & _ & Htag').
    apply Hnk. rewrite (Htag x k k' (Hk x Hx) (Htag' x Hx')).
    by eapply list_elem_of_lookup_2.
Qed.

Lemma getAllPathsLimDAG_fuel_NoDup fuel dag end_ k :
  (∀ x adj, dag !! x = Some adj → NoDup (successors adj)) →
  ∀ start path ps, getAllPathsLimDAG_fuel fuel dag start end_ k path = Some ps → NoDup ps.
Proof.
  intros Hdag. induction fuel as [|fuel IH]; intros start path ps; [done|].
  cbn [getAllPathsLimDAG_fuel]. unfold getAllPathsLimDAG_body.
  destruct (decide (start = end_)); [intros [= <-]; apply NoDup_singleton|].
  destruct (dag !! start) as [adj|] eqn:Hd; [|intros [= <-]; constructor].
  intros (rs & HF & ->)%for_node_in_Some.
  apply (NoDup_concat_tagged
           (λ p node, p !! length (path ++ [start]) = Some node) (successors adj)).
  - intros p k1 k2 H1 H2. congruence.
  - eapply Forall2_impl; [done|]. intros node r Hnew. unfold newpaths_of in Hnew.
    case_decide; [injection Hnew as <-; split; [constructor|by intros ? ?%elem_of_nil]|].
    destruct (_ || _); [|injection Hnew as <-; split; [constructor|by intros ? ?%elem_of_nil]].
    split; [by eapply IH|]. intros p Hp.
    destruct (getAllPathsLimDAG_fuel_sound _ _ _ _ _ _ _ Hnew p Hp) as (rest & -> & _).
    by rewrite lookup_app_r, Nat.sub_diag.
  - by eapply Hdag.
Qed.

(** X8. Where no node lists a successor twice, as in a dictionary, no path
    is returned twice. *)
Theorem getAllPathsLimDAG_NoDup dag start end_ k path :
  (∀ x adj, dag !! x = Some adj → NoDup (successors adj)) →
  ∃ ps, getAllPathsLimDAG dag start end_ k path = Some ps ∧ NoDup ps.
Proof.
  intros Hdag. destruct (getAllPathsLimDAG_total dag start end_ k path) as [ps Hps].
  exists ps. split; [done|]. by eapply getAllPathsLimDAG_fuel_NoDup.
Qed.

End MorePathFacts.

Lemma getAllPathsLimDAG_within_limit_witness :
  ∃ ps, getAllPathsLimDAG Examples.diamond "A"%string "D"%string 2 [] = Some ps ∧
    ∀ p, p ∈ ps ↔ loop_free_path Examples.diamond "A"%string "D"%string p ∧
                  Z.of_nat (length (edges_of p)) ≤ 2.
Proof. apply (getAllPathsLimDAG_within_limit Examples.diamond "A"%string "D"%string 2). lia. Defined.

Lemma getAllPathsLimDAG_negative_limit_witness :
  getAllPathsLimDAG Examples.diamond "A"%string "D"%string (-1) [] = Some [].
Proof.
  apply (getAllPathsLimDAG_negative_limit Examples.diamond "A"%string "D"%string (-1) []). lia.
Defined.

(** The adjacency lists of the diamond name no successor twice. *)
Lemma diamond_successors_NoDup x adj :
  Examples.diamond !! x = Some adj → NoDup (successors adj).
Proof.
  intros Hx%elem_of_list_to_map_2. elem_of_cases Hx; injection Hx as -> ->;
    cbn; repeat constructor; rewrite ?elem_of_cons, ?elem_of_nil; intros H; by intuition.
Defined.

Lemma getAllPathsLimDAG_NoDup_witness :
  ∃ ps, getAllPathsLimDAG Examples.diamond "A"%string "D"%string 0 [] = Some ps ∧ NoDup ps.
Proof.
  apply (getAllPathsLimDAG_NoDup Examples.diamond "A"%string "D"%string 0 []).
  exact diamond_successors_NoDup.
Defined.

(** ** More on capacities and path probabilities *)

Lemma rmap_Ok_inv {A B} (f : A → result B) xs ys :
  rmap f xs = Ok ys → Forall2 (λ x y, f x = Ok y) xs ys.
Proof.
  revert ys. induction xs as [|x xs IH]; intros ys; simpl.
  - intros [= <-]. constructor.
  - destruct (f x) as [y|e] eqn:Hx; [|done]. simpl.
    destruct (rmap f xs) as [ys'|e]; [|done]. simpl. intros [= <-]. by constructor; [|apply IH].
Qed.

(** A comprehension returns, or raises what its first failing element
    raises. *)
Lemma rmap_outcome {A B} (f : A → result B) xs :
  (∃ ys, rmap f xs = Ok ys) ∨
  (∃ xs1 x xs2 e, xs = xs1 ++ x :: xs2 ∧ (∀ x', x' ∈ xs1 → ∃ y, f x' = Ok y) ∧
                  f x = Raise e ∧ rmap f xs = Raise e).
Proof.
  induction xs as [|x xs IH]; simpl; [left; by eexists|].
  destruct (f x) as [y|e] eqn:Hx.
  - destruct IH as [[ys ->]|(xs1 & x0 & xs2 & e & -> & Hok & Hx0 & ->)]; simpl.
    + left. by eexists.
    + right. exists (x :: xs1), x0, xs2, e. split; [done|]. split; [|done].
      intros x' [->|?]%elem_of_cons; [by eexists|by apply Hok].
  - right. exists [], x, xs, e. split; [done|]. split; [|done]. by intros ? ?%elem_of_nil.
Qed.

Lemma pymin_elem {num : Type} `{!Number num} (xs : list num) c :
  pymin xs = Ok c → c ∈ xs.
Proof.
  destruct xs as [|x xs]; [done|]. intros [= <-].
  revert x. induction xs as [|y xs IH]; intros x; simpl; [left|].
  destruct (flt y x).
  - right. apply IH.
  - specialize (IH x). apply elem_of_cons in IH as [->|Hin]; [left|right; by right].
Qed.

Section MoreCapacityFacts.
Context {Node : Type} `{!EqDecision Node, !Countable Node} {num : Type} `{!Number num}.
Implicit Types (dag : gmap Node (list (Node * edge num))) (path p : list Node).

Lemma get_edge_raises dag x y e : get_edge dag x y = Raise e → e = KeyError.
Proof.
  unfold get_edge. destruct (dag !! x); [|congruence]. destruct (assoc y _); congruence.
Qed.

Lemma getMinCapacity_Ok_inv dag path c :
  getMinCapacity dag path = Ok c →
  (2 ≤ length path)%nat ∧ directed_path dag path.
Proof.
  unfold getMinCapacity, edge_capacities.
  destruct (rmap _ (edges_of path)) as [caps|e] eqn:Hcaps; [|done]. simpl.
  apply rmap_Ok_inv in Hcaps. intros Hmin. split.
  - destruct (le_lt_dec 2 (length path)) as [|Hlt]; [done|].
    rewrite edges_of_short in Hcaps by done. by apply Forall2_nil_inv_l in Hcaps as ->.
  - intros x y Hxy. apply list_elem_of_lookup in Hxy as [i Hi].
    destruct (Forall2_lookup_l _ _ _ _ _ Hcaps Hi) as (cap & _ & Hxy).
    simpl in Hxy. destruct (get_edge dag x y) as [e|] eqn:He; [|done].
    by eapply get_edge_is_edge.
Qed.

(** On a path of at least two nodes along edges of the graph the result is
    the capacity of one of its edges. *)
Lemma getMinCapacity_returns dag path :
  (2 ≤ length path)%nat → directed_path dag path →
  ∃ c x y e, getMinCapacity dag path = Ok c ∧
             (x, y) ∈ edges_of path ∧ get_edge dag x y = Ok e ∧ capacity e = c.
Proof.
  intros Hlen Hdir.
  destruct (rmap_capacities dag (edges_of path) Hdir) as (caps & Hcaps & HF).
  assert (caps ≠ []) as Hne.
  { intros ->. apply Forall2_nil_inv_r in HF. by apply edges_of_long in Hlen. }
  unfold getMinCapacity, edge_capacities. rewrite Hcaps. simpl.
  destruct (pymin caps) as [c|] eqn:Hc; [|by destruct caps].
  pose proof (pymin_elem caps c Hc) as Hin.
  apply list_elem_of_lookup in Hin as [i Hi].
  destruct (Forall2_lookup_r _ _ _ _ _ HF Hi) as ([x y] & Hxy & e & He & Hcap).
  exists c, x, y, e. split; [done|]. split; [by eapply list_elem_of_lookup_2|done].
Qed.

(** X9. [getMinCapacity] returns a value exactly on the paths of at least
    two nodes that follow edges of the graph. A shorter path raises
    [ValueError]; a longer one with a pair of consecutive nodes that is not
    an edge raises [KeyError]. *)
Theorem getMinCapacity_outcomes dag path :
  ((∃ c, getMinCapacity dag path = Ok c) ↔
   (2 ≤ length path)%nat ∧ directed_path dag path) ∧
  ((length path < 2)%nat → getMinCapacity dag path = Raise ValueError) ∧
  ((2 ≤ length path)%nat → ¬ directed_path dag path →
   getMinCapacity dag path = Raise KeyError).
Proof.
  split; [|split].
  - split; [intros [c Hc]; by eapply getMinCapacity_Ok_inv|].
    intros [Hlen Hdir]. destruct (getMinCapacity_returns dag path Hlen Hdir)
      as (c & _ & _ & _ & Hc & _). by exists c.
  - intros Hlen. unfold getMinCapacity, edge_capacities. by rewrite edges_of_short.
  - intros Hlen Hnd. destruct (getMinCapacity dag path) as [c|e] eqn:Hc.
    { destruct Hnd. by eapply getMinCapacity_Ok_inv. }
    unfold getMinCapacity, edge_capacities in Hc.
    match type of Hc with context [rmap ?f ?l] =>
      destruct (rmap_outcome f l) as [[caps Hcaps]|(xs1 & [x y] & xs2 & e' & _ & _ & Hx & Hr)]
    end.
    + rewrite Hcaps in Hc. simpl in Hc. destruct caps; [|done].
      apply rmap_Ok_inv, Forall2_nil_inv_r in Hcaps. by apply edges_of_long in Hlen.
    + rewrite Hr in Hc. simpl in Hc, Hx. injection Hc as <-. f_equal.
      destruct (get_edge dag x y) as [?|e0] eqn:He; [done|]. simpl in Hx.
      injection Hx as <-. by eapply get_edge_raises.
Qed.

(** The loop over nodes that all have successors multiplies the shares
    from the left. *)
Lemma for_node_probability_value dag nodes a :
  (∀ x, x ∈ nodes → 0 < out_degree dag x) →
  for_node_probability dag nodes a =
  Ok (fold_left (λ q x, fmul q (fdiv (of_int 1) (of_int (out_degree dag x)))) nodes a).
Proof.
  revert a. induction nodes as [|x nodes IH]; intros a Hpos; [done|].
  pose proof (Hpos x ltac:(left)) as Hx.
  cbn [for_node_probability fold_left].
  rewrite <- IH by (intros; apply Hpos; by right).
  unfold out_degree in Hx |- *.
  destruct (dag !! x) as [adj|]; [|lia].
  by destruct (Z.eqb_spec (Z.of_nat (length adj)) 0); [lia|].
Qed.

(** X11. [getPathProbability] looks up every node of the path but the last.
    When each of them is in the graph with a successor it returns the
    product, multiplied from the left starting at [1], of the shares
    [1/float(children)]; it raises [KeyError] at the first of them that the
    graph does not have and [ZeroDivisionError] at the first that has no
    successor. The last node is never looked up. *)
Theorem getPathProbability_outcomes dag path :
  ((∀ x, x ∈ removelast path → 0 < out_degree dag x) →
   getPathProbability dag path =
   Ok (fold_left (λ q x, fmul q (fdiv (of_int 1) (of_int (out_degree dag x))))
                 (removelast path) (of_int 1))) ∧
  (∀ l1 x l2 last_,
     path = l1 ++ x :: l2 ++ [last_] → (∀ x', x' ∈ l1 → 0 < out_degree dag x') →
     (dag !! x = None → getPathProbability dag path = Raise KeyError) ∧
     (dag !! x = Some [] → getPathProbability dag path = Raise ZeroDivisionError)) ∧
  (∀ l last1 last2,
     path = l ++ [last1] →
     getPathProbability dag (l ++ [last2]) = getPathProbability dag path).
Proof.
  split; [|split].
  - intros Hpos. by apply for_node_probability_value.
  - intros l1 x l2 last_ -> Hpos. unfold getPathProbability.
    replace (l1 ++ x :: l2 ++ [last_]) with ((l1 ++ x :: l2) ++ [last_])
      by by rewrite <- app_assoc.
    rewrite removelast_last, for_node_probability_app.
    rewrite (for_node_probability_value dag l1 _ Hpos).
    simpl. split; by intros ->.
  - intros l last1 last2 ->. by rewrite !getPathProbability_snoc.
Qed.

End MoreCapacityFacts.

Section MoreExactCapacityFacts.
Context {Node : Type} `{!EqDecision Node, !Countable Node}.
Implicit Types (dag : gmap Node (list (Node * edge Q))) (path p : list Node).

(** X10. The bottleneck test of [flowCongestionProbability], for capacities
    and sizes that are exact numbers: the minimum capacity of a path is
    below a flow size exactly when some edge of the path has a capacity
    below it. *)
Theorem getMinCapacity_below dag path c (flow_size : Q) :
  getMinCapacity dag path = Ok c →
  ((c < flow_size)%Q ↔
   ∃ x y e, (x, y) ∈ edges_of path ∧ get_edge dag x y = Ok e ∧ (capacity e < flow_size)%Q).
Proof.
  intros Hc. destruct (getMinCapacity_Ok_inv _ _ _ Hc) as [Hlen Hdir].
  destruct (getMinCapacity_min dag path Hlen Hdir) as (caps & c' & _ & HF & Hc' & Hin & Hmin).
  assert (c' = c) as -> by congruence. split.
  - intros Hlt. apply list_elem_of_lookup in Hin as [i Hi].
    destruct (Forall2_lookup_r _ _ _ _ _ HF Hi) as ([x y] & Hxy & e & He & Hcap).
    exists x, y, e. split; [by eapply list_elem_of_lookup_2|]. split; [done|]. by rewrite Hcap.
  - intros (x & y & e & Hxy & He & Hlt). apply list_elem_of_lookup in Hxy as [i Hi].
    destruct (Forall2_lookup_l _ _ _ _ _ HF Hi) as (cap & Hcap & e' & He' & <-).
    assert (e' = e) as -> by congruence.
    pose proof (Hmin (capacity e) ltac:(by eapply list_elem_of_lookup_2)). lra.
Qed.

End MoreExactCapacityFacts.

Lemma getMinCapacity_below_witness :
  ((3 < 5)%Q ↔
   ∃ x y e, (x, y) ∈ edges_of ["A"; "B"; "C"; "D"]%string ∧
            get_edge Examples.line x y = Ok e ∧ (capacity e < 5)%Q).
Proof.
  apply (getMinCapacity_below Examples.line ["A"; "B"; "C"; "D"]%string 3%Q 5%Q).
  reflexivity.
Defined.

(** ** More on the per-flow congestion probability *)

Lemma rfilter_filter {A} (f : A → result bool) (g : A → bool) xs :
  (∀ x, x ∈ xs → f x = Ok (g x)) → rfilter f xs = Ok (List.filter g xs).
Proof.
  induction xs as [|x xs IH]; intros Hf; simpl; [done|].
  rewrite (Hf x) by left. simpl. rewrite IH by (intros; apply Hf; by right). simpl.
  by destruct (g x).
Qed.

Section MoreFlowFacts.
Context {Node : Type} `{!EqDecision Node, !Countable Node} {num : Type} `{!Number num}.
Implicit Types (dag : gmap Node (list (Node * edge num))) (path p : list Node).

(** X12. Between a router and itself [flowCongestionProbability] raises
    [ValueError], on every graph and for every flow size: the only path is
    the router alone and [getMinCapacity] has no edge to take a minimum
    of. *)
Theorem flowCongestionProbability_same_router dag (router : Node) (flow_size : num) :
  flowCongestionProbability dag router router flow_size = Some (Raise ValueError).
Proof.
  unfold flowCongestionProbability, getAllPathsLimDAG.
  replace (size dag + 2)%nat with (S (S (size dag))) by lia.
  cbn [getAllPathsLimDAG_fuel]. unfold getAllPathsLimDAG_body at 1.
  by rewrite decide_True.
Qed.

(** X14. A flow that no edge of the graph is too small for never congests,
    and neither does a flow towards a router that no loop-free path
    reaches: the probability returned is the [0] the sum starts from. *)
Theorem flowCongestionProbability_zero dag ingress egress (flow_size : num) :
  ingress ≠ egress →
  (∀ x y e, get_edge dag x y = Ok e → flt (capacity e) flow_size = false) ∨
  (∀ p, ¬ loop_free_path dag ingress egress p) →
  flowCongestionProbability dag ingress egress flow_size = Some (Ok (of_int 0)).
Proof.
  intros Hne Hfit.
  destruct (getAllPathsLimDAG_paths dag ingress egress 0) as (ps & Hps & Hsound & Hall).
  unfold flowCongestionProbability. rewrite Hps. simpl.
  rewrite (rfilter_filter _ (λ _, false)).
  { assert (List.filter (λ _ : list Node, false) ps = []) as ->; [|done].
    clear. by induction ps. }
  intros p Hp. destruct Hfit as [Hfit|Hnone]; [|destruct (Hnone p); by apply Hall].
  destruct (Hsound p Hp) as (Hh & Hl & _ & Hdir & _).
  destruct (getMinCapacity_returns dag p) as (c & x & y & e & -> & _ & He & <-); [|done|].
  { destruct p as [|x [|y p]]; simpl in *; [done| |lia]. congruence. }
  simpl. f_equal. by eapply Hfit.
Qed.

End MoreFlowFacts.

Section MoreExactFlowFacts.
Context {Node : Type} `{!EqDecision Node, !Countable Node}.
Implicit Types (dag : gmap Node (list (Node * edge Q))) (path p : list Node).

Lemma path_mass_filter_mono dag (g1 g2 : list Node → bool) ps :
  (∀ p, p ∈ ps → g1 p = true → g2 p = true) →
  (path_mass dag (List.filter g1 ps) <= path_mass dag (List.filter g2 ps))%Q.
Proof.
  induction ps as [|p ps IH]; intros Hg; simpl; [lra|].
  specialize (IH (λ p' Hp', Hg p' (list_elem_of_further _ _ _ Hp'))).
  pose proof (ecmp_product_nonneg dag (removelast p)).
  destruct (g1 p) eqn:H1.
  - rewrite (Hg p) by (done || left). simpl. lra.
  - destruct (g2 p); simpl; lra.
Qed.

(** The value of [flowCongestionProbability] as a mass of filtered paths. *)
Lemma flowCongestionProbability_filter dag ingress egress (flow_size : Q) :
  ingress ≠ egress →
  ∃ all_paths v,
    getAllPathsLimDAG dag ingress egress 0 [] = Some all_paths ∧
    flowCongestionProbability dag ingress egress flow_size = Some (Ok v) ∧
    (v == path_mass dag
            (List.filter (λ p, match getMinCapacity dag p with
                               | Ok c => Qltb c flow_size
                               | Raise _ => false
                               end) all_paths))%Q.
Proof.
  intros Hne.
  destruct (getAllPathsLimDAG_paths dag ingress egress 0) as (ps & Hps & Hsound & _).
  exists ps. unfold flowCongestionProbability. rewrite Hps. cbn [mbind option_bind].
  rewrite (rfilter_filter _ (λ p, match getMinCapacity dag p with
                                  | Ok c => Qltb c flow_size
                                  | Raise _ => false
                                  end)); last first.
  { intros p Hp. destruct (Hsound p Hp) as (Hh & Hl & _ & Hdir & _).
    destruct (getMinCapacity_min dag p) as (caps & c & _ & _ & -> & _); [|done|done].
    destruct p as [|x [|y p]]; simpl in *; [done| |lia]. congruence. }
  cbn [mbind result_bind].
  match goal with |- context [List.filter ?g ps] => set (sub := List.filter g ps) end.
  destruct (for_path_add_mass dag sub (of_int 0)) as (v & -> & Hv).
  { intros p Hp%list_elem_of_In%filter_In. destruct Hp as [Hp%list_elem_of_In _].
    by apply Hsound. }
  exists v. split; [done|]. split; [done|]. rewrite Hv. exact_arith. ring.
Qed.

(** X13. A larger flow congests at least as much, in exact arithmetic:
    between two different routers the congestion probability does not
    decrease when the flow size grows. *)
Theorem flowCongestionProbability_monotone dag ingress egress (size1 size2 : Q) :
  ingress ≠ egress → (size1 <= size2)%Q →
  ∃ v1 v2,
    flowCongestionProbability dag ingress egress size1 = Some (Ok v1) ∧
    flowCongestionProbability dag ingress egress size2 = Some (Ok v2) ∧
    (v1 <= v2)%Q.
Proof.
  intros Hne Hle.
  destruct (flowCongestionProbability_filter dag ingress egress size1 Hne)
    as (ps & v1 & Hps & Hv1 & Hm1).
  destruct (flowCongestionProbability_filter dag ingress egress size2 Hne)
    as (ps' & v2 & Hps' & Hv2 & Hm2).
  assert (ps' = ps) as -> by congruence.
  exists v1, v2. split; [done|]. split; [done|]. rewrite Hm1, Hm2.
  apply path_mass_filter_mono. intros p _.
  destruct (getMinCapacity dag p) as [c|]; [|done].
  rewrite !Qltb_lt. lra.
Qed.

End MoreExactFlowFacts.

Lemma flowCongestionProbability_monotone_witness :
  ∃ v1 v2,
    flowCongestionProbability Examples.diamond "A"%string "D"%string 2%Q = Some (Ok v1) ∧
    flowCongestionProbability Examples.diamond "A"%string "D"%string 5%Q = Some (Ok v2) ∧
    (v1 <= v2)%Q.
Proof.
  apply (flowCongestionProbability_monotone Examples.diamond "A"%string "D"%string 2%Q 5%Q).
  - discriminate.
  - by vm_compute.
Defined.

Lemma flowCongestionProbability_zero_witness :
  flowCongestionProbability Examples64.fan9 "D"%string "A"%string (of_int 5)
  = Some (Ok (of_int 0)).
Proof.
  apply (flowCongestionProbability_zero Examples64.fan9 "D"%string "A"%string (of_int 5)).
  - discriminate.
  - right. intros p (Hh & Hl & _ & Hdir). destruct p as [|x [|y p]]; [done|simpl in *; congruence|].
    injection Hh as ->. destruct (Hdir "D"%string y) as (adj & Hadj & Hy); [left|].
    vm_compute in Hadj. injection Hadj as <-. by apply elem_of_nil in Hy.
Defined.

(** ** More on the exact enumeration *)

Lemma product_empty {A} (ls : list (list A)) : [] ∈ ls → Itertools.product ls = [].
Proof.
  induction ls as [|l ls IH]; [by intros ?%elem_of_nil|].
  intros [<-|Hin]%elem_of_cons; simpl; [done|]. rewrite IH by done.
  clear. by induction l.
Qed.

Section MoreExactFacts.
Context {Node : Type} `{!EqDecision Node, !Countable Node} {num : Type} `{!Number num}.
Implicit Types (dag g : gmap Node (list (Node * edge num))) (path p : list Node).

(** X15. The two ends of the input space: when some flow has no candidate
    path there is no combination at all and [ExactCongestionProbability]
    raises [ZeroDivisionError]; when there is no flow there is one empty
    combination, nothing is congested and the result is [0/float(1)].
    Neither depends on the graph or on the flow sizes. *)
Theorem ExactCongestionProbability_degenerate dag (flow_paths : list (list (list Node)))
    (flow_sizes : list num) :
  ([] ∈ flow_paths →
   ExactCongestionProbability dag flow_paths flow_sizes = Raise ZeroDivisionError) ∧
  ExactCongestionProbability dag [] flow_sizes = Ok (fdiv (of_int 0) (of_int 1)).
Proof.
  split.
  - intros Hin. unfold ExactCongestionProbability. rewrite product_empty by done.
    reflexivity.
  - reflexivity.
Qed.

End MoreExactFacts.

(** ** One lap of the sampled estimator *)

Section SampledFacts.
Import Sampled SampledRun.
Context {num : Type} `{!Number num}.
Implicit Types (m n : list num) (alloc : list Z).

Lemma pyindex_in_range {A} (l : list A) (i : Z) x :
  0 ≤ i → l !! Z.to_nat i = Some x → pyindex l i = Ok x ∧ pyindex_pos l i = i.
Proof.
  intros Hi Hx. unfold pyindex, pyindex_pos.
  destruct (Z.ltb_spec i 0); [lia|]. destruct (Z.ltb_spec i 0); [lia|]. by rewrite Hx.
Qed.

(** After the loop, every entry has grown by the sizes of the flows put on
    its path, added one after the other in the order of the flows. *)
Lemma for_flow_spec n alloc : ∀ i (required_sizes : list num),
  Forall (λ a, 0 ≤ a < Z.of_nat (length required_sizes)) alloc →
  (i + length alloc ≤ length n)%nat →
  ∃ required_sizes',
    for_flow n i alloc required_sizes = Ok required_sizes' ∧
    length required_sizes' = length required_sizes ∧
    ∀ j c, required_sizes !! j = Some c →
      required_sizes' !! j = Some (demand_from c (drop i n) alloc (Z.of_nat j)).
Proof.
  induction alloc as [|a alloc IH]; intros i req Hall Hlen.
  - exists req. split; [done|]. split; [done|]. intros j c Hj. by destruct (drop i n).
  - apply Forall_cons in Hall as [Ha Hall]. simpl in Hlen.
    destruct (lookup_lt_is_Some_2 req (Z.to_nat a) ltac:(lia)) as [old Hold].
    destruct (lookup_lt_is_Some_2 n i ltac:(lia)) as [s Hs].
    destruct (pyindex_in_range req a old ltac:(lia) Hold) as [Hpy Hpos].
    cbn [for_flow]. rewrite Hpy, Hpos, Hs. simpl.
    destruct (IH (S i) (<[Z.to_nat a := fadd old s]> req)) as (req' & -> & Hl & Hreq').
    { by rewrite length_insert. }
    { lia. }
    exists req'. split; [done|]. split; [by rewrite Hl, length_insert|].
    intros j c Hj. rewrite (drop_S _ _ _ Hs). cbn [demand_from].
    destruct (decide (j = Z.to_nat a)) as [->|Hne].
    + assert (c = old) as -> by congruence.
      destruct (Z.eqb_spec a (Z.of_nat (Z.to_nat a))); [|lia].
      apply Hreq'. apply list_lookup_insert_eq. by eapply lookup_lt_Some.
    + destruct (Z.eqb_spec a (Z.of_nat j)); [lia|].
      apply Hreq'. by rewrite list_lookup_insert_ne.
Qed.

Lemma overloadedb_spec m n alloc : overloadedb m n alloc = true ↔ overloaded m n alloc.
Proof.
  unfold overloadedb, overloaded. rewrite existsb_exists. split.
  - intros ([j c] & Hin%list_elem_of_In & Hlt).
    apply list_elem_of_lookup in Hin as [i Hi].
    apply list_lookup_imap_Some in Hi as (c' & Hc' & [= -> ->]). by exists i, c'.
  - intros (j & c & Hj & Hlt). exists (j, c). split; [|done].
    apply list_elem_of_In, list_elem_of_lookup. exists j.
    apply list_lookup_imap_Some. by exists c.
Qed.

(** An allocation of the flows to paths of [m] is congested exactly when it
    overloads a path. *)
Lemma congestion_overloadedb m n alloc :
  Forall (λ a, 0 ≤ a < Z.of_nat (length m)) alloc → (length alloc ≤ length n)%nat →
  congestion m n alloc = Ok (overloadedb m n alloc).
Proof.
  intros Hall Hlen. unfold congestion.
  destruct (for_flow_spec n alloc 0 (replicate (length m) (of_int 0)))
    as (req & -> & Hl & Hreq).
  { by rewrite length_replicate. }
  { simpl. lia. }
  simpl. f_equal. rewrite length_replicate in Hl.
  apply eq_true_iff_eq. rewrite existsb_exists, overloadedb_spec. split.
  - intros (x & Hin%list_elem_of_In & Hlt).
    apply list_elem_of_lookup in Hin as [j Hj].
    apply lookup_zip_with_Some in Hj as (c & r & -> & Hc & Hr).
    rewrite (Hreq j (of_int 0)) in Hr.
    2:{ apply lookup_replicate_2. by eapply lookup_lt_Some. }
    injection Hr as <-. rewrite drop_0 in Hlt. by exists j, c.
  - intros (j & c & Hc & Hlt).
    exists (fsub c (demand n alloc (Z.of_nat j))). split; [|done].
    apply list_elem_of_In, list_elem_of_lookup. exists j.
    apply lookup_zip_with_Some. exists c, (demand n alloc (Z.of_nat j)).
    split; [done|]. split; [done|].
    rewrite (Hreq j (of_int 0)).
    { by rewrite drop_0. }
    apply lookup_replicate_2. by eapply lookup_lt_Some.
Qed.

Lemma for_sampled_counts m n allocs : ∀ c0,
  Forall (λ alloc, Forall (λ a, 0 ≤ a < Z.of_nat (length m)) alloc ∧
                   (length alloc ≤ length n)%nat) allocs →
  for_sampled m n allocs c0 =
  Ok (c0 + Z.of_nat (length (List.filter (overloadedb m n) allocs))).
Proof.
  induction allocs as [|alloc allocs IH]; intros c0 Hall; simpl.
  - by rewrite Z.add_0_r.
  - apply Forall_cons in Hall as [[Ha Hl] Hall].
    rewrite (congestion_overloadedb m n alloc Ha Hl). simpl. rewrite IH by done.
    destruct (overloadedb m n alloc); simpl; f_equal; lia.
Qed.

Lemma final_allocs_valid m n :
  Forall (λ alloc, Forall (λ a, 0 ≤ a < Z.of_nat (length m)) alloc ∧
                   (length alloc ≤ length n)%nat) (final_allocs m n).
Proof.
  apply Forall_forall. intros alloc Hin. unfold final_allocs in Hin.
  apply append_new_spec, all_allocs_spec in Hin as [Hlen Hall]. split; [done|lia].
Qed.

Lemma rmap_pyindex {A} (l : list A) (indices : list Z) :
  Forall (λ i, 0 ≤ i < Z.of_nat (length l)) indices →
  ∃ ys, rmap (pyindex l) indices = Ok ys ∧ length ys = length indices ∧
        Forall (λ y, y ∈ l) ys.
Proof.
  induction 1 as [|i indices Hi _ (ys & Hys & Hl & Hin)]; simpl.
  - exists []. by repeat split.
  - destruct (lookup_lt_is_Some_2 l (Z.to_nat i) ltac:(lia)) as [x Hx].
    destruct (pyindex_in_range l i x ltac:(lia) Hx) as [-> _]. rewrite Hys. simpl.
    exists (x :: ys). split; [done|]. split; [by rewrite <- Hl|].
    constructor; [by eapply list_elem_of_lookup_2|done].
Qed.

Lemma rmap_pyindex_all {A} (l0 l : list A) :
  rmap (pyindex (l0 ++ l)) (seqZ (Z.of_nat (length l0)) (Z.of_nat (length l))) = Ok l.
Proof.
  revert l0. induction l as [|x l IH]; intros l0; [done|].
  rewrite seqZ_cons by (simpl; lia). simpl rmap.
  destruct (pyindex_in_range (l0 ++ x :: l) (Z.of_nat (length l0)) x) as [-> _]; [lia| |].
  { rewrite Nat2Z.id. by apply list_lookup_middle. }
  replace (Z.succ (Z.of_nat (length l0))) with (Z.of_nat (length (l0 ++ [x])))
    by (rewrite length_app; simpl; lia).
  replace (Z.pred (Z.of_nat (S (length l)))) with (Z.of_nat (length l)) by lia.
  rewrite (cons_middle x l0 l), app_assoc. simpl. by rewrite IH.
Qed.

Lemma Sorted_seqZ (m len : Z) : Sorted Z.le (seqZ m len).
Proof.
  destruct (Z.le_gt_cases len 0) as [Hle|Hgt].
  { unfold seqZ. replace (Z.to_nat len) with 0%nat by lia. constructor. }
  rewrite <- (Z2Nat.id len) by lia. generalize (Z.to_nat len) as k. clear. intros k.
  revert m. induction k as [|k IH]; intros m; [constructor|].
  rewrite seqZ_cons by lia. replace (Z.pred (Z.of_nat (S k))) with (Z.of_nat k) by lia.
  constructor; [apply IH|]. destruct k as [|k]; [constructor|].
  rewrite seqZ_cons by lia. constructor. lia.
Qed.

(** A sample of the whole population, once sorted, is the population. *)
Lemma full_sample_sorted N draw :
  is_sample N N draw → merge_sort Z.le draw = seqZ 0 N.
Proof.
  intros (Hnd & Hlen & Hin).
  apply (Sorted_unique Z.le).
  - apply (Sorted_merge_sort Z.le).
  - apply Sorted_seqZ.
  - rewrite merge_sort_Permutation. apply submseteq_length_Permutation.
    + apply NoDup_submseteq; [done|]. intros i Hi. apply elem_of_seqZ.
      specialize (Hin i Hi). lia.
    + rewrite length_seqZ. lia.
Qed.

Lemma n_samples_power m n :
  n_samples m n = Z.of_nat (length m) ^ Z.of_nat (length n).
Proof.
  destruct (append_new_spec (all_allocs m n)) as [Hnd Hin]. unfold n_samples.
  set (pool := range 0 (Z.of_nat (length m))).
  assert (final_allocs m n ≡ₚ Itertools.product (replicate (length n) pool)) as ->.
  { apply NoDup_Permutation; [done| |].
    - apply product_NoDup, Forall_replicate. apply NoDup_seqZ.
    - intros t. unfold final_allocs.
      rewrite Hin, all_allocs_spec, product_elem, Forall2_replicate_pool.
      apply and_iff_compat_l, Forall_proper; [|done]. intros i.
      unfold pool. by rewrite elem_of_range. }
  rewrite product_length.
  assert (length pool = length m) as Hpool.
  { unfold pool, range. rewrite length_seqZ. lia. }
  clear Hnd Hin. generalize (length n) as r. intros r.
  induction r as [|r IH]; simpl; [done|].
  rewrite Nat2Z.inj_mul, IH, Hpool, Nat2Z.inj_succ, Z.pow_succ_r by lia. done.
Qed.

(** X17. Percentages that leave nothing to sample. With [percentage = 0] the
    call raises [ZeroDivisionError]; with a negative percentage and at least
    one allocation, [random.sample] is asked for a negative number of
    elements and raises [ValueError]; and whenever there are fewer
    allocations, [len(m) ** len(n)], than [percentage], the sample is empty
    and the ratio raises [ZeroDivisionError]: with the default percentage of
    10, two paths and three flows are too few. *)
Theorem SampledCongestionProbability_nothing_to_sample m n percentage draw :
  (percentage = 0 →
   SampledCongestionProbability m n percentage draw = Raise ZeroDivisionError) ∧
  (percentage < 0 → 0 < Z.of_nat (length m) ^ Z.of_nat (length n) →
   SampledCongestionProbability m n percentage draw = Raise ValueError) ∧
  (Z.of_nat (length m) ^ Z.of_nat (length n) < percentage →
   is_sample (n_samples m n) (n_samples m n / percentage) draw →
   SampledCongestionProbability m n percentage draw = Raise ZeroDivisionError).
Proof.
  rewrite <- n_samples_power. unfold SampledCongestionProbability.
  fold (n_samples m n). split; [|split].
  - by intros ->.
  - intros Hp HN. destruct (Z.eqb_spec percentage 0); [lia|].
    assert (n_samples m n / percentage < 0) as Hq.
    { pose proof (Z.div_mod (n_samples m n) percentage ltac:(lia)).
      pose proof (Z.mod_neg_bound (n_samples m n) percentage Hp). nia. }
    by destruct (Z.ltb_spec (n_samples m n / percentage) 0); [|lia].
  - intros HN (_ & Hlen & _).
    assert (0 ≤ n_samples m n) by (unfold n_samples; lia).
    destruct (Z.eqb_spec percentage 0); [lia|].
    rewrite Z.div_small in * by lia.
    destruct (Z.ltb_spec 0 0); [lia|]. destruct (Z.ltb_spec (n_samples m n) 0); [lia|].
    simpl. destruct draw; [done|simpl in Hlen; lia].
Qed.

(** X18. One lap over a sample that is not empty. For [percentage >= 1] and
    a draw of [n_samples / percentage >= 1] different indices, the indices
    are looked up without error in the list of allocations and the call
    returns the number of sampled allocations that overload a path divided
    by the size of the sample; the number is between 0 and that size. An
    allocation overloads a path when the capacity of the path, less the
    sizes of the flows put on it, added to [0.0] in the order of the flows,
    is below zero. *)
Theorem SampledCongestionProbability_lap m n percentage draw :
  0 < percentage → 0 < n_samples m n / percentage →
  is_sample (n_samples m n) (n_samples m n / percentage) draw →
  ∃ sampled_allocs c,
    rmap (pyindex (final_allocs m n)) (merge_sort Z.le draw) = Ok sampled_allocs ∧
    Z.of_nat (length sampled_allocs) = n_samples m n / percentage ∧
    c = Z.of_nat (length (List.filter (overloadedb m n) sampled_allocs)) ∧
    0 ≤ c ≤ n_samples m n / percentage ∧
    SampledCongestionProbability m n percentage draw =
      Ok (fdiv (of_int c) (of_int (n_samples m n / percentage))) ∧
    ∀ alloc, overloadedb m n alloc = true ↔ overloaded m n alloc.
Proof.
  intros Hp Hq (Hnd & Hlen & Hin).
  assert (0 ≤ n_samples m n) as HN by (unfold n_samples; lia).
  assert (n_samples m n / percentage ≤ n_samples m n) as Hle.
  { apply Z.div_le_upper_bound; [done|]. nia. }
  destruct (rmap_pyindex (final_allocs m n) (merge_sort Z.le draw))
    as (sampled & Hs & Hl & Hfin).
  { apply Forall_forall. intros i Hi. rewrite merge_sort_Permutation in Hi.
    apply (Hin i Hi). }
  assert (Z.of_nat (length sampled) = n_samples m n / percentage) as Htot.
  { rewrite Hl, <- Hlen. f_equal. apply Permutation_length, merge_sort_Permutation. }
  eexists sampled, _. split; [done|]. split; [done|]. split; [done|].
  pose proof (filter_length_le (overloadedb m n) sampled) as Hf.
  split; [lia|]. split; [|apply overloadedb_spec].
  unfold SampledCongestionProbability. fold (n_samples m n).
  destruct (Z.eqb_spec percentage 0); [lia|].
  destruct (Z.ltb_spec (n_samples m n / percentage) 0); [lia|].
  destruct (Z.ltb_spec (n_samples m n) (n_samples m n / percentage)); [lia|].
  simpl. rewrite Hs. simpl. rewrite for_sampled_counts; last first.
  { eapply Forall_impl; [done|]. intros alloc Ha.
    by apply (proj1 (Forall_forall _ _) (final_allocs_valid m n)). }
  simpl. rewrite Htot. by destruct (Z.eqb_spec (n_samples m n / percentage) 0); [lia|].
Qed.

(** X19. When everything is sampled, [percentage = 1], the draw does not
    matter: the result is the number of allocations that overload a path
    divided by the number of all allocations. *)
Theorem SampledCongestionProbability_full m n draw :
  0 < n_samples m n → is_sample (n_samples m n) (n_samples m n) draw →
  SampledCongestionProbability m n 1 draw =
    Ok (fdiv (of_int (Z.of_nat (length (List.filter (overloadedb m n) (final_allocs m n)))))
             (of_int (n_samples m n))).
Proof.
  intros HN Hdraw. unfold SampledCongestionProbability. fold (n_samples m n).
  rewrite Z.div_1_r. simpl.
  destruct (Z.ltb_spec (n_samples m n) 0); [lia|].
  rewrite Z.ltb_irrefl. simpl. rewrite (full_sample_sorted _ _ Hdraw).
  assert (rmap (pyindex (final_allocs m n)) (seqZ 0 (n_samples m n)) = Ok (final_allocs m n))
    as -> by apply (rmap_pyindex_all []).
  simpl.
  rewrite for_sampled_counts by apply final_allocs_valid. simpl.
  fold (n_samples m n). by destruct (Z.eqb_spec (n_samples m n) 0); [lia|].
Qed.

End SampledFacts.

Lemma sample_of_eight : SampledRun.is_sample 8 8 [3; 1; 0; 2; 7; 6; 5; 4].
Proof.
  split; [|split].
  - apply (bool_decide_unpack _). by vm_compute.
  - reflexivity.
  - intros i Hi. elem_of_cases Hi; subst i; lia.
Defined.

Lemma sample_of_two : SampledRun.is_sample 8 2 [7; 0].
Proof.
  split; [|split].
  - apply (bool_decide_unpack _). by vm_compute.
  - reflexivity.
  - intros i Hi. elem_of_cases Hi; subst i; lia.
Defined.

Lemma SampledCongestionProbability_lap_witness :
  ∃ sampled_allocs c,
    rmap (SampledRun.pyindex (Sampled.final_allocs SampledRun.two_paths SampledRun.three_flows))
         (merge_sort Z.le [7; 0]) = Ok sampled_allocs ∧
    Z.of_nat (length sampled_allocs) =
      Sampled.n_samples SampledRun.two_paths SampledRun.three_flows / 4 ∧
    c = Z.of_nat (length (List.filter
          (SampledRun.overloadedb SampledRun.two_paths SampledRun.three_flows)
          sampled_allocs)) ∧
    0 ≤ c ≤ Sampled.n_samples SampledRun.two_paths SampledRun.three_flows / 4 ∧
    SampledRun.SampledCongestionProbability
      SampledRun.two_paths SampledRun.three_flows 4 [7; 0] =
      Ok (fdiv (of_int c)
               (of_int (Sampled.n_samples SampledRun.two_paths SampledRun.three_flows / 4))) ∧
    ∀ alloc, SampledRun.overloadedb SampledRun.two_paths SampledRun.three_flows alloc = true ↔
             SampledRun.overloaded SampledRun.two_paths SampledRun.three_flows alloc.
Proof.
  apply (SampledCongestionProbability_lap
           SampledRun.two_paths SampledRun.three_flows 4 [7; 0]).
  - lia.
  - by vm_compute.
  - exact sample_of_two.
Defined.

Lemma SampledCongestionProbability_full_witness :
  SampledRun.SampledCongestionProbability
    SampledRun.two_paths SampledRun.three_flows 1 [3; 1; 0; 2; 7; 6; 5; 4] =
    Ok (fdiv (of_int (Z.of_nat (length (List.filter
                (SampledRun.overloadedb SampledRun.two_paths SampledRun.three_flows)
                (Sampled.final_allocs SampledRun.two_paths SampledRun.three_flows)))))
             (of_int (Sampled.n_samples SampledRun.two_paths SampledRun.three_flows))).
Proof.
  apply (SampledCongestionProbability_full
           SampledRun.two_paths SampledRun.three_flows [3; 1; 0; 2; 7; 6; 5; 4]).
  - by vm_compute.
  - exact sample_of_eight.
Defined.

(** ** Reading the flow file *)

Section FlowFileFacts.
Import TrafficGenerator.
Context {iface flow exc : Type}.
Variable getIpFromHostName : string → exc + option iface.
Variable Flow : iface → iface → string → string → string → string → string → exc + flow.

Lemma remove_all_idem c s : remove_all c (remove_all c s) = remove_all c s.
Proof.
  induction s as [|a s IH]; simpl; [done|].
  destruct (Ascii.eqb a c) eqn:E; simpl; [done|]. by rewrite E, IH.
Qed.

Lemma lstrip_remove_all c s : lstrip c (remove_all c s) = remove_all c s.
Proof.
  induction s as [|a s IH]; simpl; [done|].
  destruct (Ascii.eqb a c) eqn:E; simpl; [done|]. by rewrite E.
Qed.

Lemma rstrip_remove_all c s : rstrip c (remove_all c s) = remove_all c s.
Proof.
  induction s as [|a s IH]; simpl; [done|].
  destruct (Ascii.eqb a c) eqn:E; simpl; [done|].
  rewrite IH, E. by destruct (remove_all c s).
Qed.

Lemma strip_remove_all c s : strip c (remove_all c s) = remove_all c s.
Proof. unfold strip. by rewrite lstrip_remove_all, rstrip_remove_all. Qed.

Lemma for_flowline_ignored st flowline :
  ignored flowline → for_flowline getIpFromHostName Flow st flowline = inr st.
Proof. unfold ignored, for_flowline. intros H. by rewrite decide_False. Qed.

Lemma for_flowlines_app st l1 l2 :
  for_flowlines getIpFromHostName Flow st (l1 ++ l2) =
  match for_flowlines getIpFromHostName Flow st l1 with
  | inl e => inl e
  | inr st' => for_flowlines getIpFromHostName Flow st' l2
  end.
Proof.
  revert st. induction l1 as [|l l1 IH]; intros st; simpl; [done|].
  destruct (for_flowline _ _ st l); [done|]. apply IH.
Qed.

Lemma for_flowlines_ignored st flows :
  Forall ignored flows → for_flowlines getIpFromHostName Flow st flows = inr st.
Proof.
  induction 1 as [|l ls Hl _ IH]; simpl; [done|]. by rewrite for_flowline_ignored.
Qed.

(** The [try] block on a line that has not seven fields. *)
Lemma try_block_not_seven (st : @state flow) flowline :
  seven_fields flowline = None →
  try_block getIpFromHostName st (remove_all newline (remove_all space flowline)) =
  (mkState (unpacked st) (scheduled st) (log st ++ [SomethingHappens]), None, None).
Proof.
  unfold seven_fields, try_block. rewrite strip_remove_all.
  destruct (split comma _) as [|? [|? [|? [|? [|? [|? [|? [|]]]]]]]]; done.
Qed.

(** The [try] block on a line that has seven fields. *)
Lemma try_block_seven (st : @state flow) flowline s d sp dp size s_t dur :
  seven_fields flowline = Some (s, d, sp, dp, size, s_t, dur) →
  try_block getIpFromHostName st (remove_all newline (remove_all space flowline)) =
  let st1 := mkState (Some (s, d, sp, dp, size, s_t, dur)) (scheduled st) (log st) in
  let st2 := mkState (Some (s, d, sp, dp, size, s_t, dur)) (scheduled st)
                     (log st ++ [SomethingHappens]) in
  match getIpFromHostName s with
  | inl _ => (st2, None, None)
  | inr src_iface =>
    match getIpFromHostName d with
    | inl _ => (st2, None, None)
    | inr dst_iface => (st1, src_iface, dst_iface)
    end
  end.
Proof.
  unfold seven_fields, try_block. rewrite strip_remove_all.
  destruct (split comma _) as [|? [|? [|? [|? [|? [|? [|? [|]]]]]]]]; try done.
  by intros [= -> -> -> -> -> -> ->].
Qed.

(** One round on a line that is read and has not seven fields. *)
Lemma for_flowline_not_seven st flowline :
  ¬ ignored flowline → seven_fields flowline = None →
  for_flowline getIpFromHostName Flow st flowline =
  match unpacked st with
  | None => inl UnboundLocalError
  | Some (s, d, _, _, _, _, _) =>
    inr (mkState (unpacked st) (scheduled st)
                 (log st ++ [SomethingHappens; HostsDoNotExist s d]))
  end.
Proof.
  intros Hi Hs. unfold for_flowline.
  rewrite decide_True by (unfold ignored in Hi; by apply dec_stable).
  rewrite (try_block_not_seven _ _ Hs). simpl.
  destruct (unpacked st) as [[[[[[[s d] ?] ?] ?] ?] ?]|]; [|done].
  by rewrite <-(assoc_L (++)).
Qed.

(** One round on a line that is read and has seven fields. *)
Lemma for_flowline_seven st flowline s d sp dp size s_t dur :
  ¬ ignored flowline → seven_fields flowline = Some (s, d, sp, dp, size, s_t, dur) →
  match request getIpFromHostName Flow flowline with
  | Some (inl e) => for_flowline getIpFromHostName Flow st flowline = inl (Propagated e)
  | Some (inr f) =>
    for_flowline getIpFromHostName Flow st flowline =
    inr (mkState (Some (s, d, sp, dp, size, s_t, dur)) (scheduled st ++ [f]) (log st))
  | None =>
    ∃ lg, (lg = [] ∨ lg = [SomethingHappens]) ∧
      for_flowline getIpFromHostName Flow st flowline =
      inr (mkState (Some (s, d, sp, dp, size, s_t, dur)) (scheduled st)
                   (log st ++ lg ++ [HostsDoNotExist s d]))
  end.
Proof.
  intros Hi Hs. unfold request, for_flowline.
  rewrite decide_False by done.
  rewrite decide_True by (unfold ignored in Hi; by apply dec_stable).
  rewrite (try_block_seven _ _ _ _ _ _ _ _ _ Hs), Hs. simpl.
  destruct (getIpFromHostName s) as [?|[src|]]; simpl.
  - exists [SomethingHappens]. split; [by right|]. by rewrite <-(assoc_L (++)).
  - destruct (getIpFromHostName d) as [?|[dst|]]; simpl.
    + exists [SomethingHappens]. split; [by right|]. by rewrite <-(assoc_L (++)).
    + by destruct (Flow src dst sp dp size s_t dur).
    + exists []. split; [by left|done].
  - destruct (getIpFromHostName d) as [?|[dst|]]; simpl.
    + exists [SomethingHappens]. split; [by right|]. by rewrite <-(assoc_L (++)).
    + exists []. split; [by left|done].
    + exists []. split; [by left|done].
Qed.

Lemma for_flowlines_well_formed flows :
  (∀ l, l ∈ flows → ¬ ignored l → is_Some (seven_fields l)) →
  (∀ l e, l ∈ flows → request getIpFromHostName Flow l ≠ Some (inl e)) →
  ∀ st, ∃ st' new lg,
    for_flowlines getIpFromHostName Flow st flows = inr st' ∧
    scheduled st' = scheduled st ++ new ∧
    omap (request getIpFromHostName Flow) flows = inr <$> new ∧
    log st' = log st ++ lg ∧
    ∀ s d, HostsDoNotExist s d ∈ lg ↔
      ∃ l sp dp size s_t dur, l ∈ flows ∧ ¬ ignored l ∧
        seven_fields l = Some (s, d, sp, dp, size, s_t, dur) ∧
        request getIpFromHostName Flow l = None.
Proof.
  induction flows as [|l ls IH]; intros H1 H2 st.
  { exists st, [], []. rewrite !app_nil_r. repeat split; try done.
    - by intros ?%elem_of_nil.
    - intros (? & ? & ? & ? & ? & ? & ?%elem_of_nil & _); done. }
  assert (∀ l, l ∈ ls → ¬ ignored l → is_Some (seven_fields l)) as H1'
    by (intros; apply H1; [by right|done]).
  assert (∀ l e, l ∈ ls → request getIpFromHostName Flow l ≠ Some (inl e)) as H2'
    by (intros; apply H2; by right).
  specialize (IH H1' H2'). simpl.
  destruct (decide (ignored l)) as [Hi|Hi].
  - rewrite (for_flowline_ignored _ _ Hi).
    destruct (IH st) as (st' & new & lg & Hr & Hsch & Hreq & Hlog & Hlg).
    exists st', new, lg. split; [done|]. split; [done|].
    assert (request getIpFromHostName Flow l = None) as Hn
      by (unfold request; by rewrite decide_True).
    rewrite Hn. split; [done|]. split; [done|].
    intros s d. rewrite Hlg. split.
    + intros (l' & sp & dp & size & s_t & dur & Hin & Hrest).
      exists l', sp, dp, size, s_t, dur. split; [by right|done].
    + intros (l' & sp & dp & size & s_t & dur & Hin & Hni & Hrest).
      apply elem_of_cons in Hin as [->|Hin]; [done|].
      by exists l', sp, dp, size, s_t, dur.
  - destruct (H1 l (ltac:(by left)) Hi) as [[[[[[[s0 d0] sp0] dp0] size0] s_t0] dur0] Hs].
    pose proof (for_flowline_seven st l _ _ _ _ _ _ _ Hi Hs) as Hstep.
    destruct (request getIpFromHostName Flow l) as [[e|f]|] eqn:Hreq0.
    + by destruct (H2 l e (ltac:(by left))).
    + rewrite Hstep.
      destruct (IH (mkState (Some (s0, d0, sp0, dp0, size0, s_t0, dur0))
                            (scheduled st ++ [f]) (log st)))
        as (st' & new & lg & Hr & Hsch & Hreq & Hlog & Hlg).
      exists st', (f :: new), lg. split; [done|]. simpl in Hsch, Hlog.
      split; [by rewrite Hsch, <-(assoc_L (++))|].
      split; [by rewrite fmap_cons, <-Hreq|]. split; [done|].
      intros s d. rewrite Hlg. split.
      * intros (l' & sp & dp & size & s_t & dur & Hin & Hrest).
        exists l', sp, dp, size, s_t, dur. split; [by right|done].
      * intros (l' & sp & dp & size & s_t & dur & Hin & Hni & Hs' & Hn).
        apply elem_of_cons in Hin as [->|Hin]; [congruence|].
        by exists l', sp, dp, size, s_t, dur.
    + destruct Hstep as (lg0 & Hlg0 & Hstep). rewrite Hstep.
      destruct (IH (mkState (Some (s0, d0, sp0, dp0, size0, s_t0, dur0))
                            (scheduled st) (log st ++ lg0 ++ [HostsDoNotExist s0 d0])))
        as (st' & new & lg & Hr & Hsch & Hreq & Hlog & Hlg).
      exists st', new, (lg0 ++ [HostsDoNotExist s0 d0] ++ lg). split; [done|].
      simpl in Hsch, Hlog. split; [done|]. split; [done|].
      split; [by rewrite Hlog, <-!(assoc_L (++))|].
      intros s d. rewrite !elem_of_app, Hlg, list_elem_of_singleton. split.
      * intros [Hin|[[= -> ->]|(l' & sp & dp & size & s_t & dur & Hin & Hrest)]].
        -- destruct Hlg0 as [->| ->].
           ++ by apply elem_of_nil in Hin.
           ++ by apply list_elem_of_singleton in Hin.
        -- exists l, sp0, dp0, size0, s_t0, dur0. split; [by left|done].
        -- exists l', sp, dp, size, s_t, dur. split; [by right|done].
      * intros (l' & sp & dp & size & s_t & dur & Hin & Hni & Hs' & Hn).
        apply elem_of_cons in Hin as [->|Hin].
        -- right; left. congruence.
        -- right; right. by exists l', sp, dp, size, s_t, dur.
Qed.

(** X20. Spaces do not count, wherever they stand in a line: the file
    with all its spaces taken out is read in the same way. *)
Theorem scheduleFileFlows_ignores_spaces flows :
  scheduleFileFlows getIpFromHostName Flow (map (remove_all space) flows) =
  scheduleFileFlows getIpFromHostName Flow flows.
Proof.
  assert (∀ st l, for_flowline getIpFromHostName Flow st (remove_all space l) =
                  for_flowline getIpFromHostName Flow st l) as H1.
  { intros st l. unfold for_flowline. by rewrite remove_all_idem. }
  assert (∀ st, for_flowlines getIpFromHostName Flow st (map (remove_all space) flows) =
                for_flowlines getIpFromHostName Flow st flows) as H2.
  { induction flows as [|l ls IH]; intros st; simpl; [done|].
    rewrite H1. destruct (for_flowline _ _ st l); [done|]. apply IH. }
  unfold scheduleFileFlows. destruct flows as [|l ls]; [done|]. apply (H2 _).
Qed.

(** X21. A blank line or a comment (a line that is empty or starts with
    [#] once its spaces and newlines are taken out) can be removed from a
    file that has other lines without changing what is scheduled, what is
    logged or what is raised. *)
Theorem scheduleFileFlows_skips_comments before flowline after :
  ignored flowline → before ++ after ≠ [] →
  scheduleFileFlows getIpFromHostName Flow (before ++ flowline :: after) =
  scheduleFileFlows getIpFromHostName Flow (before ++ after).
Proof.
  intros Hi Hne. unfold scheduleFileFlows.
  destruct (before ++ flowline :: after) eqn:E1; [by destruct before|]. rewrite <-E1.
  destruct (before ++ after) eqn:E2; [done|]. rewrite <-E2.
  rewrite !for_flowlines_app.
  destruct (for_flowlines _ _ _ before); [done|]. simpl.
  by rewrite for_flowline_ignored.
Qed.

(** X22. When the first line that is read (neither blank nor a comment)
    has not exactly seven comma-separated fields, the function raises
    UnboundLocalError, whatever the rest of the file: the scheduler is
    never run. *)
Theorem scheduleFileFlows_first_line_malformed before flowline after :
  Forall ignored before → ¬ ignored flowline → seven_fields flowline = None →
  scheduleFileFlows getIpFromHostName Flow (before ++ flowline :: after) =
  inl UnboundLocalError.
Proof.
  intros Hb Hi Hs. unfold scheduleFileFlows.
  destruct (before ++ flowline :: after) eqn:E1; [by destruct before|]. rewrite <-E1.
  rewrite for_flowlines_app, (for_flowlines_ignored _ _ Hb). simpl.
  by rewrite (for_flowline_not_seven _ _ Hi Hs).
Qed.

(** X23. For a file in which every line that is read has seven fields,
    and in which no construction of a flow raises: the function reaches
    the scheduler, the flows entered are those of the lines whose two
    hosts are known, in the order of the file, and the hosts logged as
    not existing are those of the other lines that were read. *)
Theorem scheduleFileFlows_well_formed flows :
  (∀ l, l ∈ flows → ¬ ignored l → is_Some (seven_fields l)) →
  (∀ l e, l ∈ flows → request getIpFromHostName Flow l ≠ Some (inl e)) →
  ∃ st, scheduleFileFlows getIpFromHostName Flow flows = inr st ∧
    omap (request getIpFromHostName Flow) flows = inr <$> scheduled st ∧
    ∀ s d, HostsDoNotExist s d ∈ log st ↔
      ∃ l sp dp size s_t dur, l ∈ flows ∧ ¬ ignored l ∧
        seven_fields l = Some (s, d, sp, dp, size, s_t, dur) ∧
        request getIpFromHostName Flow l = None.
Proof.
  intros H1 H2. unfold scheduleFileFlows. destruct flows as [|l ls].
  { eexists. split; [done|]. split; [done|]. intros s d. simpl. split.
    - by intros ?%list_elem_of_singleton.
    - intros (? & ? & ? & ? & ? & ? & ?%elem_of_nil & _); done. }
  destruct (for_flowlines_well_formed (l :: ls) H1 H2 (mkState None [] []))
    as (st' & new & lg & Hr & Hsch & Hreq & Hlog & Hlg).
  exists st'. split; [done|]. simpl in Hsch, Hlog. by rewrite Hsch, Hlog.
Qed.

(** X24. Once a line with seven fields has been read, a later line with
    another number of fields does not stop the reading: nothing is
    scheduled for it, and it is logged as naming hosts that do not exist,
    under the host names of the last line that had seven fields. *)
Theorem scheduleFileFlows_stale_host_names flows good between bad st s d sp dp size s_t dur :
  scheduleFileFlows getIpFromHostName Flow (flows ++ good :: between) = inr st →
  ¬ ignored good → seven_fields good = Some (s, d, sp, dp, size, s_t, dur) →
  Forall (λ l, ignored l ∨ seven_fields l = None) between →
  ¬ ignored bad → seven_fields bad = None →
  scheduleFileFlows getIpFromHostName Flow (flows ++ good :: between ++ [bad]) =
  inr (mkState (Some (s, d, sp, dp, size, s_t, dur)) (scheduled st)
               (log st ++ [SomethingHappens; HostsDoNotExist s d])).
Proof.
  intros Hrun Hg Hgs Hbtw Hb Hbs. unfold scheduleFileFlows in *.
  destruct (flows ++ good :: between) eqn:E1; [by destruct flows|]. rewrite <-E1 in Hrun.
  destruct (flows ++ good :: between ++ [bad]) eqn:E2; [by destruct flows|]. rewrite <-E2.
  clear E1 E2.
  replace (flows ++ good :: between ++ [bad]) with ((flows ++ good :: between) ++ [bad])
    by by rewrite <-(assoc_L (++)).
  rewrite for_flowlines_app, Hrun. simpl.
  rewrite (for_flowline_not_seven _ _ Hb Hbs).
  assert (unpacked st = Some (s, d, sp, dp, size, s_t, dur)) as ->; [|done].
  rewrite for_flowlines_app in Hrun.
  destruct (for_flowlines _ _ _ flows) as [|st0]; [done|]. simpl in Hrun.
  pose proof (for_flowline_seven st0 good _ _ _ _ _ _ _ Hg Hgs) as Hstep.
  assert (∃ st1, for_flowline getIpFromHostName Flow st0 good = inr st1 ∧
                 unpacked st1 = Some (s, d, sp, dp, size, s_t, dur)) as (st1 & Hst1 & Hu).
  { destruct (request getIpFromHostName Flow good) as [[e|f]|].
    - rewrite Hstep in Hrun. done.
    - eexists. split; [done|done].
    - destruct Hstep as (lg & _ & Hstep). eexists. split; [done|done]. }
  rewrite Hst1 in Hrun. clear Hstep Hst1. revert st1 Hu Hrun.
  induction Hbtw as [|b bs Hl _ IH]; intros st1 Hu Hrun; simpl in Hrun.
  { by injection Hrun as <-. }
  destruct (decide (ignored b)) as [Hi|Hi].
  - rewrite (for_flowline_ignored _ _ Hi) in Hrun. by apply (IH st1).
  - destruct Hl as [?|Hl]; [done|].
    rewrite (for_flowline_not_seven _ _ Hi Hl), Hu in Hrun.
    revert Hrun. apply IH. done.
Qed.

End FlowFileFacts.

Lemma scheduleFileFlows_skips_comments_witness :
  TrafficGenerator.scheduleFileFlows TrafficGenerator.example_hosts TrafficGenerator.example_Flow
    ([TrafficGenerator.flow_line] ++ TrafficGenerator.comment_line
       :: [TrafficGenerator.unknown_host_line]) =
  TrafficGenerator.scheduleFileFlows TrafficGenerator.example_hosts TrafficGenerator.example_Flow
    ([TrafficGenerator.flow_line] ++ [TrafficGenerator.unknown_host_line]).
Proof.
  apply (scheduleFileFlows_skips_comments TrafficGenerator.example_hosts
           TrafficGenerator.example_Flow [TrafficGenerator.flow_line]
           TrafficGenerator.comment_line [TrafficGenerator.unknown_host_line]).
  - apply (bool_decide_unpack _). by vm_compute.
  - done.
Defined.

Lemma scheduleFileFlows_first_line_malformed_witness :
  TrafficGenerator.scheduleFileFlows TrafficGenerator.example_hosts TrafficGenerator.example_Flow
    ([TrafficGenerator.comment_line; TrafficGenerator.nl] ++ TrafficGenerator.short_line
       :: [TrafficGenerator.flow_line]) =
  inl TrafficGenerator.UnboundLocalError.
Proof.
  apply (scheduleFileFlows_first_line_malformed TrafficGenerator.example_hosts
           TrafficGenerator.example_Flow [TrafficGenerator.comment_line; TrafficGenerator.nl]
           TrafficGenerator.short_line [TrafficGenerator.flow_line]).
  - apply (bool_decide_unpack _). by vm_compute.
  - apply (bool_decide_unpack _). by vm_compute.
  - reflexivity.
Defined.

Lemma scheduleFileFlows_well_formed_witness :
  ∃ st, TrafficGenerator.scheduleFileFlows TrafficGenerator.example_hosts
          TrafficGenerator.example_Flow TrafficGenerator.example_file = inr st ∧
    omap (TrafficGenerator.request TrafficGenerator.example_hosts TrafficGenerator.example_Flow)
         TrafficGenerator.example_file = inr <$> TrafficGenerator.scheduled st ∧
    ∀ s d, TrafficGenerator.HostsDoNotExist s d ∈ TrafficGenerator.log st ↔
      ∃ l sp dp size s_t dur, l ∈ TrafficGenerator.example_file ∧
        ¬ TrafficGenerator.ignored l ∧
        TrafficGenerator.seven_fields l = Some (s, d, sp, dp, size, s_t, dur) ∧
        TrafficGenerator.request TrafficGenerator.example_hosts
          TrafficGenerator.example_Flow l = None.
Proof.
  apply (scheduleFileFlows_well_formed TrafficGenerator.example_hosts
           TrafficGenerator.example_Flow TrafficGenerator.example_file).
  - apply (proj1 (Forall_forall
      (λ l, ¬ TrafficGenerator.ignored l → is_Some (TrafficGenerator.seven_fields l)) _)).
    apply (bool_decide_unpack _). by vm_compute.
  - intros l []. revert l.
    apply (proj1 (Forall_forall
      (λ l, TrafficGenerator.request TrafficGenerator.example_hosts
              TrafficGenerator.example_Flow l ≠ Some (inl ())) _)).
    apply (bool_decide_unpack _). by vm_compute.
Defined.

Lemma scheduleFileFlows_stale_host_names_witness :
  TrafficGenerator.scheduleFileFlows TrafficGenerator.example_hosts TrafficGenerator.example_Flow
    ([TrafficGenerator.comment_line] ++ TrafficGenerator.flow_line
       :: [TrafficGenerator.nl] ++ [TrafficGenerator.short_line]) =
  inr (TrafficGenerator.mkState
         (Some ("h1", "h2", "5001", "5002", "2M", "0", "10")%string)
         [("10.0.0.1/24", "10.0.0.2/24", "5001", "5002", "2M", "0", "10")%string]
         ([] ++ [TrafficGenerator.SomethingHappens;
                 TrafficGenerator.HostsDoNotExist "h1" "h2"])).
Proof.
  apply (scheduleFileFlows_stale_host_names TrafficGenerator.example_hosts
           TrafficGenerator.example_Flow [TrafficGenerator.comment_line]
           TrafficGenerator.flow_line [TrafficGenerator.nl] TrafficGenerator.short_line
           (TrafficGenerator.mkState
              (Some ("h1", "h2", "5001", "5002", "2M", "0", "10")%string)
              [("10.0.0.1/24", "10.0.0.2/24", "5001", "5002", "2M", "0", "10")%string] [])).
  - reflexivity.
  - apply (bool_decide_unpack _). by vm_compute.
  - reflexivity.
  - apply (bool_decide_unpack _). by vm_compute.
  - apply (bool_decide_unpack _). by vm_compute.
  - reflexivity.
Defined.
